(** * The streaming session of [AudioWidgets]

    A shallow embedding of the component [AudioWidgets.tsx]:
    the refs of the component, the browser objects it drives (WebSocket,
    recorder), its event handlers, and the scheduler of its suspended [async]
    calls.  Every [await] of the source is a suspension point: the part of a
    function before it and the part after it are separate definitions, and the
    completion of the awaited promise is an event of the transition system.

    JavaScript runs one handler at a time, to its next [await]; the handlers
    are therefore functions on the state, and the interleavings of the capture
    loop, the sends and the socket are the sequences of events.

    The history of emotions and the data of the chart are modelled apart from
    the session, on values typed as the source annotates them.

    Left out: the JSX, when React runs the effects, the console, and the URL
    that [connect] builds. *)

From Stdlib Require Import ZArith PrimFloat.
From stdpp Require Import base option list strings pretty.

Set Warnings "-register-all".
Local Open Scope Z_scope.
Local Open Scope nat_scope.

(** ** Values handled by the component *)

(** A [Blob] is its bytes; [new Blob(parts)] is the concatenation of the parts. *)
Definition Blob := list Byte.byte.

Definition newBlob (parts : list Blob) : Blob := concat parts.

(** What [JSON.parse] returns.  Numbers are the binary64 values of the host;
    an object is the list of its own properties. *)
Inductive json : Type :=
| JNull
| JBool (b : bool)
| JNum (x : float)
| JStr (s : string)
| JArr (items : list json)
| JObj (members : list (string * json)).

(** [JSON.parse(event.data)]: a [SyntaxError], or the parsed value. *)
Inductive MessageData : Type :=
| NotJSON
| Parsed (response : json).

Inductive Exn : Type :=
| SyntaxError          (* JSON.parse on text that is not JSON *)
| TypeError            (* property read on null *)
| InvalidStateError    (* WebSocket.send while CONNECTING *)
| Rejected.            (* an awaited library promise was rejected *)

(** ToBoolean. *)
Definition truthy (v : json) : bool :=
  match v with
  | JNull => false
  | JBool b => b
  | JNum x => negb (PrimFloat.eqb x 0%float || negb (PrimFloat.eqb x x))
  | JStr s => negb (String.eqb s EmptyString)
  | JArr _ | JObj _ => true
  end.

Fixpoint assoc (k : string) (m : list (string * json)) : option json :=
  match m with
  | [] => None
  | (k', v) :: m' => if String.eqb k k' then Some v else assoc k m'
  end.

(** The element of an array named by the property key [k], a canonical decimal index. *)
Definition element (k : string) (items : list json) : option json :=
  i ← find (λ i, bool_decide (pretty i = k)) (seq 0 (length items));
  items !! i.

(** [v[k]] for a value [v] that is not null, [None] standing for [undefined].
    The component reads [response[modelName]?.predictions],
    [response[modelName]?.warning] and [response.error].  An inherited member,
    the [length] of an array or a string and a character of a string are
    functions, numbers or strings, none of which has a [predictions] or a
    [warning]; they are read as [undefined] here, which gives those chains the
    value they have. *)
Definition prop (v : json) (k : string) : option json :=
  match v with
  | JObj m => assoc k m
  | JArr items => element k items
  | _ => None
  end.

(** [o?.k]: [undefined] when [o] is [undefined] or null. *)
Definition optChain (o : option json) (k : string) : option json :=
  match o with
  | None | Some JNull => None
  | Some v => prop v k
  end.

(** ** Browser objects *)

Inductive ReadyState : Type := CONNECTING | OPEN | CLOSING | CLOSED.

(** A socket: its [readyState], whether its [close] event has been dispatched,
    and how many of the messages sent on it the server has not answered yet. *)
Record WebSocket : Type := mkWebSocket {
  readyState : ReadyState;
  closeFired : bool;
  awaiting : nat
}.

(** The object passed to [JSON.stringify] in [sendRequest]. *)
Record Outbound : Type := mkOutbound {
  data : string;
  models : string;
  stream_window_ms : Z
}.

(** A message that went out on the wire: the socket, the number of the batch
    it carries (its position in [drained]), and its body. *)
Record Frame : Type := mkFrame {
  via : nat;
  batch : nat;
  body : Outbound
}.

(** A [sendRequest] call suspended at [await blobToBase64(combinedBlob)]: the
    [socket] it captured, the number of its batch and [combinedBlob]. *)
Record Encode : Type := mkEncode {
  socket : nat;
  number : nat;
  combinedBlob : Blob
}.

(** ** Inputs of the component

    The props, [authContext.environment], and two functions that are not part
    of the sources: [blobToBase64], and the comparison [v == 0] of the language
    on a parsed value, which [socketOnMessage] makes of the [length] member of
    a [predictions] that is an object and not an array.  [recordingLengthMs] is
    the duration asked of [record]; a chunk is whatever [record] returns. *)
Record Inputs : Type := mkInputs {
  modelName : string;
  recordingLengthMs : Z;
  streamWindowLengthMs : Z;
  onTimeline : bool;              (* whether a callback is supplied *)
  environment : string;
  blobToBase64 : Blob → string;
  looseEq0 : json → bool
}.

(** ** State

    The six refs of the component, the browser objects reachable from them or
    from a suspended call, the suspended calls themselves, and a record of what
    the component has shown and sent.  [useState] cells are kept as the history
    of their setter calls.  Sockets and recorders are named by their position
    in [sockets] and [recorders]. *)
Record State : Type := mkState {
  (* refs *)
  socketRef : option nat;
  recorderRef : option nat;
  audioBufferRef : list Blob;
  mountRef : bool;
  numReconnects : nat;
  serverReadyRef : bool;
  (* browser objects *)
  sockets : list WebSocket;
  recorders : list bool;             (* [true]: [stopRecording] was called *)
  (* suspended calls *)
  creating : nat;                    (* [socketOnOpen] at [await AudioRecorder.create()] *)
  recording : nat;                   (* [socketOnOpen] at [await record(...)] *)
  encoding : list Encode;            (* [sendRequest] at [await blobToBase64(...)] *)
  (* what was shown and sent *)
  statuses : list json;              (* arguments of [setStatus], oldest first *)
  rendered : list json;              (* arguments of [setPredictions] *)
  timeline : list json;              (* arguments of [onTimeline] *)
  wire : list Frame;                 (* messages transmitted, oldest first *)
  captured : list Blob;              (* every chunk [record] returned *)
  drained : list (list Blob);        (* every batch [sendRequest] took from the queue *)
  effectRan : bool;                  (* the mount effect has run *)
  rejections : list Exn              (* exceptions that left a handler *)
}.

Definition set_socketRef (v : option nat) (s : State) : State :=
  {| socketRef := v; recorderRef := recorderRef s;
     audioBufferRef := audioBufferRef s; mountRef := mountRef s;
     numReconnects := numReconnects s; serverReadyRef := serverReadyRef s;
     sockets := sockets s; recorders := recorders s; creating := creating s;
     recording := recording s; encoding := encoding s; statuses := statuses s;
     rendered := rendered s; timeline := timeline s; wire := wire s;
     captured := captured s; drained := drained s; effectRan := effectRan s;
     rejections := rejections s |}.

Definition set_recorderRef (v : option nat) (s : State) : State :=
  {| socketRef := socketRef s; recorderRef := v;
     audioBufferRef := audioBufferRef s; mountRef := mountRef s;
     numReconnects := numReconnects s; serverReadyRef := serverReadyRef s;
     sockets := sockets s; recorders := recorders s; creating := creating s;
     recording := recording s; encoding := encoding s; statuses := statuses s;
     rendered := rendered s; timeline := timeline s; wire := wire s;
     captured := captured s; drained := drained s; effectRan := effectRan s;
     rejections := rejections s |}.

Definition set_audioBufferRef (v : list Blob) (s : State) : State :=
  {| socketRef := socketRef s; recorderRef := recorderRef s;
     audioBufferRef := v; mountRef := mountRef s;
     numReconnects := numReconnects s; serverReadyRef := serverReadyRef s;
     sockets := sockets s; recorders := recorders s; creating := creating s;
     recording := recording s; encoding := encoding s; statuses := statuses s;
     rendered := rendered s; timeline := timeline s; wire := wire s;
     captured := captured s; drained := drained s; effectRan := effectRan s;
     rejections := rejections s |}.

Definition set_mountRef (v : bool) (s : State) : State :=
  {| socketRef := socketRef s; recorderRef := recorderRef s;
     audioBufferRef := audioBufferRef s; mountRef := v;
     numReconnects := numReconnects s; serverReadyRef := serverReadyRef s;
     sockets := sockets s; recorders := recorders s; creating := creating s;
     recording := recording s; encoding := encoding s; statuses := statuses s;
     rendered := rendered s; timeline := timeline s; wire := wire s;
     captured := captured s; drained := drained s; effectRan := effectRan s;
     rejections := rejections s |}.

Definition set_numReconnects (v : nat) (s : State) : State :=
  {| socketRef := socketRef s; recorderRef := recorderRef s;
     audioBufferRef := audioBufferRef s; mountRef := mountRef s;
     numReconnects := v; serverReadyRef := serverReadyRef s;
     sockets := sockets s; recorders := recorders s; creating := creating s;
     recording := recording s; encoding := encoding s; statuses := statuses s;
     rendered := rendered s; timeline := timeline s; wire := wire s;
     captured := captured s; drained := drained s; effectRan := effectRan s;
     rejections := rejections s |}.

Definition set_serverReadyRef (v : bool) (s : State) : State :=
  {| socketRef := socketRef s; recorderRef := recorderRef s;
     audioBufferRef := audioBufferRef s; mountRef := mountRef s;
     numReconnects := numReconnects s; serverReadyRef := v;
     sockets := sockets s; recorders := recorders s; creating := creating s;
     recording := recording s; encoding := encoding s; statuses := statuses s;
     rendered := rendered s; timeline := timeline s; wire := wire s;
     captured := captured s; drained := drained s; effectRan := effectRan s;
     rejections := rejections s |}.

Definition set_sockets (v : list WebSocket) (s : State) : State :=
  {| socketRef := socketRef s; recorderRef := recorderRef s;
     audioBufferRef := audioBufferRef s; mountRef := mountRef s;
     numReconnects := numReconnects s; serverReadyRef := serverReadyRef s;
     sockets := v; recorders := recorders s; creating := creating s;
     recording := recording s; encoding := encoding s; statuses := statuses s;
     rendered := rendered s; timeline := timeline s; wire := wire s;
     captured := captured s; drained := drained s; effectRan := effectRan s;
     rejections := rejections s |}.

Definition set_recorders (v : list bool) (s : State) : State :=
  {| socketRef := socketRef s; recorderRef := recorderRef s;
     audioBufferRef := audioBufferRef s; mountRef := mountRef s;
     numReconnects := numReconnects s; serverReadyRef := serverReadyRef s;
     sockets := sockets s; recorders := v; creating := creating s;
     recording := recording s; encoding := encoding s; statuses := statuses s;
     rendered := rendered s; timeline := timeline s; wire := wire s;
     captured := captured s; drained := drained s; effectRan := effectRan s;
     rejections := rejections s |}.

Definition set_creating (v : nat) (s : State) : State :=
  {| socketRef := socketRef s; recorderRef := recorderRef s;
     audioBufferRef := audioBufferRef s; mountRef := mountRef s;
     numReconnects := numReconnects s; serverReadyRef := serverReadyRef s;
     sockets := sockets s; recorders := recorders s; creating := v;
     recording := recording s; encoding := encoding s; statuses := statuses s;
     rendered := rendered s; timeline := timeline s; wire := wire s;
     captured := captured s; drained := drained s; effectRan := effectRan s;
     rejections := rejections s |}.

Definition set_recording (v : nat) (s : State) : State :=
  {| socketRef := socketRef s; recorderRef := recorderRef s;
     audioBufferRef := audioBufferRef s; mountRef := mountRef s;
     numReconnects := numReconnects s; serverReadyRef := serverReadyRef s;
     sockets := sockets s; recorders := recorders s; creating := creating s;
     recording := v; encoding := encoding s; statuses := statuses s;
     rendered := rendered s; timeline := timeline s; wire := wire s;
     captured := captured s; drained := drained s; effectRan := effectRan s;
     rejections := rejections s |}.

Definition set_encoding (v : list Encode) (s : State) : State :=
  {| socketRef := socketRef s; recorderRef := recorderRef s;
     audioBufferRef := audioBufferRef s; mountRef := mountRef s;
     numReconnects := numReconnects s; serverReadyRef := serverReadyRef s;
     sockets := sockets s; recorders := recorders s; creating := creating s;
     recording := recording s; encoding := v; statuses := statuses s;
     rendered := rendered s; timeline := timeline s; wire := wire s;
     captured := captured s; drained := drained s; effectRan := effectRan s;
     rejections := rejections s |}.

Definition set_statuses (v : list json) (s : State) : State :=
  {| socketRef := socketRef s; recorderRef := recorderRef s;
     audioBufferRef := audioBufferRef s; mountRef := mountRef s;
     numReconnects := numReconnects s; serverReadyRef := serverReadyRef s;
     sockets := sockets s; recorders := recorders s; creating := creating s;
     recording := recording s; encoding := encoding s; statuses := v;
     rendered := rendered s; timeline := timeline s; wire := wire s;
     captured := captured s; drained := drained s; effectRan := effectRan s;
     rejections := rejections s |}.

Definition set_rendered (v : list json) (s : State) : State :=
  {| socketRef := socketRef s; recorderRef := recorderRef s;
     audioBufferRef := audioBufferRef s; mountRef := mountRef s;
     numReconnects := numReconnects s; serverReadyRef := serverReadyRef s;
     sockets := sockets s; recorders := recorders s; creating := creating s;
     recording := recording s; encoding := encoding s; statuses := statuses s;
     rendered := v; timeline := timeline s; wire := wire s;
     captured := captured s; drained := drained s; effectRan := effectRan s;
     rejections := rejections s |}.

Definition set_timeline (v : list json) (s : State) : State :=
  {| socketRef := socketRef s; recorderRef := recorderRef s;
     audioBufferRef := audioBufferRef s; mountRef := mountRef s;
     numReconnects := numReconnects s; serverReadyRef := serverReadyRef s;
     sockets := sockets s; recorders := recorders s; creating := creating s;
     recording := recording s; encoding := encoding s; statuses := statuses s;
     rendered := rendered s; timeline := v; wire := wire s;
     captured := captured s; drained := drained s; effectRan := effectRan s;
     rejections := rejections s |}.

Definition set_wire (v : list Frame) (s : State) : State :=
  {| socketRef := socketRef s; recorderRef := recorderRef s;
     audioBufferRef := audioBufferRef s; mountRef := mountRef s;
     numReconnects := numReconnects s; serverReadyRef := serverReadyRef s;
     sockets := sockets s; recorders := recorders s; creating := creating s;
     recording := recording s; encoding := encoding s; statuses := statuses s;
     rendered := rendered s; timeline := timeline s; wire := v;
     captured := captured s; drained := drained s; effectRan := effectRan s;
     rejections := rejections s |}.

Definition set_captured (v : list Blob) (s : State) : State :=
  {| socketRef := socketRef s; recorderRef := recorderRef s;
     audioBufferRef := audioBufferRef s; mountRef := mountRef s;
     numReconnects := numReconnects s; serverReadyRef := serverReadyRef s;
     sockets := sockets s; recorders := recorders s; creating := creating s;
     recording := recording s; encoding := encoding s; statuses := statuses s;
     rendered := rendered s; timeline := timeline s; wire := wire s;
     captured := v; drained := drained s; effectRan := effectRan s;
     rejections := rejections s |}.

Definition set_drained (v : list (list Blob)) (s : State) : State :=
  {| socketRef := socketRef s; recorderRef := recorderRef s;
     audioBufferRef := audioBufferRef s; mountRef := mountRef s;
     numReconnects := numReconnects s; serverReadyRef := serverReadyRef s;
     sockets := sockets s; recorders := recorders s; creating := creating s;
     recording := recording s; encoding := encoding s; statuses := statuses s;
     rendered := rendered s; timeline := timeline s; wire := wire s;
     captured := captured s; drained := v; effectRan := effectRan s;
     rejections := rejections s |}.

Definition set_effectRan (v : bool) (s : State) : State :=
  {| socketRef := socketRef s; recorderRef := recorderRef s;
     audioBufferRef := audioBufferRef s; mountRef := mountRef s;
     numReconnects := numReconnects s; serverReadyRef := serverReadyRef s;
     sockets := sockets s; recorders := recorders s; creating := creating s;
     recording := recording s; encoding := encoding s; statuses := statuses s;
     rendered := rendered s; timeline := timeline s; wire := wire s;
     captured := captured s; drained := drained s; effectRan := v;
     rejections := rejections s |}.

Definition set_rejections (v : list Exn) (s : State) : State :=
  {| socketRef := socketRef s; recorderRef := recorderRef s;
     audioBufferRef := audioBufferRef s; mountRef := mountRef s;
     numReconnects := numReconnects s; serverReadyRef := serverReadyRef s;
     sockets := sockets s; recorders := recorders s; creating := creating s;
     recording := recording s; encoding := encoding s; statuses := statuses s;
     rendered := rendered s; timeline := timeline s; wire := wire s;
     captured := captured s; drained := drained s; effectRan := effectRan s;
     rejections := v |}.

(** The component before its mount effect: the initial values of the refs. *)
Definition init : State :=
  {| socketRef := None; recorderRef := None; audioBufferRef := [];
     mountRef := true; numReconnects := 0; serverReadyRef := true;
     sockets := []; recorders := []; creating := 0; recording := 0;
     encoding := []; statuses := []; rendered := []; timeline := [];
     wire := []; captured := []; drained := []; effectRan := false;
     rejections := [] |}.

(** The current value of the [status] and [predictions] cells. *)
Definition status (s : State) : json := List.last (statuses s) (JStr EmptyString).

Definition predictions (s : State) : json := List.last (rendered s) (JArr []).

(** ** Procedures

    A handler runs to completion on the state; it returns or throws, and what
    it wrote before throwing stays written. *)
Inductive Completion : Type := Normal | Throw (e : Exn).

Definition Proc : Type := State → Completion * State.

Definition skip : Proc := λ s, (Normal, s).

Definition exec (f : State → State) : Proc := λ s, (Normal, f s).

Definition throw (e : Exn) : Proc := λ s, (Throw e, s).

Definition andThen (p q : Proc) : Proc :=
  λ s, match p s with
       | (Normal, s') => q s'
       | (Throw e, s') => (Throw e, s')
       end.

Definition read {A : Type} (get : State → A) (k : A → Proc) : Proc :=
  λ s, k (get s) s.

Declare Scope proc_scope.
Delimit Scope proc_scope with proc.
Bind Scope proc_scope with Proc.
Notation "p ;; q" := (andThen p q)
  (at level 100, q at level 200, right associativity) : proc_scope.
Notation "'const' x ':=' g 'in' k" := (read g (λ x, k))
  (at level 10, x binder, k at level 200) : proc_scope.
Local Open Scope proc_scope.

(** ** The WebSocket and recorder interfaces *)

Definition newWebSocket : WebSocket :=
  {| readyState := CONNECTING; closeFired := false; awaiting := 0 |}.

Definition readyStateOf (s : State) (h : nat) : ReadyState :=
  match sockets s !! h with
  | Some w => readyState w
  | None => CLOSED
  end.

Definition onSocket (h : nat) (f : WebSocket → WebSocket) (s : State) : State :=
  set_sockets (alter f h (sockets s)) s.

Definition withReadyState (r : ReadyState) (w : WebSocket) : WebSocket :=
  {| readyState := r; closeFired := closeFired w; awaiting := awaiting w |}.

(** [socket.close()]: starts the closing handshake of a socket that is
    connecting or open, and does nothing otherwise. *)
Definition closing (w : WebSocket) : WebSocket :=
  match readyState w with
  | CONNECTING | OPEN => withReadyState CLOSING w
  | CLOSING | CLOSED => w
  end.

Definition ws_close (h : nat) : State → State := onSocket h closing.

Definition owed (w : WebSocket) : WebSocket :=
  {| readyState := readyState w; closeFired := closeFired w;
     awaiting := S (awaiting w) |}.

(** [socket.send(text)]: throws while connecting, transmits when open, and
    discards the text once the socket is closing or closed. *)
Definition ws_send (h n : nat) (m : Outbound) : Proc :=
  const r := (λ s, readyStateOf s h) in
  match r with
  | CONNECTING => throw InvalidStateError
  | OPEN =>
      exec (λ s, set_wire (wire s ++ [mkFrame h n m]) s) ;;
      exec (onSocket h owed)
  | CLOSING | CLOSED => skip
  end.

(** [recorder.stopRecording()]. *)
Definition stopRecording (r : nat) (s : State) : State :=
  set_recorders (<[r := true]> (recorders s)) s.

(** A call of an [async] function that is not awaited: an exception in the
    callee rejects its promise and does not reach the caller. *)
Definition detached (p : Proc) : Proc :=
  λ s, match p s with
       | (Normal, s') => (Normal, s')
       | (Throw e, s') => (Normal, set_rejections (rejections s' ++ [e]) s')
       end.

(** ** The component *)

Section AudioWidgets.

Variable P : Inputs.

Definition maxReconnects : nat := 3.

Definition setStatus (v : json) : Proc :=
  exec (λ s, set_statuses (statuses s ++ [v]) s).

Definition setPredictions (v : json) : Proc :=
  exec (λ s, set_rendered (rendered s ++ [v]) s).

(** [connect], lines 77-91. *)
Definition connect : Proc :=
  exec (set_serverReadyRef true) ;;
  setStatus (JStr "Connecting to server...") ;;
  exec (λ s, set_socketRef (Some (length (sockets s)))
               (set_sockets (sockets s ++ [newWebSocket]) s)).

(** [stopEverything], lines 179-198. *)
Definition stopEverything : Proc :=
  exec (set_mountRef false) ;;
  (const socket := socketRef in
   match socket with
   | Some h => exec (ws_close h) ;; exec (set_socketRef None)
   | None => skip
   end) ;;
  (const recorder := recorderRef in
   match recorder with
   | Some r => exec (stopRecording r) ;; exec (set_recorderRef None)
   | None => skip
   end).

(** [sendRequest], lines 200-229, up to [await blobToBase64(combinedBlob)].
    The batch taken is recorded in [drained]; its position there is its number. *)
Definition sendRequest : Proc :=
  const socket := socketRef in
  match socket with
  | None => skip
  | Some h =>
      const state := (λ s, readyStateOf s h) in
      match state with
      | OPEN =>
          const parts := audioBufferRef in
          exec (set_serverReadyRef false) ;;
          exec (set_audioBufferRef []) ;;
          exec (λ s, set_encoding
                       (encoding s ++ [mkEncode h (length (drained s)) (newBlob parts)])
                       (set_drained (drained s ++ [parts]) s))
      | CONNECTING | CLOSING | CLOSED => exec (ws_close h)
      end
  end.

(** [sendRequest] from the completion of [blobToBase64] on. *)
Definition sendRequest_encoded (e : Encode) : Proc :=
  ws_send (socket e) (number e)
    {| data := blobToBase64 P (combinedBlob e);
       models := modelName P;
       stream_window_ms := streamWindowLengthMs P |}.

(** The test of the [while] loop of [socketOnOpen] and, when it passes, the
    call of [recorderRef.current.record(recordingLengthMs)]. *)
Definition socketOnOpen_while : Proc :=
  const mounted := mountRef in
  if mounted then
    const recorder := recorderRef in
    match recorder with
    | Some _ => exec (λ s, set_recording (S (recording s)) s)
    | None => throw TypeError
    end
  else skip.

(** [socketOnOpen], lines 93-106, up to [await AudioRecorder.create()]. *)
Definition socketOnOpen : Proc :=
  setStatus (JStr EmptyString) ;;
  exec (λ s, set_creating (S (creating s)) s).

(** [socketOnOpen] from the completion of [AudioRecorder.create()] on. *)
Definition socketOnOpen_created : Proc :=
  exec (λ s, set_recorderRef (Some (length (recorders s)))
               (set_recorders (recorders s ++ [false]) s)) ;;
  socketOnOpen_while.

(** The loop body from the completion of [record] on, and the next test. *)
Definition socketOnOpen_recorded (blob : Blob) : Proc :=
  exec (λ s, set_audioBufferRef (audioBufferRef s ++ [blob]) s) ;;
  (const ready := serverReadyRef in
   if ready then detached sendRequest else skip) ;;
  socketOnOpen_while.

(** [v.length == 0] for a value that is not null. *)
Definition lengthEq0 (v : json) : bool :=
  match v with
  | JArr items => Nat.eqb (length items) 0
  | JStr s => Nat.eqb (String.length s) 0
  | JObj m => match assoc "length" m with
              | Some x => looseEq0 P x
              | None => false
              end
  | JNull | JBool _ | JNum _ => false
  end.

(** [socketOnMessage] after the test of [error]. *)
Definition socketOnMessage_deliver (newPredictions : json) : Proc :=
  setPredictions newPredictions ;;
  (if onTimeline P
   then exec (λ s, set_timeline (timeline s ++ [newPredictions]) s)
   else skip) ;;
  (if lengthEq0 newPredictions
   then if String.eqb (modelName P) "burst"
        then setStatus (JStr "No vocal bursts detected")
        else setStatus (JStr "No speech detected")
   else skip) ;;
  (const queue := audioBufferRef in
   if 0 <? length queue
   then detached sendRequest
   else exec (set_serverReadyRef true)).

(** [socketOnMessage], lines 108-139.  On null, [response[modelName]] throws. *)
Definition socketOnMessage (d : MessageData) : Proc :=
  setStatus (JStr EmptyString) ;;
  match d with
  | NotJSON => throw SyntaxError
  | Parsed JNull => throw TypeError
  | Parsed response =>
      let newPredictions :=
        match optChain (prop response (modelName P)) "predictions" with
        | Some v => if truthy v then v else JArr []
        | None => JArr []
        end in
      match prop response "error" with
      | Some error =>
          if truthy error
          then setStatus error ;; stopEverything
          else socketOnMessage_deliver newPredictions
      | None => socketOnMessage_deliver newPredictions
      end
  end.

(** [socketOnClose], lines 155-165. *)
Definition socketOnClose : Proc :=
  const mounted := mountRef in
  if mounted
  then setStatus (JStr "Reconnecting") ;; detached connect
  else skip.

(** The template literal of [socketOnError]; it spans two lines of the source. *)
Definition failedToConnect : string :=
  "Failed to connect to the Hume API (" +:+ environment P +:+ ")."
  +:+ String (Ascii.ascii_of_nat 10)
        "      Please log out and verify that your API key is correct.".

(** [socketOnError], lines 167-177. *)
Definition socketOnError : Proc :=
  const n := numReconnects in
  if maxReconnects <? n
  then setStatus (JStr failedToConnect) ;; stopEverything
  else exec (λ s, set_numReconnects (S (numReconnects s)) s).

(** The mount effect and its cleanup, lines 67-75. *)
Definition mountEffect : Proc :=
  exec (set_mountRef true) ;; detached connect.

Definition cleanup : Proc := stopEverything.

(** ** Events

    What the browser can do to the component: run the mount effect or its
    cleanup, dispatch an event of a socket, or complete a promise on which a
    call is suspended.  [SockClosing] is the server starting the closing
    handshake; it has no handler. *)
Inductive Event : Type :=
| Mount
| Unmount
| SockOpen (h : nat)
| SockMessage (h : nat) (d : MessageData)
| SockClosing (h : nat)
| SockError (h : nat)
| SockClose (h : nat)
| RecorderCreated
| RecorderFailed
| ChunkRecorded (blob : Blob)
| RecordFailed
| Encoded (i : nat)
| EncodeFailed (i : nat).

(** An exception that leaves a handler rejects its promise; nothing awaits it. *)
Definition settle (r : Completion * State) : State :=
  match r with
  | (Normal, s) => s
  | (Throw e, s) => set_rejections (rejections s ++ [e]) s
  end.

Definition isOPEN (r : ReadyState) : bool :=
  match r with OPEN => true | _ => false end.

Definition isCONNECTING (r : ReadyState) : bool :=
  match r with CONNECTING => true | _ => false end.

Definition isCLOSED (r : ReadyState) : bool :=
  match r with CLOSED => true | _ => false end.

Definition answered (w : WebSocket) : WebSocket :=
  {| readyState := readyState w; closeFired := closeFired w;
     awaiting := pred (awaiting w) |}.

Definition closedNow (w : WebSocket) : WebSocket :=
  {| readyState := CLOSED; closeFired := true; awaiting := awaiting w |}.

(** One event.  [None]: the browser cannot produce the event in this state.
    - the mount effect runs once, its cleanup only after it;
    - [open] is dispatched on a connecting socket, [message] on an open one;
    - [error] is dispatched when a connection fails, with the socket already
      [CLOSED], and [close] follows it; [close] is dispatched once per socket;
    - a promise completes only where a call is suspended on it.
    Besides running the handler, an event keeps the books: a message counts as
    an answer on its socket, a chunk is added to [captured]. *)
Definition step (e : Event) (s : State) : option State :=
  match e with
  | Mount =>
      if effectRan s then None
      else Some (settle (mountEffect (set_effectRan true s)))
  | Unmount =>
      if effectRan s then Some (settle (cleanup s)) else None
  | SockOpen h =>
      w ← sockets s !! h;
      if isCONNECTING (readyState w)
      then Some (settle (socketOnOpen (onSocket h (withReadyState OPEN) s)))
      else None
  | SockMessage h d =>
      w ← sockets s !! h;
      if isOPEN (readyState w)
      then Some (settle (socketOnMessage d (onSocket h answered s)))
      else None
  | SockClosing h =>
      w ← sockets s !! h;
      if isOPEN (readyState w)
      then Some (onSocket h (withReadyState CLOSING) s)
      else None
  | SockError h =>
      w ← sockets s !! h;
      if isCLOSED (readyState w) then None
      else Some (settle (socketOnError (onSocket h (withReadyState CLOSED) s)))
  | SockClose h =>
      w ← sockets s !! h;
      if closeFired w then None
      else Some (settle (socketOnClose (onSocket h closedNow s)))
  | RecorderCreated =>
      match creating s with
      | 0 => None
      | S n => Some (settle (socketOnOpen_created (set_creating n s)))
      end
  | RecorderFailed =>
      match creating s with
      | 0 => None
      | S n => Some (settle (throw Rejected (set_creating n s)))
      end
  | ChunkRecorded blob =>
      match recording s with
      | 0 => None
      | S n =>
          Some (settle (socketOnOpen_recorded blob
                          (set_captured (captured s ++ [blob]) (set_recording n s))))
      end
  | RecordFailed =>
      match recording s with
      | 0 => None
      | S n => Some (settle (throw Rejected (set_recording n s)))
      end
  | Encoded i =>
      e ← encoding s !! i;
      Some (settle (sendRequest_encoded e (set_encoding (delete i (encoding s)) s)))
  | EncodeFailed i =>
      e ← encoding s !! i;
      Some (settle (throw Rejected (set_encoding (delete i (encoding s)) s)))
  end.

(** A sequence of events, from [s]. *)
Fixpoint run (t : list Event) (s : State) : option State :=
  match t with
  | [] => Some s
  | e :: t' => s' ← step e s; run t' s'
  end.

(** A [message] event is a response when the server owes one on that socket. *)
Definition isResponse (s : State) (e : Event) : bool :=
  match e with
  | SockMessage h _ =>
      match sockets s !! h with
      | Some w => 0 <? awaiting w
      | None => false
      end
  | _ => true
  end.

(** Every [message] of the sequence answers a message sent before it. *)
Fixpoint responsive (t : list Event) (s : State) : bool :=
  match t with
  | [] => true
  | e :: t' =>
      isResponse s e &&
      match step e s with
      | Some s' => responsive t' s'
      | None => true
      end
  end.

End AudioWidgets.

(** ** [ProsodyWidgets]

    The instance of the component that the repository renders. *)

(** Modelled from the spec: [blobToBase64] of [lib/utilities/blobUtilities],
    which is not part of the sources; the spec says of it only that the [data]
    of an outbound message is the base64 audio blob.  This is the standard
    alphabet with padding. *)
Definition base64Digit (n : N) : Ascii.ascii :=
  if (n <? 26)%N then Ascii.ascii_of_N (65 + n)
  else if (n <? 52)%N then Ascii.ascii_of_N (97 + (n - 26))
  else if (n <? 62)%N then Ascii.ascii_of_N (48 + (n - 52))
  else if (n =? 62)%N then Ascii.ascii_of_N 43
  else Ascii.ascii_of_N 47.

(** The four digits of a group of three bytes, given as a 24-bit number. *)
Definition base64Group (n : N) (digits : nat) (rest : string) : string :=
  let d (k : N) := base64Digit ((n / k) mod 64)%N in
  let pad := Ascii.ascii_of_N 61 in
  String (d 262144%N) (String (d 4096%N)
    (String (if 2 <? digits then d 64%N else pad)
       (String (if 3 <? digits then d 1%N else pad) rest))).

Fixpoint base64 (b : Blob) : string :=
  match b with
  | [] => EmptyString
  | [x] => base64Group (Byte.to_N x * 65536)%N 2 EmptyString
  | [x; y] => base64Group (Byte.to_N x * 65536 + Byte.to_N y * 256)%N 3 EmptyString
  | x :: y :: z :: b' =>
      base64Group (Byte.to_N x * 65536 + Byte.to_N y * 256 + Byte.to_N z)%N 4 (base64 b')
  end.

Definition ProsodyWidgets : Inputs :=
  {| modelName := "prosody";
     recordingLengthMs := 500;
     streamWindowLengthMs := 5000;
     onTimeline := false;
     environment := "prod";
     blobToBase64 := base64;
     looseEq0 := λ _, false |}.

(** ** The chart of emotions

    Besides the session, the component keeps a history of the strongest
    emotions of the predictions it shows and renders it as a line chart.
    The values are typed as the source annotates them: an [Emotion] has a
    [name] and a [score], and of an [AudioPrediction] the component reads the
    [emotions] only. *)

Module Emotion.
Record t : Type := mk { name : string; score : float }.
End Emotion.

Module AudioPrediction.
Record t : Type := mk { emotions : list Emotion.t }.
End AudioPrediction.

(** An entry of [emotionsHistory]. *)
Record Point : Type := mkPoint { time : string; name : string; score : float }.

(** The [ChartData] that [transformEmotionsToChartData] builds. *)
Module Chart.
Record Dataset : Type := mkDataset { label : string; data : list float }.
Record ChartData : Type := mk { labels : list (list string); datasets : list Dataset }.
End Chart.

(** [predictions.length == 0 ? [] : predictions[0].emotions], line 48. *)
Definition emotions (predictions : list AudioPrediction.t) : list Emotion.t :=
  match predictions with
  | [] => []
  | p :: _ => AudioPrediction.emotions p
  end.

(** [transformEmotionsToChartData], lines 141-152. *)
Definition transformEmotionsToChartData (emotionsHistory : list Point) : Chart.ChartData :=
  let labels := (λ e, [time e]) <$> emotionsHistory in
  let data := score <$> emotionsHistory in
  {| Chart.labels := labels;
     Chart.datasets := [{| Chart.label := "Emotion Score"; Chart.data := data |}] |}.

(** The comparator of the effect, [(a, b) => b.score - a.score]. *)
Definition compareFn (a b : Emotion.t) : float :=
  (Emotion.score b - Emotion.score a)%float.

(** [Array.prototype.sort(comparefn)].  An element [a] goes after [b] when
    [comparefn(a, b) > 0], a result that is [NaN] counting as [0], and elements
    that compare as equal keep their order.  With a comparator that orders the
    elements consistently this is the list every implementation returns; with
    another one the order is left to the implementation, and the result is a
    permutation of the array all the same. *)
Fixpoint insertSorted (comparefn : Emotion.t → Emotion.t → float) (a : Emotion.t)
    (l : list Emotion.t) : list Emotion.t :=
  match l with
  | [] => [a]
  | b :: l' =>
      if (0 <? comparefn a b)%float then b :: insertSorted comparefn a l' else a :: l
  end.

Definition sort (comparefn : Emotion.t → Emotion.t → float) (l : list Emotion.t)
    : list Emotion.t :=
  foldr (insertSorted comparefn) [] l.

(** The effect of lines 56-65, run at the time [now] on the array [es] and
    the history [prev].  [sort] works in place: the first component is the
    array [es] as the effect leaves it, the second the new history. *)
Definition emotionsEffect (now : string) (es : list Emotion.t) (prev : list Point)
    : list Emotion.t * list Point :=
  let sorted := sort compareFn es in
  let topEmotions := take 3 sorted in
  let newHistory :=
    (λ emotion, {| time := now; name := Emotion.name emotion;
                   score := Emotion.score emotion |}) <$> topEmotions in
  (sorted, prev ++ newHistory).

(** What the language asks of a comparator for the order of the result to be
    fixed: on the elements [es], comparing as equal is reflexive, symmetric and
    transitive, and going before and going after are transitive.  The
    comparator of the effect meets it when the scores are finite numbers; a
    score that is [NaN] compares as equal to every other and breaks it. *)
Definition gtCF (a b : Emotion.t) : bool := (0 <? compareFn a b)%float.
Definition ltCF (a b : Emotion.t) : bool := (compareFn a b <? 0)%float.
Definition eqCF (a b : Emotion.t) : bool := negb (gtCF a b) && negb (ltCF a b).

Definition consistent (es : list Emotion.t) : bool :=
  forallb (λ a,
    eqCF a a &&
    forallb (λ b,
      implb (eqCF a b) (eqCF b a) &&
      forallb (λ c,
        implb (eqCF a b && eqCF b c) (eqCF a c) &&
        implb (ltCF a b && ltCF b c) (ltCF a c) &&
        implb (gtCF a b && gtCF b c) (gtCF a c)) es) es) es.

(** * States, written out

    The states in which the handlers leave the component, as functions of the
    state they start from. *)

(** The part of the state that is not display: two states with the same
    [core] differ in [statuses], [rendered] and [timeline] only. *)
Definition core (s : State) :=
  (socketRef s, recorderRef s, audioBufferRef s, mountRef s, numReconnects s,
   serverReadyRef s, sockets s, recorders s, creating s, recording s,
   encoding s, wire s, captured s, drained s, effectRan s, rejections s).

(** The socket of [socketRef] closed and the ref cleared. *)
Definition closeCurrent (s : State) : State :=
  match socketRef s with
  | Some h => set_socketRef None (ws_close h s)
  | None => s
  end.

(** The recorder of [recorderRef] stopped and the ref cleared. *)
Definition stopCurrent (s : State) : State :=
  match recorderRef s with
  | Some r => set_recorderRef None (stopRecording r s)
  | None => s
  end.

(** The state in which [stopEverything] leaves [s]. *)
Definition stopped (s : State) : State :=
  stopCurrent (closeCurrent (set_mountRef false s)).

(** The state in which [sendRequest] leaves [s] when it takes the queue for
    the open socket [h]. *)
Definition taken (h : nat) (s : State) : State :=
  set_encoding
    (encoding s ++ [mkEncode h (length (drained s)) (newBlob (audioBufferRef s))])
    (set_drained (drained s ++ [audioBufferRef s])
       (set_audioBufferRef [] (set_serverReadyRef false s))).

(** The state in which [connect] leaves [s]. *)
Definition connected (s : State) : State :=
  set_socketRef (Some (length (sockets s)))
    (set_sockets (sockets s ++ [newWebSocket])
       (set_statuses (statuses s ++ [JStr "Connecting to server..."])
          (set_serverReadyRef true s))).

(** The queue after [record] returned [blob]. *)
Definition pushed (blob : Blob) (s : State) : State :=
  set_audioBufferRef (audioBufferRef s ++ [blob])
    (set_captured (captured s ++ [blob]) s).

(** A suspended send leaves [encoding] ... *)
Definition resumed (i : nat) (s : State) : State :=
  set_encoding (delete i (encoding s)) s.

(** ... and its message goes out on an open socket. *)
Definition transmitted (P : Inputs) (e : Encode) (s : State) : State :=
  onSocket (socket e) owed
    (set_wire
       (wire s ++ [mkFrame (socket e) (number e)
                     {| data := blobToBase64 P (combinedBlob e);
                        models := modelName P;
                        stream_window_ms := streamWindowLengthMs P |}]) s).

(** The state when [record] has returned [blob] to a loop. *)
Definition arrived (blob : Blob) (n : nat) (s : State) : State :=
  set_audioBufferRef (audioBufferRef s ++ [blob])
    (set_captured (captured s ++ [blob]) (set_recording n s)).

(** A response that is not null and has no truthy [error]. *)
Definition accepted (response : json) : bool :=
  match response with
  | JNull => false
  | _ => match prop response "error" with
         | Some error => negb (truthy error)
         | None => true
         end
  end.

(** The queue after the chunks [bs] arrived with the readiness flag lowered. *)
Definition accumulated (bs : list Blob) (s : State) : State :=
  set_audioBufferRef (audioBufferRef s ++ bs) (set_captured (captured s ++ bs) s).

(** ** The states after the handlers

    Each handler in closed form: the state in which it leaves the state it is
    given, an exception that leaves it recorded in [rejections]. *)

(** [setStatus("")], with which [socketOnOpen] and [socketOnMessage] begin. *)
Definition cleared (s : State) : State :=
  set_statuses (statuses s ++ [JStr EmptyString]) s.

(** [response[modelName]?.predictions || []], line 112. *)
Definition newPredictionsOf (P : Inputs) (response : json) : json :=
  match optChain (prop response (modelName P)) "predictions" with
  | Some v => if truthy v then v else JArr []
  | None => JArr []
  end.

(** The [error] of a response, when it is truthy. *)
Definition fatal (response : json) : option json :=
  match prop response "error" with
  | Some error => if truthy error then Some error else None
  | None => None
  end.

(** The status shown for an empty list of predictions, lines 126-132. *)
Definition noSpeech (P : Inputs) : json :=
  if String.eqb (modelName P) "burst"
  then JStr "No vocal bursts detected"
  else JStr "No speech detected".

(** What [socketOnMessage] shows of the predictions [v], lines 122-132. *)
Definition shown (P : Inputs) (v : json) (s : State) : State :=
  let s1 := set_rendered (rendered s ++ [v]) s in
  let s2 := if onTimeline P then set_timeline (timeline s1 ++ [v]) s1 else s1 in
  if lengthEq0 P v then set_statuses (statuses s2 ++ [noSpeech P]) s2 else s2.

(** The state in which [socketOnMessage_deliver] leaves [s]. *)
Definition delivered (P : Inputs) (v : json) (s : State) : State :=
  if 0 <? length (audioBufferRef s)
  then (sendRequest (shown P v s)).2
  else set_serverReadyRef true (shown P v s).

(** The state in which [socketOnMessage] leaves [s]. *)
Definition received (P : Inputs) (d : MessageData) (s : State) : State :=
  match d with
  | NotJSON => set_rejections (rejections s ++ [SyntaxError]) (cleared s)
  | Parsed JNull => set_rejections (rejections s ++ [TypeError]) (cleared s)
  | Parsed response =>
      match fatal response with
      | Some error => stopped (set_statuses (statuses (cleared s) ++ [error]) (cleared s))
      | None => delivered P (newPredictionsOf P response) (cleared s)
      end
  end.

(** The state after the test of the [while] loop and the call of [record]. *)
Definition looped (s : State) : State :=
  if mountRef s
  then match recorderRef s with
       | Some _ => set_recording (S (recording s)) s
       | None => set_rejections (rejections s ++ [TypeError]) s
       end
  else s.

(** The state in which [socketOnError] leaves [s]. *)
Definition errored (P : Inputs) (s : State) : State :=
  if maxReconnects <? numReconnects s
  then stopped (set_statuses (statuses s ++ [JStr (failedToConnect P)]) s)
  else set_numReconnects (S (numReconnects s)) s.

(** The state in which [socketOnClose] leaves [s]. *)
Definition reconnected (s : State) : State :=
  if mountRef s
  then connected (set_statuses (statuses s ++ [JStr "Reconnecting"]) s)
  else s.

(** The state in which a resumed [sendRequest] leaves [s]. *)
Definition sent (P : Inputs) (e : Encode) (s : State) : State :=
  match readyStateOf s (socket e) with
  | CONNECTING => set_rejections (rejections s ++ [InvalidStateError]) s
  | OPEN => transmitted P e s
  | CLOSING | CLOSED => s
  end.

(** The state after an event that the browser can produce. *)
Definition after (P : Inputs) (e : Event) (s : State) : State :=
  match e with
  | Mount => connected (set_mountRef true (set_effectRan true s))
  | Unmount => stopped s
  | SockOpen h =>
      set_creating (S (creating s)) (cleared (onSocket h (withReadyState OPEN) s))
  | SockMessage h d => received P d (onSocket h answered s)
  | SockClosing h => onSocket h (withReadyState CLOSING) s
  | SockError h => errored P (onSocket h (withReadyState CLOSED) s)
  | SockClose h => reconnected (onSocket h closedNow s)
  | RecorderCreated =>
      looped (set_recorderRef (Some (length (recorders s)))
                (set_recorders (recorders s ++ [false])
                   (set_creating (pred (creating s)) s)))
  | RecorderFailed =>
      set_rejections (rejections s ++ [Rejected]) (set_creating (pred (creating s)) s)
  | ChunkRecorded blob =>
      looped (if serverReadyRef s
              then (sendRequest (arrived blob (pred (recording s)) s)).2
              else arrived blob (pred (recording s)) s)
  | RecordFailed =>
      set_rejections (rejections s ++ [Rejected]) (set_recording (pred (recording s)) s)
  | Encoded i =>
      match encoding s !! i with
      | Some e => sent P e (resumed i s)
      | None => s
      end
  | EncodeFailed i => set_rejections (rejections s ++ [Rejected]) (resumed i s)
  end.

(** When the browser can produce an event. *)
Definition enabled (e : Event) (s : State) : Prop :=
  match e with
  | Mount => effectRan s = false
  | Unmount => effectRan s = true
  | SockOpen h => ∃ w, sockets s !! h = Some w ∧ readyState w = CONNECTING
  | SockMessage h _ | SockClosing h => ∃ w, sockets s !! h = Some w ∧ readyState w = OPEN
  | SockError h => ∃ w, sockets s !! h = Some w ∧ readyState w ≠ CLOSED
  | SockClose h => ∃ w, sockets s !! h = Some w ∧ closeFired w = false
  | RecorderCreated | RecorderFailed => 0 < creating s
  | ChunkRecorded _ | RecordFailed => 0 < recording s
  | Encoded i | EncodeFailed i => ∃ e, encoding s !! i = Some e
  end.

(** Whether an event runs [stopEverything]: the cleanup of the mount effect, a
    message with a truthy [error], an [error] event past the ceiling. *)
Definition tearsDown (e : Event) (s : State) : bool :=
  match e with
  | Unmount => true
  | SockMessage _ (Parsed response) =>
      match fatal response with Some _ => true | None => false end
  | SockError _ => maxReconnects <? numReconnects s
  | _ => false
  end.

(** The exception with which the handler of an event ends: on a payload that
    is not JSON or is [null], and on a rejected promise of a library. *)
Definition thrown (e : Event) : list Exn :=
  match e with
  | SockMessage _ NotJSON => [SyntaxError]
  | SockMessage _ (Parsed JNull) => [TypeError]
  | RecorderFailed | RecordFailed | EncodeFailed _ => [Rejected]
  | _ => []
  end.

(** The predictions that the handler of an event shows. *)
Definition shownBy (P : Inputs) (e : Event) : list json :=
  match e with
  | SockMessage _ (Parsed response) =>
      if accepted response then [newPredictionsOf P response] else []
  | _ => []
  end.

(** * Properties of states

    The properties below speak of the [view] of the state only: the socket
    ref, the queue, the two flags, the sockets, the suspended sends, the
    record of what was captured, taken and transmitted, and the counter. *)
Definition view (s : State) :=
  (socketRef s, audioBufferRef s, mountRef s, serverReadyRef s, sockets s,
   encoding s, wire s, captured s, drained s, effectRan s, numReconnects s).

(** ** The sockets of a session

    At most one socket is the current one; every other socket is closing or
    closed, and while the component is mounted it has had its [close] event. *)
Record WiredV (so : option nat) (mnt eff : bool)
    (socks : list WebSocket) (enc : list Encode) : Prop := mkWired {
  wired_fresh : eff = false → socks = [] ∧ so = None ∧ mnt = true;
  wired_unmounted : mnt = false → so = None;
  wired_current : ∀ h, so = Some h → h < length socks;
  wired_stale : ∀ h w, socks !! h = Some w → so ≠ Some h →
    readyState w ≠ CONNECTING ∧ readyState w ≠ OPEN ∧
    (mnt = true → closeFired w = true);
  wired_fired : ∀ h w, socks !! h = Some w → closeFired w = true →
    readyState w = CLOSED;
  wired_live : ∀ h h' w w', socks !! h = Some w → socks !! h' = Some w' →
    readyState w ≠ CLOSED → readyState w' ≠ CLOSED → h = h';
  wired_encoding : ∀ e, e ∈ enc → socket e < length socks
}.

Definition Wired (s : State) : Prop :=
  WiredV (socketRef s) (mountRef s) (effectRan s) (sockets s) (encoding s).

(** A socket only moves forward: connecting, open, closing, closed. *)
Definition advances (w w' : WebSocket) : Prop :=
  (readyState w' = CONNECTING → readyState w = CONNECTING) ∧
  (readyState w' = OPEN → readyState w = CONNECTING ∨ readyState w = OPEN) ∧
  (closeFired w = true → closeFired w' = true) ∧
  (closeFired w' = true → readyState w' = CLOSED) ∧
  (readyState w' ≠ CLOSED → readyState w ≠ CLOSED).

(** *** After teardown

    Once [mountRef] is false nothing is taken from the queue, nothing is
    transmitted and no socket is made. *)
Definition Quiet (W : list Frame) (D : list (list Blob)) (N : nat) (s : State) : Prop :=
  Wired s ∧ mountRef s = false ∧ wire s = W ∧ drained s = D ∧
  length (sockets s) = N.

(** ** Batches in flight

    A batch is in flight on a socket from the moment [sendRequest] takes it
    from the queue until the server's answer to it is dispatched: it is either
    held by a suspended [sendRequest] or transmitted and not answered.  What was
    in flight on a socket is lost when the socket is closed. *)
Global Instance ReadyState_eq_dec : EqDecision ReadyState.
Proof. solve_decision. Defined.

Definition pendingOn (enc : list Encode) (h : nat) : nat :=
  length (filter (λ e, socket e = h) enc).

Definition owedOn (socks : list WebSocket) (h : nat) : nat :=
  match socks !! h with
  | Some w => awaiting w
  | None => 0
  end.

Arguments pendingOn : simpl never.
Arguments owedOn : simpl never.

Definition inflightOn (s : State) (h : nat) : nat :=
  owedOn (sockets s) h + pendingOn (encoding s) h.

(** The sockets that are not closed. *)
Definition liveSockets (s : State) : list nat :=
  filter (λ h, readyStateOf s h ≠ CLOSED) (seq 0 (length (sockets s))).

Definition inflight (s : State) : nat :=
  sum_list (inflightOn s <$> liveSockets s).

Definition PacedV (so : option nat) (rdy : bool)
    (socks : list WebSocket) (enc : list Encode) : Prop :=
  (∀ h, owedOn socks h + pendingOn enc h ≤ 1) ∧
  (∀ h, so = Some h → rdy = true → owedOn socks h + pendingOn enc h = 0).

Definition Paced (s : State) : Prop :=
  Wired s ∧ PacedV (socketRef s) (serverReadyRef s) (sockets s) (encoding s).

(** In the middle of [socketOnMessage]: the answer was counted, and nothing
    is in flight on the current socket. *)
Definition Answered (s : State) : Prop :=
  Paced s ∧ ∀ h, socketRef s = Some h → inflightOn s h = 0.

(** ** What becomes of the captured chunks

    The batches taken from the queue, in order, followed by the queue, are the
    chunks captured, in order; every batch has a number of its own, and a
    suspended send or a transmitted message carries the batch of its number. *)
Record ConservedV (P : Inputs) (buf cap : list Blob) (dr : list (list Blob))
    (enc : list Encode) (wr : list Frame) : Prop := mkConserved {
  conserved_chunks : concat dr ++ buf = cap;
  conserved_numbers : NoDup ((number <$> enc) ++ (batch <$> wr));
  conserved_encoding : ∀ e, e ∈ enc →
    ∃ parts, dr !! number e = Some parts ∧ combinedBlob e = newBlob parts;
  conserved_wire : ∀ f, f ∈ wr →
    ∃ parts, dr !! batch f = Some parts ∧
             data (body f) = blobToBase64 P (newBlob parts)
}.

Definition Conserved (P : Inputs) (s : State) : Prop :=
  ConservedV P (audioBufferRef s) (captured s) (drained s) (encoding s) (wire s).

(** ** The queue and the readiness flag across one event

    An event leaves the flag and the batches taken as they were; or it raises
    the flag, which only a message or a new connection does; or it takes the
    whole queue as one batch and lowers the flag, which only a chunk arriving
    with the flag raised or a message does. *)
Definition flows (e : Event) (s s' : State) : Prop :=
  (drained s' = drained s ∧ serverReadyRef s' = serverReadyRef s) ∨
  (drained s' = drained s ∧ serverReadyRef s' = true ∧
   ((∃ h d, e = SockMessage h d) ∨ e = Mount ∨ ∃ h, e = SockClose h)) ∨
  (serverReadyRef s' = false ∧ audioBufferRef s' = [] ∧
   ((∃ blob, e = ChunkRecorded blob ∧ serverReadyRef s = true ∧
             drained s' = drained s ++ [audioBufferRef s ++ [blob]]) ∨
    (∃ h d, e = SockMessage h d ∧ drained s' = drained s ++ [audioBufferRef s]))).

(** The events of a session on a connection that stays as it is: a chunk
    arrives, an encoding completes, a message arrives. *)
Definition sessionEvent (e : Event) : bool :=
  match e with
  | ChunkRecorded _ | Encoded _ | SockMessage _ _ => true
  | _ => false
  end.

(** ** Counting events *)

(** How many events of a sequence satisfy [p]. *)
Definition occurrences (p : Event → bool) (t : list Event) : nat :=
  length (List.filter p t).

Definition isSockError (e : Event) : bool :=
  match e with SockError _ => true | _ => false end.

Definition isSockOpen (e : Event) : bool :=
  match e with SockOpen _ => true | _ => false end.

Definition isRecorderCreated (e : Event) : bool :=
  match e with RecorderCreated => true | _ => false end.

Definition isRecorderFailed (e : Event) : bool :=
  match e with RecorderFailed => true | _ => false end.

Definition isChunkRecorded (e : Event) : bool :=
  match e with ChunkRecorded _ => true | _ => false end.

Definition isRecordFailed (e : Event) : bool :=
  match e with RecordFailed => true | _ => false end.

(** The number of [error] events of a sequence. *)
Definition errors (t : list Event) : nat := occurrences isSockError t.

(** ** The capture loops

    The capture side of the state: whether the component is mounted, the
    recorders, and the loops suspended on [create] and on [record]. *)
Definition capture (s : State) :=
  (mountRef s, recorderRef s, recorders s, creating s, recording s, effectRan s).

(** While the component is mounted no recorder has been stopped, the current
    recorder is the one made last, and a loop that is suspended on [record]
    has a recorder to call. *)
Record Looping (s : State) : Prop := mkLooping {
  looping_fresh : effectRan s = false →
    creating s = 0 ∧ recording s = 0 ∧ recorders s = [] ∧ recorderRef s = None;
  looping_recorder : mountRef s = true → 0 < recording s → recorderRef s ≠ None;
  looping_running : mountRef s = true → ∀ r b, recorders s !! r = Some b → b = false;
  looping_newest : ∀ r, recorderRef s = Some r → S r = length (recorders s);
  looping_current : mountRef s = true → recorderRef s = None → recorders s = []
}.

(** ** The sockets of the suspended sends and of the flag *)

(** A suspended [sendRequest] holds a socket that has been open. *)
Definition OpenedV (socks : list WebSocket) (enc : list Encode) : Prop :=
  ∀ e w, e ∈ enc → socks !! socket e = Some w → readyState w ≠ CONNECTING.

Definition Opened (s : State) : Prop :=
  Wired s ∧ OpenedV (sockets s) (encoding s).

(** While the current socket is connecting the readiness flag is raised. *)
Definition ReadyV (so : option nat) (rdy : bool) (socks : list WebSocket) : Prop :=
  ∀ h w, so = Some h → socks !! h = Some w → readyState w = CONNECTING → rdy = true.

Definition Ready (s : State) : Prop :=
  Wired s ∧ ReadyV (socketRef s) (serverReadyRef s) (sockets s).

(** ** What goes out *)

(** Every batch taken holds a chunk, and every message transmitted names the
    model and the window of the props. *)
Definition Formed (P : Inputs) (s : State) : Prop :=
  (∀ parts, parts ∈ drained s → parts ≠ []) ∧
  (∀ f, f ∈ wire s →
     models (body f) = modelName P ∧
     stream_window_ms (body f) = streamWindowLengthMs P).

(** Batch [n] was taken from the queue, and no send holds it or has
    transmitted it. *)
Definition DroppedV (n : nat) (dr : list (list Blob)) (enc : list Encode)
    (wr : list Frame) : Prop :=
  n < length dr ∧ (n ∉ (number <$> enc)) ∧ (n ∉ (batch <$> wr)).

Definition Dropped (n : nat) (s : State) : Prop :=
  Wired s ∧ DroppedV n (drained s) (encoding s) (wire s).

(** The batches on the wire are in the order in which they were taken, and a
    send suspended for the current socket holds a batch taken after them. *)
Definition OrderedV (so : option nat) (dr : list (list Blob)) (enc : list Encode)
    (wr : list Frame) : Prop :=
  (∀ f, f ∈ wr → batch f < length dr) ∧
  (∀ e, e ∈ enc → number e < length dr) ∧
  (∀ i j f g, wr !! i = Some f → wr !! j = Some g → i < j → batch f < batch g) ∧
  (∀ e f, e ∈ enc → f ∈ wr → so = Some (socket e) → batch f < number e).

Definition Ordered (s : State) : Prop :=
  OrderedV (socketRef s) (drained s) (encoding s) (wire s).

(** * Sample sessions *)

(** A session of [ProsodyWidgets]: the socket opens, the recorder starts, a
    first chunk is sent and a second one arrives while the first is in flight. *)
Definition chunkA : Blob := [Byte.x4d; Byte.x61].
Definition chunkB : Blob := [Byte.x6e].

Definition session : list Event :=
  [Mount; SockOpen 0; RecorderCreated; ChunkRecorded chunkA; Encoded 0;
   ChunkRecorded chunkB].

Definition noPredictions : MessageData := Parsed (JObj [("prosody", JObj [])]).

(** The state in which [session] ends: one batch sent, one chunk queued. *)
Definition sessionWaiting : State :=
  Eval vm_compute in default init (run ProsodyWidgets session init).

(** The state of [session] before its last chunk arrives. *)
Definition sessionInFlight : State :=
  Eval vm_compute in
    default init
      (run ProsodyWidgets
         [Mount; SockOpen 0; RecorderCreated; ChunkRecorded chunkA; Encoded 0] init).

(** Four connections fail one after the other: each [error] is followed by the
    [close] of the same socket, which reconnects. *)
Definition fourErrors : list Event :=
  [Mount; SockError 0; SockClose 0; SockError 1; SockClose 1;
   SockError 2; SockClose 2; SockError 3; SockClose 3].

(** Four emotions of a prediction, with scores that are binary fractions. *)
Definition sampleEmotions : list Emotion.t :=
  [Emotion.mk "Joy" 0.5; Emotion.mk "Calm" 0.75; Emotion.mk "Fear" 0.125;
   Emotion.mk "Awe" 0.625].

(** * Proofs *)

Example base64_Man : base64 [Byte.x4d; Byte.x61; Byte.x6e] = "TWFu".
Proof. vm_compute. reflexivity. Qed.
Example base64_Ma : base64 [Byte.x4d; Byte.x61] = "TWE=".
Proof. vm_compute. reflexivity. Qed.
Example base64_M : base64 [Byte.x4d] = "TQ==".
Proof. vm_compute. reflexivity. Qed.

(** ** What the handlers do, in closed form *)

Ltac unfold_proc :=
  unfold socketOnMessage, socketOnMessage_deliver, socketOnClose, socketOnError,
    socketOnOpen, socketOnOpen_created, socketOnOpen_recorded, socketOnOpen_while,
    mountEffect, cleanup, sendRequest_encoded, ws_send,
    stopEverything, connect, setStatus, setPredictions, sendRequest,
    detached, andThen, read, exec, skip, throw, settle.

Section Handlers.

Context (P : Inputs).

Lemma stopEverything_eq (s : State) : stopEverything s = (Normal, stopped s).
Proof.
  unfold_proc. unfold stopped, closeCurrent, stopCurrent.
  destruct s as [so re]; cbn. destruct so, re; reflexivity.
Qed.

Lemma connect_eq (s : State) : connect s = (Normal, connected s).
Proof. reflexivity. Qed.

Lemma sendRequest_eq (s : State) :
  sendRequest s =
    (Normal,
     match socketRef s with
     | None => s
     | Some h => if isOPEN (readyStateOf s h) then taken h s else ws_close h s
     end).
Proof.
  unfold_proc. unfold taken. destruct (socketRef s) as [h|]; [|reflexivity].
  destruct (readyStateOf s h); reflexivity.
Qed.

Lemma detached_sendRequest (s : State) : detached sendRequest s = sendRequest s.
Proof. unfold detached. rewrite sendRequest_eq. reflexivity. Qed.

Lemma detached_connect (s : State) : detached connect s = connect s.
Proof. reflexivity. Qed.

(** [socketOnMessage_deliver] shows the predictions and then either sends the
    queue or, the queue being empty, raises the readiness flag. *)
Lemma socketOnMessage_deliver_eq (v : json) (s : State) :
  ∃ s0, core s0 = core s ∧
    socketOnMessage_deliver P v s =
      if 0 <? length (audioBufferRef s)
      then sendRequest s0
      else (Normal, set_serverReadyRef true s0).
Proof.
  unfold socketOnMessage_deliver, andThen, setPredictions, setStatus, exec, skip, read.
  destruct (onTimeline P), (lengthEq0 P v), (String.eqb (modelName P) "burst");
    (eexists; (split; cycle 1);
     [ cbn [audioBufferRef set_statuses set_timeline set_rendered];
       destruct (0 <? _); [apply detached_sendRequest | reflexivity]
     | reflexivity ]).
Qed.

(** [socketOnMessage] clears the status and then: throws on a payload that is
    not JSON or is [null]; tears the session down on a truthy [error]; and
    delivers otherwise. *)
Lemma socketOnMessage_eq (d : MessageData) (s : State) :
  ∃ s0, core s0 = core s ∧
    (socketOnMessage P d s = (Throw SyntaxError, s0) ∨
     socketOnMessage P d s = (Throw TypeError, s0) ∨
     socketOnMessage P d s = (Normal, stopped s0) ∨
     socketOnMessage P d s =
       if 0 <? length (audioBufferRef s)
       then sendRequest s0
       else (Normal, set_serverReadyRef true s0)).
Proof.
  remember (socketOnMessage P d s) as r eqn:E.
  unfold socketOnMessage in E. unfold andThen at 1 in E.
  unfold setStatus at 1, exec at 1 in E.
  set (s1 := set_statuses _ s) in E.
  assert (H1 : core s1 = core s) by reflexivity.
  assert (Hb : audioBufferRef s1 = audioBufferRef s) by reflexivity.
  clearbody s1.
  assert (Hdeliver : ∀ v, ∃ s0, core s0 = core s ∧
            socketOnMessage_deliver P v s1 =
              if 0 <? length (audioBufferRef s)
              then sendRequest s0 else (Normal, set_serverReadyRef true s0)).
  { intros v. destruct (socketOnMessage_deliver_eq v s1) as (s0 & H0 & E0).
    exists s0. rewrite <- Hb. split; [congruence|exact E0]. }
  assert (Hstop : ∀ e, ∃ s0, core s0 = core s ∧
            (setStatus e ;; stopEverything) s1 = (Normal, stopped s0)).
  { intros e. eexists (set_statuses _ s1). split; [exact H1|].
    unfold andThen, setStatus, exec. apply stopEverything_eq. }
  destruct d as [|response].
  { exists s1. split; [exact H1|]. left. exact E. }
  destruct response;
    try (exists s1; split; [exact H1|]; right; left; exact E);
    (cbv zeta in E;
     match type of E with
     | context [prop ?x "error"] => destruct (prop x "error") as [e|]
     end;
     [ destruct (truthy e);
       [ destruct (Hstop e) as (sx & Hx & Ex); exists sx; split; [exact Hx|];
         right; right; left; congruence
       | ]
     | ];
     match type of E with
     | context [socketOnMessage_deliver P ?v s1] =>
         destruct (Hdeliver v) as (sx & Hx & Ex); exists sx; split; [exact Hx|];
         right; right; right; congruence
     end).
Qed.

End Handlers.

(** ** Proving that a property holds after every event

    An event is a few moves, each on a part of the state; a property that
    every move preserves holds after every event. *)

Lemma core_view (s s' : State) : core s' = core s → view s' = view s.
Proof. unfold core, view. intros [=]. congruence. Qed.

Section Events.

Context (P : Inputs).

(** [I] is the property; [J] is what holds in the middle of [socketOnMessage],
    after the message was counted as an answer; [G] is what is known of the
    socket on which a message arrives. *)
Variables (I J : State → Prop) (G : State → nat → Prop).

Hypothesis I_view : ∀ s s', view s' = view s → I s → I s'.
Hypothesis J_view : ∀ s s', view s' = view s → J s → J s'.
Hypothesis I_mount : ∀ s,
  I s → effectRan s = false → I (connected (set_mountRef true (set_effectRan true s))).
Hypothesis I_fresh : ∀ s, I s → effectRan s = false → sockets s = [].
Hypothesis I_stopped : ∀ s, I s → effectRan s = true → I (stopped s).
Hypothesis I_open : ∀ s h w,
  I s → sockets s !! h = Some w → readyState w = CONNECTING →
  I (onSocket h (withReadyState OPEN) s).
Hypothesis J_answered : ∀ s h w,
  I s → sockets s !! h = Some w → readyState w = OPEN → G s h →
  J (onSocket h answered s).
Hypothesis J_I : ∀ s, J s → I s.
Hypothesis J_send : ∀ s, J s → audioBufferRef s ≠ [] → I (sendRequest s).2.
Hypothesis J_ready : ∀ s, J s → audioBufferRef s = [] → I (set_serverReadyRef true s).
Hypothesis I_closing : ∀ s h w,
  I s → sockets s !! h = Some w → readyState w = OPEN →
  I (onSocket h (withReadyState CLOSING) s).
Hypothesis I_error : ∀ s h w,
  I s → sockets s !! h = Some w → readyState w ≠ CLOSED →
  I (onSocket h (withReadyState CLOSED) s).
Hypothesis I_counted : ∀ s,
  I s → numReconnects s ≤ maxReconnects →
  I (set_numReconnects (S (numReconnects s)) s).
Hypothesis I_close : ∀ s h w,
  I s → sockets s !! h = Some w → closeFired w = false →
  I (onSocket h closedNow s).
Hypothesis I_reconnect : ∀ s h w,
  I s → sockets s !! h = Some w → closeFired w = false → mountRef s = true →
  I (connected (onSocket h closedNow s)).
Hypothesis I_pushed : ∀ s blob, I s → I (pushed blob s).
Hypothesis I_send : ∀ s, I s → serverReadyRef s = true → I (sendRequest s).2.
Hypothesis I_resumed : ∀ s i e, I s → encoding s !! i = Some e → I (resumed i s).
Hypothesis I_transmitted : ∀ s i e,
  I s → encoding s !! i = Some e → readyStateOf s (socket e) = OPEN →
  I (transmitted P e (resumed i s)).

Lemma I_settle_while (s : State) : I s → I (settle (socketOnOpen_while s)).
Proof.
  intros H. unfold_proc. destruct (mountRef s), (recorderRef s);
    (eapply I_view; [|exact H]); reflexivity.
Qed.

Lemma I_ran (s : State) (h : nat) (w : WebSocket) :
  I s → sockets s !! h = Some w → effectRan s = true.
Proof.
  intros H Hw. destruct (effectRan s) eqn:E; [reflexivity|].
  rewrite (I_fresh s H E) in Hw. discriminate.
Qed.

Lemma I_settle_message (d : MessageData) (s : State) :
  J s → effectRan s = true → I (settle (socketOnMessage P d s)).
Proof.
  intros H Heff. destruct (socketOnMessage_eq P d s) as (s0 & Hc & E).
  apply core_view in Hc.
  assert (H0 : J s0) by (eapply J_view; [exact Hc|exact H]).
  assert (Hb : audioBufferRef s0 = audioBufferRef s)
    by (unfold view in Hc; congruence).
  assert (He : effectRan s0 = true) by (unfold view in Hc; congruence).
  destruct E as [E|[E|[E|E]]]; rewrite E.
  - eapply I_view; [|apply J_I, H0]. reflexivity.
  - eapply I_view; [|apply J_I, H0]. reflexivity.
  - apply I_stopped; [apply J_I, H0|exact He].
  - rewrite <- Hb. destruct (audioBufferRef s0) as [|b q] eqn:Eq.
    + cbn. apply J_ready; auto.
    + cbn. pose proof (J_send s0 H0) as Hs.
      rewrite sendRequest_eq in Hs |- *. apply Hs. congruence.
Qed.

Theorem step_preserves (e : Event) (s s' : State) :
  I s → (∀ h d, e = SockMessage h d → G s h) → step P e s = Some s' → I s'.
Proof.
  intros H HG Hstep. destruct e; unfold step in Hstep.
  - (* Mount *)
    destruct (effectRan s) eqn:Ee; [discriminate|]. injection Hstep as <-.
    apply (I_mount s H Ee).
  - (* Unmount *)
    destruct (effectRan s) eqn:Ee; [|discriminate]. injection Hstep as <-.
    unfold cleanup. rewrite stopEverything_eq. apply I_stopped; auto.
  - (* SockOpen *)
    destruct (sockets s !! h) as [w|] eqn:Ew;
      cbn [mbind option_bind] in Hstep; [|discriminate].
    destruct (readyState w) eqn:Er; cbn [isOPEN isCONNECTING] in Hstep;
      try discriminate. injection Hstep as <-.
    eapply I_view; [|apply (I_open s h w H Ew Er)]. reflexivity.
  - (* SockMessage *)
    destruct (sockets s !! h) as [w|] eqn:Ew;
      cbn [mbind option_bind] in Hstep; [|discriminate].
    destruct (readyState w) eqn:Er; cbn [isOPEN isCONNECTING] in Hstep;
      try discriminate. injection Hstep as <-.
    apply I_settle_message.
    + apply (J_answered s h w H Ew Er). eapply HG; eauto.
    + apply (I_ran s h w H Ew).
  - (* SockClosing *)
    destruct (sockets s !! h) as [w|] eqn:Ew;
      cbn [mbind option_bind] in Hstep; [|discriminate].
    destruct (readyState w) eqn:Er; cbn [isOPEN isCONNECTING] in Hstep;
      try discriminate. injection Hstep as <-.
    apply (I_closing s h w H Ew Er).
  - (* SockError *)
    destruct (sockets s !! h) as [w|] eqn:Ew;
      cbn [mbind option_bind] in Hstep; [|discriminate].
    destruct (isCLOSED (readyState w)) eqn:Er; [discriminate|].
    injection Hstep as <-.
    assert (Hw : readyState w ≠ CLOSED) by (intros Hc; rewrite Hc in Er; discriminate).
    pose proof (I_error s h w H Ew Hw) as H1.
    unfold socketOnError, read.
    destruct (maxReconnects <? _) eqn:En.
    + unfold andThen, setStatus, exec. rewrite stopEverything_eq. cbn.
      apply I_stopped; [eapply I_view; [|exact H1]; reflexivity|].
      apply (I_ran s h w H Ew).
    + apply Nat.ltb_ge in En. apply (I_counted _ H1 En).
  - (* SockClose *)
    destruct (sockets s !! h) as [w|] eqn:Ew;
      cbn [mbind option_bind] in Hstep; [|discriminate].
    destruct (closeFired w) eqn:Ef; [discriminate|]. injection Hstep as <-.
    unfold socketOnClose, read.
    destruct (mountRef (onSocket h closedNow s)) eqn:Em.
    + eapply I_view; [|apply (I_reconnect s h w H Ew Ef Em)]. reflexivity.
    + apply (I_close s h w H Ew Ef).
  - (* RecorderCreated *)
    destruct (creating s) as [|n]; [discriminate|]. injection Hstep as <-.
    unfold socketOnOpen_created, andThen, exec at 1.
    apply I_settle_while. eapply I_view; [|exact H]. reflexivity.
  - (* RecorderFailed *)
    destruct (creating s) as [|n]; [discriminate|]. injection Hstep as <-.
    eapply I_view; [|exact H]. reflexivity.
  - (* ChunkRecorded *)
    destruct (recording s) as [|n]; [discriminate|]. injection Hstep as <-.
    set (s1 := set_recording n s).
    assert (H1 : I s1) by (eapply I_view; [|exact H]; reflexivity).
    pose proof (I_pushed s1 blob H1) as H2.
    unfold socketOnOpen_recorded, andThen at 1, exec at 1.
    set (s2 := set_audioBufferRef _ _).
    assert (H3 : I s2) by (eapply I_view; [|exact H2]; reflexivity).
    clearbody s2. unfold andThen, read.
    destruct (serverReadyRef s2) eqn:Er.
    + rewrite detached_sendRequest. rewrite sendRequest_eq.
      pose proof (I_send s2 H3 Er) as H4. rewrite sendRequest_eq in H4.
      apply I_settle_while. exact H4.
    + unfold skip. apply I_settle_while. exact H3.
  - (* RecordFailed *)
    destruct (recording s) as [|n]; [discriminate|]. injection Hstep as <-.
    eapply I_view; [|exact H]. reflexivity.
  - (* Encoded *)
    destruct (encoding s !! i) as [e|] eqn:Ee;
      cbn [mbind option_bind] in Hstep; [|discriminate].
    injection Hstep as <-.
    pose proof (I_resumed s i e H Ee) as H1.
    unfold sendRequest_encoded, ws_send, read.
    destruct (readyStateOf (set_encoding _ s) (socket e)) eqn:Er.
    + eapply I_view; [|exact H1]. reflexivity.
    + apply (I_transmitted s i e H Ee Er).
    + exact H1.
    + exact H1.
  - (* EncodeFailed *)
    destruct (encoding s !! i) as [e|] eqn:Ee;
      cbn [mbind option_bind] in Hstep; [|discriminate].
    injection Hstep as <-.
    eapply I_view; [|apply (I_resumed s i e H Ee)]. reflexivity.
Qed.

End Events.

(** ** The sockets of a session *)

Lemma lookup_alter_Some {A : Type} (f : A → A) (l : list A) (i j : nat) (y : A) :
  alter f i l !! j = Some y →
  (i = j ∧ ∃ x, l !! i = Some x ∧ y = f x) ∨ (i ≠ j ∧ l !! j = Some y).
Proof.
  rewrite list_lookup_alter. case_decide as Hij.
  - subst j. destruct (l !! i) as [x|]; cbn; [|discriminate].
    intros [= <-]. left. eauto.
  - intros Hy. right. auto.
Qed.

Lemma WiredV_alter so mnt eff socks enc h f :
  WiredV so mnt eff socks enc →
  (∀ w, socks !! h = Some w → advances w (f w)) →
  WiredV so mnt eff (alter f h socks) enc.
Proof.
  intros [Hfresh Hun Hcur Hstale Hfired Hlive Henc] Hf.
  split; try rewrite length_alter; auto.
  - intros Heff. destruct (Hfresh Heff) as (-> & -> & ->). auto.
  - intros h' w' Hw' Hne.
    apply lookup_alter_Some in Hw' as [(<- & w & Hw & ->)|[Hh Hw']].
    + destruct (Hf w Hw) as (A1 & A2 & A3 & A4 & A5).
      destruct (Hstale h w Hw Hne) as (B1 & B2 & B3).
      split; [tauto|]. split; [tauto|]. auto.
    + eauto.
  - intros h' w' Hw' Hfw.
    apply lookup_alter_Some in Hw' as [(<- & w & Hw & ->)|[Hh Hw']].
    + destruct (Hf w Hw) as (A1 & A2 & A3 & A4 & A5). auto.
    + eauto.
  - intros h1 h2 w1 w2 H1 H2 L1 L2.
    apply lookup_alter_Some in H1 as [(<- & x1 & Hx1 & ->)|[N1 H1]];
      apply lookup_alter_Some in H2 as [(<- & x2 & Hx2 & ->)|[N2 H2]]; auto.
    + destruct (Hf x1 Hx1) as (A1 & A2 & A3 & A4 & A5). eapply Hlive; eauto.
    + destruct (Hf x2 Hx2) as (A1 & A2 & A3 & A4 & A5). eapply Hlive; eauto.
    + eapply Hlive; eauto.
Qed.

Lemma WiredV_encoding so mnt eff socks enc enc' :
  WiredV so mnt eff socks enc →
  (∀ e, e ∈ enc' → e ∈ enc ∨ so = Some (socket e)) →
  WiredV so mnt eff socks enc'.
Proof.
  intros [Hfresh Hun Hcur Hstale Hfired Hlive Henc] Hsub. split; auto.
  intros e He. destruct (Hsub e He) as [H|H]; auto.
Qed.

Lemma advances_closing so mnt eff socks enc h w :
  WiredV so mnt eff socks enc → socks !! h = Some w → advances w (closing w).
Proof.
  intros HW Hw. pose proof (wired_fired _ _ _ _ _ HW h w Hw) as Hf.
  unfold advances, closing.
  destruct w as [r c a]; cbn in *. destruct r; cbn; repeat split; auto;
    try discriminate; intros ->; specialize (Hf eq_refl); discriminate.
Qed.

(** After teardown no socket is connecting or open, and none is current. *)
Lemma WiredV_stopped so mnt eff socks enc :
  WiredV so mnt eff socks enc → eff = true →
  WiredV None false eff
    (match so with Some h => alter closing h socks | None => socks end) enc.
Proof.
  intros HW Heff.
  assert (HW' : WiredV so mnt eff
            (match so with Some h => alter closing h socks | None => socks end) enc).
  { destruct so as [h|]; [|exact HW]. apply WiredV_alter; [exact HW|].
    intros w Hw. eapply advances_closing; eauto. }
  destruct HW' as [Hfresh Hun Hcur Hstale Hfired Hlive Henc].
  split; auto; try discriminate; try congruence.
  intros h w Hw _. split; [|split]; [| |discriminate].
    + destruct so as [h0|]; [|apply (Hstale h w Hw); discriminate].
      apply lookup_alter_Some in Hw as [(<- & x & Hx & ->)|[N Hw]].
      * unfold closing. destruct (readyState x) eqn:E; cbn; congruence.
      * apply (wired_stale _ _ _ _ _ HW h w Hw). congruence.
    + destruct so as [h0|]; [|apply (Hstale h w Hw); discriminate].
      apply lookup_alter_Some in Hw as [(<- & x & Hx & ->)|[N Hw]].
      * unfold closing. destruct (readyState x) eqn:E; cbn; congruence.
      * apply (wired_stale _ _ _ _ _ HW h w Hw). congruence.
Qed.

(** A new socket is made only when every socket before it is closed. *)
Lemma WiredV_connected so mnt eff socks enc :
  WiredV so mnt eff socks enc →
  (∀ h w, socks !! h = Some w → closeFired w = true) →
  WiredV (Some (length socks)) true true (socks ++ [newWebSocket]) enc.
Proof.
  intros [Hfresh Hun Hcur Hstale Hfired Hlive Henc] Hall.
  split; try discriminate.
  - intros h [= <-]. rewrite length_app. cbn. lia.
  - intros h w Hw Hne. apply lookup_app_Some in Hw as [Hw|[Hge Hw]].
    + pose proof (Hall h w Hw) as Hc. pose proof (Hfired h w Hw Hc) as Hr.
      rewrite Hr. repeat split; auto; discriminate.
    + destruct (h - length socks) as [|k] eqn:Ek; [|discriminate].
      exfalso. apply Hne. f_equal. lia.
  - intros h w Hw Hc. apply lookup_app_Some in Hw as [Hw|[Hge Hw]]; eauto.
    destruct (h - length socks); [|discriminate].
    injection Hw as <-. discriminate.
  - intros h h' w w' Hw Hw' L L'.
    assert (Hnew : ∀ k x, (socks ++ [newWebSocket]) !! k = Some x →
              readyState x ≠ CLOSED → k = length socks).
    { intros k x Hx Lx. apply lookup_app_Some in Hx as [Hx|[Hge Hx]].
      - exfalso. apply Lx. eauto.
      - destruct (k - length socks) eqn:Ek; [lia|discriminate]. }
    rewrite (Hnew h w Hw L), (Hnew h' w' Hw' L'). reflexivity.
  - intros e He. rewrite length_app. specialize (Henc e He). lia.
Qed.

Lemma advances_same (w w' : WebSocket) :
  readyState w' = readyState w → closeFired w' = closeFired w →
  (closeFired w = true → readyState w = CLOSED) → advances w w'.
Proof.
  intros Hr Hc Hf. unfold advances. rewrite Hr, Hc.
  destruct (readyState w); repeat split; auto.
Qed.

Lemma stopped_view (s : State) :
  view (stopped s) =
    (None, audioBufferRef s, false, serverReadyRef s,
     match socketRef s with Some h => alter closing h (sockets s) | None => sockets s end,
     encoding s, wire s, captured s, drained s, effectRan s, numReconnects s).
Proof.
  unfold stopped, stopCurrent, closeCurrent, ws_close, onSocket, stopRecording.
  destruct s as [so re]; cbn. destruct so, re; reflexivity.
Qed.

Lemma view_fields (s s' : State) :
  view s' = view s →
  socketRef s' = socketRef s ∧ audioBufferRef s' = audioBufferRef s ∧
  mountRef s' = mountRef s ∧ serverReadyRef s' = serverReadyRef s ∧
  sockets s' = sockets s ∧ encoding s' = encoding s ∧ wire s' = wire s ∧
  captured s' = captured s ∧ drained s' = drained s ∧ effectRan s' = effectRan s ∧
  numReconnects s' = numReconnects s.
Proof. unfold view. intros [=]. repeat split; assumption. Qed.

Ltac view_subst H :=
  apply view_fields in H;
  destruct H as (?Hso & ?Hbuf & ?Hmnt & ?Hrdy & ?Hsocks & ?Henc & ?Hwire & ?Hcap
                 & ?Hdr & ?Heff & ?Hnum).

Section WiredSteps.

Context (P : Inputs).

Lemma Wired_view (s s' : State) : view s' = view s → Wired s → Wired s'.
Proof. intros H. view_subst H. unfold Wired. congruence. Qed.

Lemma Wired_stopped (s : State) :
  Wired s → effectRan s = true → Wired (stopped s).
Proof.
  intros H Heff. pose proof (stopped_view s) as E. unfold view in E.
  injection E as E1 _ E3 _ E5 E6 _ _ _ E10 _.
  unfold Wired. rewrite E1, E3, E5, E6, E10.
  eapply WiredV_stopped; [exact H|exact Heff].
Qed.

Lemma Wired_onSocket (s : State) (h : nat) (f : WebSocket → WebSocket) :
  Wired s → (∀ w, sockets s !! h = Some w → advances w (f w)) →
  Wired (onSocket h f s).
Proof. intros H Hf. apply WiredV_alter; assumption. Qed.

Lemma Wired_sendRequest (s : State) : Wired s → Wired (sendRequest s).2.
Proof.
  intros H. rewrite sendRequest_eq. cbn.
  destruct (socketRef s) as [h|] eqn:Eso; [|exact H].
  destruct (isOPEN _).
  - unfold Wired, taken; cbn. rewrite Eso.
    eapply WiredV_encoding; [rewrite <- Eso; exact H|].
    intros e He. apply elem_of_app in He as [He|He]; [left; exact He|].
    apply list_elem_of_singleton in He. subst e. right. reflexivity.
  - apply Wired_onSocket; [exact H|]. intros w Hw.
    eapply advances_closing; [exact H|exact Hw].
Qed.

Lemma Wired_current_of_unfired (s : State) (h : nat) (w : WebSocket) :
  Wired s → sockets s !! h = Some w → closeFired w = false → mountRef s = true →
  socketRef s = Some h.
Proof.
  intros H Hw Hf Hm. destruct (decide (socketRef s = Some h)) as [|Hne]; [assumption|].
  destruct (wired_stale _ _ _ _ _ H h w Hw Hne) as (_ & _ & Hc).
  rewrite (Hc Hm) in Hf. discriminate.
Qed.

Lemma Wired_mount (s : State) :
  Wired s → effectRan s = false →
  Wired (connected (set_mountRef true (set_effectRan true s))).
Proof.
  intros H Heff. destruct (wired_fresh _ _ _ _ _ H Heff) as (Hs & Hso & Hm).
  unfold Wired, connected; cbn. rewrite Hs. cbn.
  apply (WiredV_connected None true false [] (encoding s)).
  - destruct H as [Hfresh Hun Hcur Hstale Hfired Hlive Henc].
    rewrite Hs in *. split; auto; try discriminate.
  - intros h w Hw. rewrite lookup_nil in Hw. discriminate.
Qed.

Lemma Wired_open (s : State) (h : nat) (w : WebSocket) :
  Wired s → sockets s !! h = Some w → readyState w = CONNECTING →
  Wired (onSocket h (withReadyState OPEN) s).
Proof.
  intros H Hw Hr. apply Wired_onSocket; [exact H|].
  intros w' Hw'. rewrite Hw in Hw'. injection Hw' as <-.
  pose proof (wired_fired _ _ _ _ _ H h w Hw) as Hf.
  unfold advances. cbn. rewrite Hr in *. repeat split; auto; try discriminate.
  intros Hc. specialize (Hf Hc). discriminate.
Qed.

Lemma Wired_answered (s : State) (h : nat) :
  Wired s → Wired (onSocket h answered s).
Proof.
  intros H. apply Wired_onSocket; [exact H|].
  intros w' Hw'. apply advances_same; auto.
  apply (wired_fired _ _ _ _ _ H h w' Hw').
Qed.

Lemma Wired_owed (s : State) (h : nat) :
  Wired s → Wired (onSocket h owed s).
Proof.
  intros H. apply Wired_onSocket; [exact H|].
  intros w' Hw'. apply advances_same; auto.
  apply (wired_fired _ _ _ _ _ H h w' Hw').
Qed.

Lemma Wired_closing (s : State) (h : nat) (w : WebSocket) :
  Wired s → sockets s !! h = Some w → readyState w = OPEN →
  Wired (onSocket h (withReadyState CLOSING) s).
Proof.
  intros H Hw Hr. apply Wired_onSocket; [exact H|].
  intros w' Hw'. rewrite Hw in Hw'. injection Hw' as <-.
  pose proof (wired_fired _ _ _ _ _ H h w Hw) as Hf.
  unfold advances. cbn. rewrite Hr in *. repeat split; auto; try discriminate.
  intros Hc. specialize (Hf Hc). discriminate.
Qed.

Lemma Wired_error (s : State) (h : nat) :
  Wired s → Wired (onSocket h (withReadyState CLOSED) s).
Proof.
  intros H. apply Wired_onSocket; [exact H|].
  intros w' Hw'. unfold advances. cbn.
  repeat split; auto; try discriminate; congruence.
Qed.

Lemma Wired_close (s : State) (h : nat) :
  Wired s → Wired (onSocket h closedNow s).
Proof.
  intros H. apply Wired_onSocket; [exact H|].
  intros w' Hw'. unfold advances. cbn.
  repeat split; auto; try discriminate; congruence.
Qed.

Lemma Wired_reconnect (s : State) (h : nat) (w : WebSocket) :
  Wired s → sockets s !! h = Some w → closeFired w = false → mountRef s = true →
  Wired (connected (onSocket h closedNow s)).
Proof.
  intros H Hw Hf Hm.
  pose proof (Wired_current_of_unfired s h w H Hw Hf Hm) as Hso.
  pose proof (Wired_close s h H) as H1.
  assert (He : effectRan s = true).
  { destruct (effectRan s) eqn:E; [reflexivity|].
    destruct (wired_fresh _ _ _ _ _ H E) as [Hs _]. rewrite Hs in Hw. discriminate. }
  unfold Wired, connected; cbn [socketRef mountRef effectRan sockets encoding
    set_socketRef set_sockets set_statuses set_serverReadyRef onSocket].
  rewrite Hm, He.
  eapply WiredV_connected; [exact H1|].
  intros h' w' Hw'. cbn in Hw'.
  apply lookup_alter_Some in Hw' as [(<- & x & Hx & ->)|[N Hw']]; [reflexivity|].
  apply (wired_stale _ _ _ _ _ H h' w' Hw'); [congruence|exact Hm].
Qed.

Lemma Wired_resumed (s : State) (i : nat) : Wired s → Wired (resumed i s).
Proof.
  intros H. unfold Wired, resumed; cbn.
  eapply WiredV_encoding; [exact H|].
  intros x Hx. left. eapply list_elem_of_delete_inv, Hx.
Qed.

Lemma Wired_transmitted (s : State) (i : nat) (e : Encode) :
  Wired s → Wired (transmitted P e (resumed i s)).
Proof.
  intros H. unfold transmitted. apply Wired_owed.
  apply (Wired_resumed s i) in H. exact H.
Qed.

Lemma Wired_step (e : Event) (s s' : State) :
  Wired s → step P e s = Some s' → Wired s'.
Proof.
  intros H Hstep.
  exact (step_preserves P Wired Wired (λ _ _, True)
    Wired_view Wired_view Wired_mount
    (λ s H E, proj1 (wired_fresh _ _ _ _ _ H E)) Wired_stopped Wired_open
    (λ s h w H _ _ _, Wired_answered s h H) (λ s H, H)
    (λ s H _, Wired_sendRequest s H) (λ s H _, H)
    Wired_closing (λ s h w H _ _, Wired_error s h H) (λ s H _, H)
    (λ s h w H _ _, Wired_close s h H) Wired_reconnect (λ s b H, H)
    (λ s H _, Wired_sendRequest s H) (λ s i e H _, Wired_resumed s i H)
    (λ s i e H _ _, Wired_transmitted s i e H)
    e s s' H (λ _ _ _, Logic.I) Hstep).
Qed.

End WiredSteps.

(** ** Sequences of events *)

Section Runs.

Context (P : Inputs).

Lemma run_app (t1 t2 : list Event) (s : State) :
  run P (t1 ++ t2) s = s' ← run P t1 s; run P t2 s'.
Proof.
  revert s. induction t1 as [|e t1 IH]; intros s; cbn; [reflexivity|].
  destruct (step P e s) as [s1|]; cbn; [apply IH|reflexivity].
Qed.

Lemma run_invariant (I : State → Prop) :
  (∀ e s s', I s → step P e s = Some s' → I s') →
  ∀ t s s', I s → run P t s = Some s' → I s'.
Proof.
  intros Hstep t. induction t as [|e t IH]; intros s s' Hs Hrun; cbn in Hrun.
  - injection Hrun as <-. exact Hs.
  - destruct (step P e s) as [s1|] eqn:E; cbn in Hrun; [|discriminate].
    eapply IH; [|exact Hrun]. eapply Hstep; eauto.
Qed.

Lemma Wired_init : Wired init.
Proof.
  split; cbn; auto; try discriminate; intros;
    match goal with
    | H : [] !! _ = Some _ |- _ => rewrite lookup_nil in H; discriminate
    | H : _ ∈ [] |- _ => apply elem_of_nil in H; contradiction
    end.
Qed.

Lemma Wired_run (t : list Event) (s : State) :
  run P t init = Some s → Wired s.
Proof. apply (run_invariant Wired (Wired_step P)), Wired_init. Qed.

Ltac quiet_split := split; [|split; [|split; [|split]]].

Lemma Quiet_onSocket W D N s h f :
  Quiet W D N s → Wired (onSocket h f s) → Quiet W D N (onSocket h f s).
Proof.
  intros (HW & Hm & Hw & Hd & Hn) HW'. quiet_split; auto.
  unfold onSocket; cbn [sockets set_sockets]. rewrite length_alter. exact Hn.
Qed.

Lemma Quiet_sendRequest W D N s : Quiet W D N s → Quiet W D N (sendRequest s).2.
Proof.
  intros H. rewrite sendRequest_eq. cbn.
  destruct H as (HW & Hm & H). rewrite (wired_unmounted _ _ _ _ _ HW Hm).
  quiet_split; tauto.
Qed.

Lemma Quiet_step W D N (e : Event) (s s' : State) :
  Quiet W D N s → step P e s = Some s' → Quiet W D N s'.
Proof.
  intros H Hstep.
  refine (step_preserves P (Quiet W D N) (Quiet W D N) (λ _ _, True)
    _ _ _ _ _ _ _ _ _ _ _ _ (λ s H _, H) _ _ _ _ _ _ e s s' H (λ _ _ _, Logic.I) Hstep);
    clear e s s' H Hstep.
  - intros s s' Hv (HW & Hm & Hw & Hd & Hn).
    pose proof (Wired_view s s' Hv HW). view_subst Hv.
    quiet_split; auto; congruence.
  - intros s s' Hv (HW & Hm & Hw & Hd & Hn).
    pose proof (Wired_view s s' Hv HW). view_subst Hv.
    quiet_split; auto; congruence.
  - intros s (HW & Hm & _) Heff.
    destruct (wired_fresh _ _ _ _ _ HW Heff) as (_ & _ & Hm'). congruence.
  - intros s (HW & _) Heff. apply (wired_fresh _ _ _ _ _ HW Heff).
  - intros s (HW & Hm & Hw & Hd & Hn) Heff.
    pose proof (stopped_view s) as E. unfold view in E.
    injection E as E1 _ E3 _ E5 E6 E7 _ E9 E10 _.
    quiet_split; auto using Wired_stopped; try congruence.
    rewrite E5. destruct (socketRef s); [rewrite length_alter|]; exact Hn.
  - intros s h w H Hw Hr. apply Quiet_onSocket; [exact H|].
    eapply Wired_open; eauto. apply H.
  - intros s h w H Hw Hr _. apply Quiet_onSocket; [exact H|].
    apply Wired_answered, H.
  - auto.
  - intros s H _. apply Quiet_sendRequest, H.
  - intros s (HW & Hm & Hw & Hd & Hn) _. quiet_split; auto.
  - intros s h w H Hw Hr. apply Quiet_onSocket; [exact H|].
    eapply Wired_closing; eauto. apply H.
  - intros s h w H Hw Hr. apply Quiet_onSocket; [exact H|].
    apply Wired_error, H.
  - intros s h w H Hw Hr. apply Quiet_onSocket; [exact H|].
    apply Wired_close, H.
  - intros s h w (HW & Hm & _) _ _ Hm'. congruence.
  - intros s blob (HW & Hm & Hw & Hd & Hn). quiet_split; auto.
  - intros s H _. apply Quiet_sendRequest, H.
  - intros s i e (HW & Hm & Hw & Hd & Hn) _. quiet_split; auto.
    apply Wired_resumed, HW.
  - intros s i e (HW & Hm & Hw & Hd & Hn) He Hr. exfalso.
    unfold readyStateOf in Hr.
    destruct (sockets s !! socket e) as [w|] eqn:Ew; [|discriminate].
    destruct (wired_stale _ _ _ _ _ HW (socket e) w Ew) as (_ & Ho & _); [|congruence].
    rewrite (wired_unmounted _ _ _ _ _ HW Hm). discriminate.
Qed.

Lemma Quiet_run (t : list Event) (s s' : State) :
  Wired s → mountRef s = false → run P t s = Some s' →
  mountRef s' = false ∧ wire s' = wire s ∧ drained s' = drained s ∧
  length (sockets s') = length (sockets s).
Proof.
  intros HW Hm Hrun.
  assert (H : Quiet (wire s) (drained s) (length (sockets s)) s')
    by (eapply (run_invariant _ (Quiet_step _ _ _)); [|exact Hrun];
        quiet_split; auto).
  destruct H as (_ & H). exact H.
Qed.

End Runs.

(** ** Batches in flight *)

Lemma pendingOn_app enc enc' h :
  pendingOn (enc ++ enc') h = pendingOn enc h + pendingOn enc' h.
Proof. unfold pendingOn. rewrite filter_app, length_app. reflexivity. Qed.

Lemma pendingOn_cons e enc h :
  pendingOn (e :: enc) h = (if decide (socket e = h) then 1 else 0) + pendingOn enc h.
Proof.
  unfold pendingOn. rewrite filter_cons. case_decide; reflexivity.
Qed.

Lemma pendingOn_delete enc i e h :
  enc !! i = Some e →
  pendingOn enc h = (if decide (socket e = h) then 1 else 0) + pendingOn (delete i enc) h.
Proof.
  intros He. rewrite delete_take_drop.
  rewrite <- (take_drop_middle enc i e He) at 1.
  rewrite !pendingOn_app, pendingOn_cons. lia.
Qed.

Lemma pendingOn_none enc h :
  (∀ e, e ∈ enc → socket e ≠ h) → pendingOn enc h = 0.
Proof.
  intros H. unfold pendingOn. induction enc as [|e enc IH]; [reflexivity|].
  rewrite filter_cons. case_decide as He.
  - exfalso. apply (H e); [left|exact He].
  - apply IH. intros x Hx. apply H. right. exact Hx.
Qed.

Lemma owedOn_alter socks h f h' :
  owedOn (alter f h socks) h' =
    if decide (h = h')
    then match socks !! h with Some w => awaiting (f w) | None => 0 end
    else owedOn socks h'.
Proof.
  unfold owedOn. rewrite list_lookup_alter. case_decide; [subst|reflexivity].
  destruct (socks !! h'); reflexivity.
Qed.

Lemma owedOn_alter_same socks h f h' :
  (∀ w, awaiting (f w) = awaiting w) → owedOn (alter f h socks) h' = owedOn socks h'.
Proof.
  intros Hf. rewrite owedOn_alter. case_decide; [subst|reflexivity].
  unfold owedOn. destruct (socks !! h'); auto.
Qed.

Lemma owedOn_new socks h :
  owedOn (socks ++ [newWebSocket]) h = owedOn socks h.
Proof.
  unfold owedOn. destruct (decide (h < length socks)) as [Hlt|Hge].
  - rewrite lookup_app_l by exact Hlt. reflexivity.
  - rewrite (lookup_ge_None_2 socks h) by lia.
    destruct ((socks ++ [newWebSocket]) !! h) as [w|] eqn:E; [|reflexivity].
    apply lookup_app_Some in E as [E|[_ E]].
    + apply lookup_lt_Some in E. lia.
    + destruct (h - length socks); [|discriminate]. injection E as <-. reflexivity.
Qed.

Lemma PacedV_alter_same so rdy socks enc h f :
  (∀ w, awaiting (f w) = awaiting w) →
  PacedV so rdy socks enc → PacedV so rdy (alter f h socks) enc.
Proof.
  intros Hf [H1 H2]. split; intros h'; rewrite owedOn_alter_same by exact Hf; auto.
Qed.

Lemma PacedV_connected so rdy socks enc :
  PacedV so rdy socks enc → (∀ e, e ∈ enc → socket e < length socks) →
  PacedV (Some (length socks)) true (socks ++ [newWebSocket]) enc.
Proof.
  intros [H1 H2] Henc. split; intros h; rewrite owedOn_new; [apply H1|].
  intros [= <-] _. unfold owedOn. rewrite lookup_ge_None_2 by lia.
  rewrite pendingOn_none; [reflexivity|].
  intros e He. specialize (Henc e He). lia.
Qed.

Lemma PacedV_unset so rdy socks enc : PacedV so rdy socks enc → PacedV None rdy socks enc.
Proof. intros [H1 H2]. split; [exact H1|discriminate]. Qed.

Section PacedSteps.

Context (P : Inputs).

Lemma Paced_view (s s' : State) : view s' = view s → Paced s → Paced s'.
Proof.
  intros Hv [HW HP]. split; [eapply Wired_view; eauto|].
  view_subst Hv. congruence.
Qed.

Lemma Answered_view (s s' : State) : view s' = view s → Answered s → Answered s'.
Proof.
  intros Hv [HP Hz]. split; [eapply Paced_view; eauto|].
  view_subst Hv. unfold inflightOn in *. intros h. rewrite Hso, Hsocks, Henc. apply Hz.
Qed.

Lemma Paced_mount (s : State) :
  Paced s → effectRan s = false →
  Paced (connected (set_mountRef true (set_effectRan true s))).
Proof.
  intros [HW HP] Heff. split; [apply Wired_mount; assumption|].
  unfold connected; cbn. eapply PacedV_connected; [exact HP|].
  apply (wired_encoding _ _ _ _ _ HW).
Qed.

Lemma Paced_stopped (s : State) : Paced s → effectRan s = true → Paced (stopped s).
Proof.
  intros [HW HP] Heff. split; [apply Wired_stopped; assumption|].
  pose proof (stopped_view s) as E. unfold view in E.
  injection E as E1 _ _ E4 E5 E6 _ _ _ _ _. rewrite E1, E4, E5, E6.
  apply PacedV_unset in HP.
  destruct (socketRef s); [|exact HP]. apply PacedV_alter_same; [|exact HP].
  intros w. unfold closing. destruct (readyState w); reflexivity.
Qed.

Lemma Paced_onSocket (s : State) (h : nat) (f : WebSocket → WebSocket) :
  (∀ w, awaiting (f w) = awaiting w) →
  Paced s → Wired (onSocket h f s) → Paced (onSocket h f s).
Proof.
  intros Hf [HW HP] HW'. split; [exact HW'|].
  unfold onSocket; cbn. apply PacedV_alter_same; assumption.
Qed.

Lemma Wired_current_of_open (s : State) (h : nat) (w : WebSocket) :
  Wired s → sockets s !! h = Some w → readyState w = OPEN → socketRef s = Some h.
Proof.
  intros H Hw Hr. destruct (decide (socketRef s = Some h)) as [|Hne]; [assumption|].
  destruct (wired_stale _ _ _ _ _ H h w Hw Hne) as (_ & Ho & _). contradiction.
Qed.

Lemma Answered_answered (s : State) (h : nat) (w : WebSocket) :
  Paced s → sockets s !! h = Some w → readyState w = OPEN →
  0 < owedOn (sockets s) h → Answered (onSocket h answered s).
Proof.
  intros [HW [H1 H2]] Hw Hr Hg.
  pose proof (Wired_current_of_open s h w HW Hw Hr) as Hso.
  assert (Hz : ∀ h', socketRef s = Some h' →
            owedOn (alter answered h (sockets s)) h' + pendingOn (encoding s) h' = 0).
  { intros h' Hh'. rewrite Hso in Hh'. injection Hh' as <-.
    rewrite owedOn_alter. rewrite Hw. rewrite decide_True by reflexivity. cbn.
    specialize (H1 h). unfold owedOn in H1, Hg. rewrite Hw in H1, Hg. lia. }
  split; [split; [apply Wired_answered, HW|split]|].
  - intros h'. unfold onSocket; cbn. rewrite owedOn_alter. case_decide as E.
    + subst h'. rewrite Hw. specialize (H1 h). unfold owedOn in H1.
      rewrite Hw in H1. unfold answered; cbn [awaiting].
      destruct (awaiting w); cbn [Nat.pred]; lia.
    + apply H1.
  - intros h' Hh' _. apply Hz, Hh'.
  - intros h' Hh'. apply Hz, Hh'.
Qed.

(** [sendRequest] when nothing is in flight on the current socket. *)
Lemma Paced_sendRequest (s : State) :
  Paced s → (∀ h, socketRef s = Some h → inflightOn s h = 0) →
  Paced (sendRequest s).2.
Proof.
  intros [HW [H1 H2]] Hz. split; [apply Wired_sendRequest, HW|].
  rewrite sendRequest_eq. cbn.
  destruct (socketRef s) as [h|] eqn:Eso; [|rewrite Eso; split; assumption].
  specialize (Hz h eq_refl). unfold inflightOn in Hz.
  destruct (isOPEN _).
  - unfold taken; cbn. rewrite Eso. split; [|discriminate].
    intros h'. rewrite pendingOn_app, pendingOn_cons. cbn.
    change (pendingOn [] h') with 0.
    case_decide as E; [subst h'; lia|]. specialize (H1 h'). lia.
  - unfold ws_close, onSocket; cbn. rewrite Eso.
    apply PacedV_alter_same.
    + intros w. unfold closing. destruct (readyState w); reflexivity.
    + split; [exact H1|]. intros h' [= <-] _. exact Hz.
Qed.

Lemma Answered_ready (s : State) : Answered s → Paced (set_serverReadyRef true s).
Proof.
  intros [[HW [H1 H2]] Hz]. split; [exact HW|]. split; [exact H1|].
  intros h Hh _. apply Hz, Hh.
Qed.

Lemma Paced_reconnect (s : State) (h : nat) (w : WebSocket) :
  Paced s → sockets s !! h = Some w → closeFired w = false → mountRef s = true →
  Paced (connected (onSocket h closedNow s)).
Proof.
  intros [HW HP] Hw Hf Hm. split; [eapply Wired_reconnect; eauto|].
  unfold connected, onSocket; cbn.
  eapply PacedV_connected.
  - apply PacedV_alter_same; [reflexivity|exact HP].
  - rewrite length_alter. apply (wired_encoding _ _ _ _ _ HW).
Qed.

Lemma Paced_resumed (s : State) (i : nat) (e : Encode) :
  Paced s → encoding s !! i = Some e → Paced (resumed i s).
Proof.
  intros [HW [H1 H2]] He. split; [apply Wired_resumed, HW|].
  unfold resumed; cbn. split.
  - intros h. specialize (H1 h). rewrite (pendingOn_delete _ i e h He) in H1. lia.
  - intros h Hh Hr. specialize (H2 h Hh Hr).
    rewrite (pendingOn_delete _ i e h He) in H2. lia.
Qed.

Lemma Paced_transmitted (s : State) (i : nat) (e : Encode) :
  Paced s → encoding s !! i = Some e → readyStateOf s (socket e) = OPEN →
  Paced (transmitted P e (resumed i s)).
Proof.
  intros [HW [H1 H2]] He Hr. split; [apply Wired_transmitted, HW|].
  unfold readyStateOf in Hr.
  destruct (sockets s !! socket e) as [w|] eqn:Ew; [|discriminate].
  assert (Hsum : ∀ h,
    owedOn (alter owed (socket e) (sockets s)) h + pendingOn (delete i (encoding s)) h
    = owedOn (sockets s) h + pendingOn (encoding s) h).
  { intros h. rewrite (pendingOn_delete _ i e h He), owedOn_alter.
    case_decide as E; [|lia]. subst h. rewrite Ew. unfold owedOn. rewrite Ew.
    cbn. lia. }
  unfold transmitted, resumed, onSocket; cbn.
  split; intros h; rewrite Hsum; auto.
Qed.

Lemma Paced_step (e : Event) (s s' : State) :
  Paced s → isResponse s e = true → step P e s = Some s' → Paced s'.
Proof.
  intros H Hresp Hstep.
  refine (step_preserves P Paced Answered (λ s h, 0 < owedOn (sockets s) h)
    Paced_view Answered_view Paced_mount
    (λ s H E, proj1 (wired_fresh _ _ _ _ _ (proj1 H) E)) Paced_stopped
    _ Answered_answered (λ s H, proj1 H) _ (λ s H _, Answered_ready s H)
    _ _ (λ s H _, H) _ Paced_reconnect (λ s b H, H) _ Paced_resumed Paced_transmitted
    e s s' H _ Hstep).
  - intros s0 h w H0 Hw Hr. apply Paced_onSocket; [reflexivity|exact H0|].
    eapply Wired_open; eauto. apply H0.
  - intros s0 [H0 Hz] _. apply Paced_sendRequest; assumption.
  - intros s0 h w H0 Hw Hr. apply Paced_onSocket; [reflexivity|exact H0|].
    eapply Wired_closing; eauto. apply H0.
  - intros s0 h w H0 Hw Hr. apply Paced_onSocket; [reflexivity|exact H0|].
    apply Wired_error, H0.
  - intros s0 h w H0 Hw Hr. apply Paced_onSocket; [reflexivity|exact H0|].
    apply Wired_close, H0.
  - intros s0 H0 Hr. apply Paced_sendRequest; [exact H0|].
    intros h Hh. destruct H0 as [_ [_ H2]]. apply H2; assumption.
  - intros h d ->. cbn in Hresp. unfold owedOn.
    destruct (sockets s !! h); [|discriminate]. apply Nat.ltb_lt, Hresp.
Qed.

End PacedSteps.

Section InFlight.

Context (P : Inputs).

Lemma Paced_init : Paced init.
Proof.
  split; [apply Wired_init|].
  split; intros h; unfold owedOn, pendingOn; cbn; rewrite lookup_nil; cbn; lia.
Qed.

Lemma Paced_run (t : list Event) (s s' : State) :
  Paced s → responsive P t s = true → run P t s = Some s' → Paced s'.
Proof.
  revert s. induction t as [|e t IH]; intros s Hs Hresp Hrun; cbn in *.
  - injection Hrun as <-. exact Hs.
  - apply andb_true_iff in Hresp as [He Hresp].
    destruct (step P e s) as [s1|] eqn:E; cbn in Hrun; [|discriminate].
    eapply IH; [|exact Hresp|exact Hrun]. eapply Paced_step; eauto.
Qed.

Lemma at_most_one (l : list nat) :
  NoDup l → (∀ x y, x ∈ l → y ∈ l → x = y) → l = [] ∨ ∃ x, l = [x].
Proof.
  intros Hnd Heq. destruct l as [|x [|y l]]; [left; reflexivity|right; eauto|].
  exfalso. apply NoDup_cons in Hnd as [Hx _]. apply Hx.
  rewrite (Heq x y); [left|left|right; left].
Qed.

(** At most one socket is not closed. *)
Lemma liveSockets_at_most_one (s : State) :
  Wired s → liveSockets s = [] ∨ ∃ h, liveSockets s = [h].
Proof.
  intros HW. apply at_most_one.
  - unfold liveSockets. apply NoDup_filter, NoDup_seq.
  - assert (Hlive : ∀ h, h ∈ liveSockets s →
              ∃ w, sockets s !! h = Some w ∧ readyState w ≠ CLOSED).
    { intros h Hh. unfold liveSockets in Hh.
      apply list_elem_of_filter in Hh as [Hr _]. unfold readyStateOf in Hr.
      destruct (sockets s !! h) as [w|]; [eauto|contradiction]. }
    intros x y Hx Hy.
    destruct (Hlive x Hx) as (wx & Ex & Lx), (Hlive y Hy) as (wy & Ey & Ly).
    eapply (wired_live _ _ _ _ _ HW); eauto.
Qed.

Lemma Paced_inflight (s : State) : Paced s → inflight s ≤ 1.
Proof.
  intros [HW [H1 _]]. unfold inflight.
  destruct (liveSockets_at_most_one s HW) as [->|[h ->]]; cbn; [lia|].
  specialize (H1 h). unfold inflightOn. lia.
Qed.

End InFlight.

(** ** What becomes of the captured chunks *)

Section ConservedSteps.

Context (P : Inputs).

Lemma Conserved_view (s s' : State) :
  view s' = view s → Conserved P s → Conserved P s'.
Proof. intros H. view_subst H. unfold Conserved. congruence. Qed.

Lemma Conserved_frame (s s' : State) :
  audioBufferRef s' = audioBufferRef s → captured s' = captured s →
  drained s' = drained s → encoding s' = encoding s → wire s' = wire s →
  Conserved P s → Conserved P s'.
Proof. unfold Conserved. congruence. Qed.

Lemma Conserved_stopped (s : State) : Conserved P s → Conserved P (stopped s).
Proof.
  pose proof (stopped_view s) as E. unfold view in E.
  injection E as _ E2 _ _ _ E6 E7 E8 E9 _ _.
  apply Conserved_frame; assumption.
Qed.

Lemma Conserved_pushed (s : State) (blob : Blob) :
  Conserved P s → Conserved P (pushed blob s).
Proof.
  intros [H1 H2 H3 H4]. split; cbn; auto.
  rewrite app_assoc, H1. reflexivity.
Qed.

Lemma Conserved_taken (s : State) (h : nat) :
  Conserved P s → Conserved P (taken h s).
Proof.
  intros [H1 H2 H3 H4]. split; cbn.
  - rewrite concat_app. cbn. rewrite !app_nil_r. exact H1.
  - rewrite fmap_app. cbn.
    assert (Hperm : ((number <$> encoding s) ++ [length (drained s)]) ++ (batch <$> wire s)
                    ≡ₚ length (drained s) :: (number <$> encoding s) ++ (batch <$> wire s)).
    { rewrite <- app_assoc. cbn [app]. symmetry. apply Permutation_middle. }
    rewrite Hperm. apply NoDup_cons. split; [|exact H2].
    intros Hin. apply elem_of_app in Hin as [Hin|Hin];
      apply list_elem_of_fmap in Hin as (x & Hx & Hin).
    + destruct (H3 x Hin) as (parts & Hl & _). apply lookup_lt_Some in Hl. lia.
    + destruct (H4 x Hin) as (parts & Hl & _). apply lookup_lt_Some in Hl. lia.
  - intros e He. apply elem_of_app in He as [He|He].
    + destruct (H3 e He) as (parts & Hl & Hb). exists parts.
      split; [apply lookup_app_l_Some, Hl|exact Hb].
    + apply list_elem_of_singleton in He. subst e. cbn.
      exists (audioBufferRef s). split; [|reflexivity].
      apply list_lookup_middle. reflexivity.
  - intros f Hf. destruct (H4 f Hf) as (parts & Hl & Hb). exists parts.
    split; [apply lookup_app_l_Some, Hl|exact Hb].
Qed.

Lemma Conserved_sendRequest (s : State) :
  Conserved P s → Conserved P (sendRequest s).2.
Proof.
  intros H. rewrite sendRequest_eq. cbn.
  destruct (socketRef s) as [h|]; [|exact H].
  destruct (isOPEN _); [apply Conserved_taken, H|exact H].
Qed.

Lemma Conserved_resumed (s : State) (i : nat) (e : Encode) :
  Conserved P s → encoding s !! i = Some e → Conserved P (resumed i s).
Proof.
  intros [H1 H2 H3 H4] He. split; cbn; auto.
  - rewrite (delete_Permutation _ i e He) in H2. cbn in H2.
    apply NoDup_cons in H2 as [_ H2]. exact H2.
  - intros x Hx. apply H3. eapply list_elem_of_delete_inv, Hx.
Qed.

Lemma Conserved_transmitted (s : State) (i : nat) (e : Encode) :
  Conserved P s → encoding s !! i = Some e →
  Conserved P (transmitted P e (resumed i s)).
Proof.
  intros [H1 H2 H3 H4] He. split; cbn; auto.
  - rewrite fmap_app. cbn.
    rewrite (delete_Permutation _ i e He) in H2. cbn in H2.
    rewrite app_assoc. rewrite <- Permutation_cons_append. exact H2.
  - intros x Hx. apply H3. eapply list_elem_of_delete_inv, Hx.
  - intros f Hf. apply elem_of_app in Hf as [Hf|Hf]; [apply H4, Hf|].
    apply list_elem_of_singleton in Hf. subst f. cbn.
    destruct (H3 e) as (parts & Hl & Hb); [eapply list_elem_of_lookup_2, He|].
    exists parts. split; [exact Hl|]. rewrite Hb. reflexivity.
Qed.

Lemma Conserved_step (e : Event) (s s' : State) :
  Wired s ∧ Conserved P s → step P e s = Some s' → Wired s' ∧ Conserved P s'.
Proof.
  intros H Hstep.
  refine (step_preserves P (λ s, Wired s ∧ Conserved P s)
    (λ s, Wired s ∧ Conserved P s) (λ _ _, True)
    _ _ _ _ _ _ _ _ _ _ _ _ (λ s H _, H) _ _ _ _ _ _ e s s' H (λ _ _ _, Logic.I) Hstep);
    clear e s s' H Hstep.
  - intros s s' Hv [HW HC]. split; [eapply Wired_view|eapply Conserved_view]; eauto.
  - intros s s' Hv [HW HC]. split; [eapply Wired_view|eapply Conserved_view]; eauto.
  - intros s [HW HC] Heff. split; [apply Wired_mount; assumption|exact HC].
  - intros s [HW HC] Heff. apply (wired_fresh _ _ _ _ _ HW Heff).
  - intros s [HW HC] Heff.
    split; [apply Wired_stopped; assumption|apply Conserved_stopped, HC].
  - intros s h w [HW HC] Hw Hr. split; [eapply Wired_open; eauto|exact HC].
  - intros s h w [HW HC] Hw Hr _. split; [apply Wired_answered, HW|exact HC].
  - auto.
  - intros s [HW HC] _.
    split; [apply Wired_sendRequest, HW|apply Conserved_sendRequest, HC].
  - intros s [HW HC] _. split; [exact HW|exact HC].
  - intros s h w [HW HC] Hw Hr. split; [eapply Wired_closing; eauto|exact HC].
  - intros s h w [HW HC] Hw Hr. split; [apply Wired_error, HW|exact HC].
  - intros s h w [HW HC] Hw Hr. split; [apply Wired_close, HW|exact HC].
  - intros s h w [HW HC] Hw Hf Hm. split; [eapply Wired_reconnect; eauto|exact HC].
  - intros s blob [HW HC]. split; [exact HW|apply Conserved_pushed, HC].
  - intros s [HW HC] _.
    split; [apply Wired_sendRequest, HW|apply Conserved_sendRequest, HC].
  - intros s i e [HW HC] He.
    split; [apply Wired_resumed, HW|eapply Conserved_resumed; eauto].
  - intros s i e [HW HC] He Hr.
    split; [apply Wired_transmitted, HW|apply Conserved_transmitted; assumption].
Qed.

Lemma Conserved_init : Conserved P init.
Proof.
  split; cbn; auto; try apply NoDup_nil_2; intros x Hx; apply elem_of_nil in Hx;
    contradiction.
Qed.

Lemma Conserved_run (t : list Event) (s : State) :
  run P t init = Some s → Conserved P s.
Proof.
  intros Hrun.
  apply (run_invariant P (λ s, Wired s ∧ Conserved P s) Conserved_step t init s);
    [|exact Hrun].
  split; [apply Wired_init|apply Conserved_init].
Qed.

End ConservedSteps.

(** ** The queue and the readiness flag across one event *)

Section Flow.

Context (P : Inputs).

Lemma while_view (s : State) : view (settle (socketOnOpen_while s)) = view s.
Proof.
  unfold_proc. destruct (mountRef s), (recorderRef s); reflexivity.
Qed.

Lemma sendRequest_flow (s : State) :
  (drained (sendRequest s).2 = drained s ∧
   serverReadyRef (sendRequest s).2 = serverReadyRef s ∧
   audioBufferRef (sendRequest s).2 = audioBufferRef s) ∨
  (drained (sendRequest s).2 = drained s ++ [audioBufferRef s] ∧
   serverReadyRef (sendRequest s).2 = false ∧
   audioBufferRef (sendRequest s).2 = []).
Proof.
  rewrite sendRequest_eq. cbn. destruct (socketRef s) as [h|]; [|left; auto].
  destruct (isOPEN _); [right|left]; auto.
Qed.

Lemma step_ChunkRecorded (blob : Blob) (s : State) (n : nat) :
  recording s = S n →
  step P (ChunkRecorded blob) s =
    Some (settle (socketOnOpen_while
                    (if serverReadyRef s
                     then (sendRequest (arrived blob n s)).2
                     else arrived blob n s))).
Proof.
  intros E. unfold step. rewrite E.
  unfold socketOnOpen_recorded, andThen at 1, exec at 1.
  change (set_audioBufferRef _ _) with (arrived blob n s).
  unfold andThen, read.
  change (serverReadyRef (arrived blob n s)) with (serverReadyRef s).
  destruct (serverReadyRef s); [|reflexivity].
  rewrite detached_sendRequest, sendRequest_eq. reflexivity.
Qed.

Lemma step_RecorderCreated (s : State) (n : nat) :
  creating s = S n →
  step P RecorderCreated s =
    Some (settle (socketOnOpen_while
                    (set_recorderRef (Some (length (recorders s)))
                       (set_recorders (recorders s ++ [false]) (set_creating n s))))).
Proof. intros E. unfold step. rewrite E. reflexivity. Qed.

Lemma settle_sendRequest (s : State) : settle (sendRequest s) = (sendRequest s).2.
Proof. rewrite sendRequest_eq. reflexivity. Qed.

Lemma step_flows (e : Event) (s s' : State) :
  step P e s = Some s' → flows e s s'.
Proof.
  intros Hstep. unfold flows. destruct e.
  - (* Mount *)
    unfold step in Hstep.
    destruct (effectRan s); [discriminate|]. injection Hstep as <-.
    right; left. cbn. eauto 6.
  - (* Unmount *)
    unfold step in Hstep.
    destruct (effectRan s); [|discriminate]. injection Hstep as <-.
    unfold cleanup. rewrite stopEverything_eq. cbn.
    pose proof (stopped_view s) as E. unfold view in E.
    injection E as _ _ _ E4 _ _ _ _ E9 _ _. left. auto.
  - (* SockOpen *)
    unfold step in Hstep.
    destruct (sockets s !! h) as [w|] eqn:Ew;
      cbn [mbind option_bind] in Hstep; [|discriminate].
    destruct (isCONNECTING _); [|discriminate]. injection Hstep as <-.
    left. auto.
  - (* SockMessage *)
    unfold step in Hstep.
    destruct (sockets s !! h) as [w|] eqn:Ew;
      cbn [mbind option_bind] in Hstep; [|discriminate].
    destruct (isOPEN _); [|discriminate]. injection Hstep as <-.
    destruct (socketOnMessage_eq P d (onSocket h answered s)) as (s0 & Hc & E).
    apply core_view in Hc. view_subst Hc. cbn in Hbuf, Hrdy, Hdr.
    destruct E as [E|[E|[E|E]]]; rewrite E; clear E.
    + left. cbn. auto.
    + left. cbn. auto.
    + pose proof (stopped_view s0) as E0. unfold view in E0.
      injection E0 as _ _ _ E4 _ _ _ _ E9 _ _. left. cbn [settle].
      split; congruence.
    + destruct (0 <? _).
      * destruct (sendRequest_flow s0) as [(F1 & F2 & F3)|(F1 & F2 & F3)].
        -- left. rewrite settle_sendRequest. split; congruence.
        -- right; right. rewrite settle_sendRequest.
           split; [exact F2|]. split; [exact F3|]. right. exists h, d.
           split; [reflexivity|]. congruence.
      * right; left. cbn. split; [congruence|]. split; [reflexivity|].
        left. eauto.
  - (* SockClosing *)
    unfold step in Hstep.
    destruct (sockets s !! h) as [w|] eqn:Ew;
      cbn [mbind option_bind] in Hstep; [|discriminate].
    destruct (isOPEN _); [|discriminate]. injection Hstep as <-.
    left. auto.
  - (* SockError *)
    unfold step in Hstep.
    destruct (sockets s !! h) as [w|] eqn:Ew;
      cbn [mbind option_bind] in Hstep; [|discriminate].
    destruct (isCLOSED _); [discriminate|]. injection Hstep as <-.
    unfold socketOnError, read. destruct (maxReconnects <? _).
    + unfold andThen, setStatus, exec. rewrite stopEverything_eq. cbn.
      match goal with |- context [stopped ?x] =>
        pose proof (stopped_view x) as E end.
      unfold view in E. injection E as _ _ _ E4 _ _ _ _ E9 _ _. left. auto.
    + left. auto.
  - (* SockClose *)
    unfold step in Hstep.
    destruct (sockets s !! h) as [w|] eqn:Ew;
      cbn [mbind option_bind] in Hstep; [|discriminate].
    destruct (closeFired w); [discriminate|]. injection Hstep as <-.
    unfold socketOnClose, read. destruct (mountRef _).
    + right; left. cbn. eauto 7.
    + left. auto.
  - (* RecorderCreated *)
    destruct (creating s) as [|n] eqn:En;
      [unfold step in Hstep; rewrite En in Hstep; discriminate|].
    rewrite (step_RecorderCreated s n En) in Hstep. injection Hstep as <-.
    match goal with |- context [settle (socketOnOpen_while ?x)] =>
      pose proof (while_view x) as E end.
    view_subst E. left. split; [exact Hdr|exact Hrdy].
  - (* RecorderFailed *)
    unfold step in Hstep.
    destruct (creating s) as [|n]; [discriminate|]. injection Hstep as <-.
    left. auto.
  - (* ChunkRecorded *)
    destruct (recording s) as [|n] eqn:En;
      [unfold step in Hstep; rewrite En in Hstep; discriminate|].
    rewrite (step_ChunkRecorded blob s n En) in Hstep. injection Hstep as <-.
    match goal with |- context [settle (socketOnOpen_while ?x)] =>
      pose proof (while_view x) as E end.
    view_subst E. rewrite Hdr, Hrdy, Hbuf. clear.
    destruct (serverReadyRef s) eqn:Er; [|left; auto].
    destruct (sendRequest_flow (arrived blob n s)) as [(F1 & F2 & F3)|(F1 & F2 & F3)].
    + left. rewrite F1, F2. auto.
    + right; right. split; [exact F2|]. split; [exact F3|]. left. exists blob.
      split; [reflexivity|]. split; [reflexivity|]. exact F1.
  - (* RecordFailed *)
    unfold step in Hstep.
    destruct (recording s) as [|n]; [discriminate|]. injection Hstep as <-.
    left. auto.
  - (* Encoded *)
    unfold step in Hstep.
    destruct (encoding s !! i) as [e|] eqn:Ee;
      cbn [mbind option_bind] in Hstep; [|discriminate].
    injection Hstep as <-. unfold sendRequest_encoded, ws_send, read.
    destruct (readyStateOf _ _); left; auto.
  - (* EncodeFailed *)
    unfold step in Hstep.
    destruct (encoding s !! i) as [e|] eqn:Ee;
      cbn [mbind option_bind] in Hstep; [|discriminate].
    injection Hstep as <-. left. auto.
Qed.

End Flow.

(** ** The sequence of a coalesced send *)

Section Coalescing.

Context (P : Inputs).

Lemma socketOnMessage_accepted (response : json) (s : State) :
  accepted response = true →
  ∃ s0, core s0 = core s ∧
    socketOnMessage P (Parsed response) s =
      if 0 <? length (audioBufferRef s)
      then sendRequest s0
      else (Normal, set_serverReadyRef true s0).
Proof.
  intros Ha. unfold socketOnMessage, andThen at 1, setStatus at 1, exec at 1.
  set (s1 := set_statuses _ s).
  assert (Hd : ∀ v, ∃ s0, core s0 = core s ∧
            socketOnMessage_deliver P v s1 =
              if 0 <? length (audioBufferRef s)
              then sendRequest s0 else (Normal, set_serverReadyRef true s0)).
  { intros v. destruct (socketOnMessage_deliver_eq P v s1) as (s0 & H0 & E0).
    exists s0. split; [exact H0|exact E0]. }
  clearbody s1.
  destruct response; try discriminate; cbv zeta; unfold accepted in Ha;
    match goal with
    | |- context [prop ?x "error"] => destruct (prop x "error") as [e|]
    end;
    try (destruct (truthy e); [discriminate|]); apply Hd.
Qed.

Lemma sendRequest_encoded_open (e : Encode) (s : State) :
  readyStateOf s (socket e) = OPEN →
  sendRequest_encoded P e s = (Normal, transmitted P e s).
Proof.
  intros Hr. unfold sendRequest_encoded, ws_send, read. rewrite Hr. reflexivity.
Qed.

Lemma accumulated_nil (s : State) : accumulated [] s = s.
Proof. destruct s. unfold accumulated. cbn. rewrite !app_nil_r. reflexivity. Qed.

Lemma accumulated_cons (b : Blob) (bs : list Blob) (s : State) :
  accumulated bs (accumulated [b] s) = accumulated (b :: bs) s.
Proof.
  destruct s. unfold accumulated. cbn. rewrite <- !app_assoc. reflexivity.
Qed.

(** While the flag is lowered, chunks that arrive are queued and nothing else
    happens. *)
Lemma run_accumulate (bs : list Blob) (s : State) (r k : nat) :
  mountRef s = true → recorderRef s = Some r → recording s = S k →
  serverReadyRef s = false →
  run P (ChunkRecorded <$> bs) s = Some (accumulated bs s).
Proof.
  revert s. induction bs as [|b bs IH]; intros s Hm Hr Hk Hf.
  - cbn. rewrite accumulated_nil. reflexivity.
  - cbn [fmap list_fmap run]. rewrite (step_ChunkRecorded P b s k Hk), Hf.
    cbn [mbind option_bind].
    assert (E : settle (socketOnOpen_while (arrived b k s)) = accumulated [b] s).
    { unfold socketOnOpen_while, read, exec, throw, skip, settle, arrived, accumulated.
      destruct s. cbn in *. subst. reflexivity. }
    rewrite E, (IH (accumulated [b] s)), accumulated_cons; auto.
Qed.

End Coalescing.

(** ** The reconnect counter and fatal messages *)

Section Counter.

Context (P : Inputs).

Lemma sendRequest_numReconnects (s : State) :
  numReconnects (sendRequest s).2 = numReconnects s.
Proof.
  rewrite sendRequest_eq. cbn. destruct (socketRef s); [|reflexivity].
  destruct (isOPEN _); reflexivity.
Qed.

Lemma stopped_numReconnects (s : State) : numReconnects (stopped s) = numReconnects s.
Proof.
  pose proof (stopped_view s) as E. unfold view in E.
  injection E as _ _ _ _ _ _ _ _ _ _ E. exact E.
Qed.

(** No event lowers [numReconnects]. *)
Lemma counter_step (N : nat) (e : Event) (s s' : State) :
  Wired s ∧ N ≤ numReconnects s → step P e s = Some s' →
  Wired s' ∧ N ≤ numReconnects s'.
Proof.
  intros H Hstep.
  refine (step_preserves P (λ s, Wired s ∧ N ≤ numReconnects s)
    (λ s, Wired s ∧ N ≤ numReconnects s) (λ _ _, True)
    _ _ _ _ _ _ _ _ _ _ _ _ _ _ _ _ _ _ _ e s s' H (λ _ _ _, Logic.I) Hstep);
    clear e s s' H Hstep.
  - intros s s' Hv [HW HC]. split; [eapply Wired_view; eauto|].
    view_subst Hv. lia.
  - intros s s' Hv [HW HC]. split; [eapply Wired_view; eauto|].
    view_subst Hv. lia.
  - intros s [HW HC] Heff. split; [apply Wired_mount; assumption|exact HC].
  - intros s [HW HC] Heff. apply (wired_fresh _ _ _ _ _ HW Heff).
  - intros s [HW HC] Heff. split; [apply Wired_stopped; assumption|].
    rewrite stopped_numReconnects. exact HC.
  - intros s h w [HW HC] Hw Hr. split; [eapply Wired_open; eauto|exact HC].
  - intros s h w [HW HC] Hw Hr _. split; [apply Wired_answered, HW|exact HC].
  - auto.
  - intros s [HW HC] _. split; [apply Wired_sendRequest, HW|].
    rewrite sendRequest_numReconnects. exact HC.
  - intros s [HW HC] _. split; [exact HW|exact HC].
  - intros s h w [HW HC] Hw Hr. split; [eapply Wired_closing; eauto|exact HC].
  - intros s h w [HW HC] Hw Hr. split; [apply Wired_error, HW|exact HC].
  - intros s [HW HC] _. split; [exact HW|]. cbn. lia.
  - intros s h w [HW HC] Hw Hr. split; [apply Wired_close, HW|exact HC].
  - intros s h w [HW HC] Hw Hf Hm. split; [eapply Wired_reconnect; eauto|exact HC].
  - intros s blob [HW HC]. split; [exact HW|exact HC].
  - intros s [HW HC] _. split; [apply Wired_sendRequest, HW|].
    rewrite sendRequest_numReconnects. exact HC.
  - intros s i e [HW HC] He. split; [apply Wired_resumed, HW|exact HC].
  - intros s i e [HW HC] He Hr. split; [apply Wired_transmitted, HW|exact HC].
Qed.

Lemma counter_run (t : list Event) (s s' : State) :
  Wired s → run P t s = Some s' → numReconnects s ≤ numReconnects s'.
Proof.
  intros HW Hrun.
  apply (run_invariant P (λ x, Wired x ∧ numReconnects s ≤ numReconnects x)
           (counter_step (numReconnects s)) t s s'); auto.
Qed.

Lemma stopped_display (s : State) :
  statuses (stopped s) = statuses s ∧ rendered (stopped s) = rendered s ∧
  timeline (stopped s) = timeline s ∧ recorderRef (stopped s) = None ∧
  rejections (stopped s) = rejections s.
Proof.
  unfold stopped, stopCurrent, closeCurrent, ws_close, onSocket, stopRecording.
  destruct s as [so re]; cbn. destruct so, re; cbn; auto.
Qed.

(** A truthy [error]: its text becomes the status and the session is torn
    down; nothing of the message is shown. *)
Lemma socketOnMessage_fatal (response error : json) (s : State) :
  prop response "error" = Some error → truthy error = true →
  socketOnMessage P (Parsed response) s =
    (Normal, stopped (set_statuses ((statuses s ++ [JStr EmptyString]) ++ [error]) s)).
Proof.
  intros He Ht. unfold socketOnMessage.
  destruct response; try discriminate; cbv zeta; rewrite He, Ht;
    unfold andThen, setStatus, exec; rewrite stopEverything_eq; reflexivity.
Qed.

End Counter.

(** * The claims *)

(** C1. At most one batch is in flight at any time: in every state reached by
    a sequence of events in which each message is a response, and in the state
    after one more such event, at most one batch is in flight.  A batch is
    taken from the queue only when a chunk arrives with the readiness flag
    raised or when a message is processed, and taking it lowers the flag;
    among chunk arrivals, completed encodings and messages, only a message
    raises the flag again.  (Of all events, the only other ones that raise it
    are those that call [connect], for the new socket it makes, on which
    nothing is in flight; the bound covers them.) *)
Theorem at_most_one_batch_in_flight (P : Inputs) (t : list Event) (s : State)
    (e : Event) (s' : State) :
  responsive P t init = true → run P t init = Some s →
  isResponse s e = true → step P e s = Some s' →
  inflight s ≤ 1 ∧ inflight s' ≤ 1 ∧
  (drained s' ≠ drained s →
   serverReadyRef s' = false ∧
   ((∃ blob, e = ChunkRecorded blob ∧ serverReadyRef s = true) ∨
    (∃ h d, e = SockMessage h d))) ∧
  (sessionEvent e = true → serverReadyRef s = false → serverReadyRef s' = true →
   ∃ h d, e = SockMessage h d) ∧
  (serverReadyRef s = false → serverReadyRef s' = true →
   (∃ h d, e = SockMessage h d) ∨ e = Mount ∨ ∃ h, e = SockClose h).
Proof.
  intros Hresp Hrun He Hstep.
  assert (Hs : Paced s) by (eapply Paced_run; eauto using Paced_init).
  assert (Hs' : Paced s') by (eapply Paced_step; eauto).
  split; [apply Paced_inflight, Hs|]. split; [apply Paced_inflight, Hs'|].
  pose proof (step_flows P e s s' Hstep) as [(D & R)|[(D & R & Hev)|(R & B & Hev)]].
  - split; [intros Hd; contradiction|]. split; intros; congruence.
  - split; [intros Hd; contradiction|]. split; [|intros _ _; exact Hev].
    intros Hse _ _.
    destruct Hev as [Hm|[->|[h ->]]]; [exact Hm|discriminate..].
  - split; [|split; intros; congruence].
    intros _. split; [exact R|].
    destruct Hev as [(blob & -> & Hr & _)|(h & d & -> & _)]; eauto.
Qed.

Lemma at_most_one_batch_in_flight_witness :
  ∃ s s',
    responsive ProsodyWidgets session init = true ∧
    run ProsodyWidgets session init = Some s ∧
    isResponse s (SockMessage 0 noPredictions) = true ∧
    step ProsodyWidgets (SockMessage 0 noPredictions) s = Some s' ∧
    inflight s ≤ 1 ∧ inflight s' ≤ 1.
Proof.
  eexists _, _.
  split; [vm_compute; reflexivity|]. split; [vm_compute; reflexivity|].
  split; [vm_compute; reflexivity|]. split; [vm_compute; reflexivity|].
  match goal with
  | |- inflight ?s ≤ 1 ∧ inflight ?s' ≤ 1 =>
      pose proof (at_most_one_batch_in_flight ProsodyWidgets session s
                    (SockMessage 0 noPredictions) s') as H
  end.
  destruct H as (H1 & H2 & _); [vm_compute; reflexivity..|].
  split; [exact H1|exact H2].
Defined.

(** C2. Chunks that accumulate while a send is in flight go out together.
    On an open socket with the readiness flag lowered, the chunks [bs] that
    arrive are queued and no request is made for them; the next message that
    is accepted takes the whole queue as one batch, empties the queue and,
    when its encoding completes, transmits one message whose [data] encodes
    the concatenation of the queued chunks in the order of their arrival.
    And whatever the event, the batches taken are left as they were or grow by
    one batch that is the whole queue, which is then empty. *)
Theorem queued_chunks_go_out_together (P : Inputs) (s : State) (h r k : nat)
    (bs : list Blob) (response : json) :
  socketRef s = Some h → readyStateOf s h = OPEN → serverReadyRef s = false →
  mountRef s = true → recorderRef s = Some r → recording s = S k →
  accepted response = true → audioBufferRef s ++ bs ≠ [] →
  (∃ s1 s2 s3,
     run P (ChunkRecorded <$> bs) s = Some s1 ∧
     audioBufferRef s1 = audioBufferRef s ++ bs ∧
     drained s1 = drained s ∧ encoding s1 = encoding s ∧ wire s1 = wire s ∧
     step P (SockMessage h (Parsed response)) s1 = Some s2 ∧
     audioBufferRef s2 = [] ∧
     drained s2 = drained s ++ [audioBufferRef s ++ bs] ∧
     step P (Encoded (length (encoding s))) s2 = Some s3 ∧
     wire s3 =
       wire s ++
       [mkFrame h (length (drained s))
          {| data := blobToBase64 P (newBlob (audioBufferRef s ++ bs));
             models := modelName P;
             stream_window_ms := streamWindowLengthMs P |}]) ∧
  (∀ e x x', step P e x = Some x' →
     drained x' = drained x ∨
     audioBufferRef x' = [] ∧
     (drained x' = drained x ++ [audioBufferRef x] ∨
      ∃ blob, e = ChunkRecorded blob ∧
              drained x' = drained x ++ [audioBufferRef x ++ [blob]])).
Proof.
  intros Hso Hopen Hf Hm Hr Hk Ha Hne. split.
  - set (s1 := accumulated bs s).
    assert (Hw : ∃ w, sockets s !! h = Some w ∧ readyState w = OPEN).
    { unfold readyStateOf in Hopen. destruct (sockets s !! h) as [w|]; [eauto|discriminate]. }
    destruct Hw as (w & Hw & Hrw).
    destruct (socketOnMessage_accepted P response (onSocket h answered s1) Ha)
      as (s0 & Hc & E).
    apply core_view in Hc. view_subst Hc.
    cbn [onSocket accumulated s1 socketRef audioBufferRef serverReadyRef sockets
         encoding wire drained set_sockets set_audioBufferRef set_captured] in *.
    assert (Hlen : (0 <? length (audioBufferRef s ++ bs)) = true).
    { apply Nat.ltb_lt. destruct (audioBufferRef s ++ bs); [congruence|cbn; lia]. }
    rewrite Hlen in E.
    assert (Hopen0 : isOPEN (readyStateOf s0 h) = true).
    { unfold readyStateOf. rewrite Hsocks, list_lookup_alter_eq, Hw. cbn.
      rewrite Hrw. reflexivity. }
    assert (E2 : settle (socketOnMessage P (Parsed response) (onSocket h answered s1))
                 = taken h s0).
    { rewrite E, sendRequest_eq, Hso0, Hso, Hopen0. reflexivity. }
    set (e := mkEncode h (length (drained s)) (newBlob (audioBufferRef s ++ bs))).
    assert (Henc2 : encoding (taken h s0) = encoding s ++ [e]).
    { unfold taken; cbn. rewrite Henc, Hdr, Hbuf. reflexivity. }
    exists s1, (taken h s0), (transmitted P e (resumed (length (encoding s)) (taken h s0))).
    split; [eapply run_accumulate; eauto|].
    split; [reflexivity|]. split; [reflexivity|]. split; [reflexivity|].
    split; [reflexivity|].
    split.
    { unfold step. change (sockets s1) with (sockets s). rewrite Hw.
      cbn [mbind option_bind]. rewrite Hrw. cbn [isOPEN]. rewrite E2. reflexivity. }
    split; [reflexivity|].
    split; [unfold taken; cbn; rewrite Hdr, Hbuf; reflexivity|].
    split.
    { unfold step. rewrite Henc2, list_lookup_middle by reflexivity.
      cbn [mbind option_bind]. rewrite <- Henc2.
      rewrite sendRequest_encoded_open; [reflexivity|].
      unfold readyStateOf. cbn. rewrite Hsocks, list_lookup_alter_eq, Hw. cbn.
      exact Hrw. }
    unfold transmitted, resumed, taken; cbn. rewrite Hwire. reflexivity.
  - intros ev x x' Hstep.
    destruct (step_flows P ev x x' Hstep) as [(D & _)|[(D & _)|(_ & B & Hev)]];
      [left; exact D..|].
    right. split; [exact B|].
    destruct Hev as [(blob & -> & _ & D)|(h0 & d & -> & D)]; eauto.
Qed.

Lemma queued_chunks_go_out_together_witness :
  ∃ s1 s2 s3,
    run ProsodyWidgets (ChunkRecorded <$> [chunkB; chunkA]) sessionInFlight = Some s1 ∧
    step ProsodyWidgets (SockMessage 0 noPredictions) s1 = Some s2 ∧
    step ProsodyWidgets (Encoded 0) s2 = Some s3 ∧
    data ∘ body <$> wire s3 = ["TWE="; "bk1h"].
Proof.
  destruct (queued_chunks_go_out_together ProsodyWidgets sessionInFlight 0 0 0
              [chunkB; chunkA] (JObj [("prosody", JObj [])]))
    as [(s1 & s2 & s3 & H1 & _ & _ & _ & _ & H2 & _ & _ & H3 & H4) _];
    try (vm_compute; reflexivity).
  - vm_compute. discriminate.
  - exists s1, s2, s3. split; [exact H1|]. split; [exact H2|]. split; [exact H3|].
    rewrite H4. vm_compute. reflexivity.
Defined.

(** C3. Four socket errors in a row without an open in between do not reach
    the terminal state: [socketOnError] compares the counter with the ceiling
    before it increments it, so the fourth error only raises the counter to 4
    and the [close] that follows reconnects a fourth time; the status shown is
    that of the reconnection.  It is the fifth error that shows the
    re-authentication status and tears the session down. *)
Theorem fourth_error_reconnects :
  ∃ s4 s5,
    run ProsodyWidgets fourErrors init = Some s4 ∧
    mountRef s4 = true ∧ numReconnects s4 = 4 ∧
    socketRef s4 = Some 4 ∧ readyStateOf s4 4 = CONNECTING ∧
    statuses s4 =
      JStr <$> ["Connecting to server..."; "Reconnecting"; "Connecting to server...";
                "Reconnecting"; "Connecting to server..."; "Reconnecting";
                "Connecting to server..."; "Reconnecting"; "Connecting to server..."] ∧
    step ProsodyWidgets (SockError 4) s4 = Some s5 ∧
    mountRef s5 = false ∧ socketRef s5 = None ∧
    status s5 = JStr (failedToConnect ProsodyWidgets).
Proof.
  eexists _, _. split; [vm_compute; reflexivity|].
  repeat (split; [vm_compute; reflexivity|]). vm_compute. reflexivity.
Qed.

(** C4, as the claim states it, fails: after one error the socket of the
    reconnection opens and the counter is still 1; and two errors before an
    open followed by three after it tear the session down, although three
    errors alone do not. *)
Lemma open_resets_counter_counterexample :
  (∃ s s',
     run ProsodyWidgets [Mount; SockError 0; SockClose 0] init = Some s ∧
     step ProsodyWidgets (SockOpen 1) s = Some s' ∧
     readyStateOf s' 1 = OPEN ∧ numReconnects s' = 1) ∧
  (∃ s,
     run ProsodyWidgets
       [Mount; SockError 0; SockClose 0; SockError 1; SockClose 1; SockOpen 2;
        SockError 2; SockClose 2; SockError 3; SockClose 3; SockError 4] init = Some s ∧
     mountRef s = false) ∧
  (∃ s,
     run ProsodyWidgets
       [Mount; SockOpen 0;
        SockError 0; SockClose 0; SockError 1; SockClose 1; SockError 2] init = Some s ∧
     mountRef s = true).
Proof.
  split; [|split].
  - eexists _, _. repeat (split; [vm_compute; reflexivity|]). reflexivity.
  - eexists. split; vm_compute; reflexivity.
  - eexists. split; vm_compute; reflexivity.
Qed.

(** C4, amended. An open leaves the reconnect counter as it is, and no event
    ever lowers it: the errors before an open count toward the ceiling like
    the errors after it. *)
Theorem reconnect_counter_is_never_reset (P : Inputs) (t1 t2 : list Event)
    (s1 s2 : State) :
  run P t1 init = Some s1 → run P t2 s1 = Some s2 →
  numReconnects s1 ≤ numReconnects s2 ∧
  (∀ h s', step P (SockOpen h) s1 = Some s' → numReconnects s' = numReconnects s1).
Proof.
  intros H1 H2. split.
  - eapply counter_run; [|exact H2]. eapply Wired_run, H1.
  - intros h s' Hstep. unfold step in Hstep.
    destruct (sockets s1 !! h); cbn [mbind option_bind] in Hstep; [|discriminate].
    destruct (isCONNECTING _); [|discriminate]. injection Hstep as <-. reflexivity.
Qed.

Lemma reconnect_counter_is_never_reset_witness :
  ∃ s1 s2,
    run ProsodyWidgets [Mount; SockError 0; SockClose 0] init = Some s1 ∧
    run ProsodyWidgets [SockOpen 1; SockError 1] s1 = Some s2 ∧
    numReconnects s1 ≤ numReconnects s2.
Proof.
  eexists _, _.
  split; [vm_compute; reflexivity|]. split; [vm_compute; reflexivity|].
  match goal with
  | |- numReconnects ?a ≤ numReconnects ?b =>
      pose proof (reconnect_counter_is_never_reset ProsodyWidgets
                    [Mount; SockError 0; SockClose 0] [SockOpen 1; SockError 1] a b) as H
  end.
  destruct H as [H _]; [vm_compute; reflexivity..|]. exact H.
Defined.

(** C5, as the claim states it, fails: a message whose [error] field is
    present and is the empty string is processed like any other.  With a chunk
    queued, its predictions are shown, the queue is sent, and the session
    stays up. *)
Lemma present_error_counterexample :
  ∃ s s',
    run ProsodyWidgets session init = Some s ∧
    audioBufferRef s = [chunkB] ∧
    prop (JObj [("error", JStr EmptyString)]) "error" = Some (JStr EmptyString) ∧
    step ProsodyWidgets
      (SockMessage 0 (Parsed (JObj [("error", JStr EmptyString)]))) s = Some s' ∧
    mountRef s' = true ∧ socketRef s' = Some 0 ∧
    rendered s' = [JArr []] ∧ status s' = JStr "No speech detected" ∧
    drained s' = [[chunkA]; [chunkB]].
Proof.
  eexists _, _. repeat (split; [vm_compute; reflexivity|]). reflexivity.
Qed.

(** C5, amended. For every inbound message whose top-level [error] field is
    truthy, processing of that message stops: no predictions are shown or
    forwarded, the error is the status, the session is torn down with the queue
    left as it is, and whatever happens afterwards nothing more is taken from
    the queue or transmitted. *)
Theorem truthy_error_is_fatal (P : Inputs) (t1 t2 : list Event) (s s1 s2 : State)
    (h : nat) (response error : json) :
  run P t1 init = Some s →
  prop response "error" = Some error → truthy error = true →
  step P (SockMessage h (Parsed response)) s = Some s1 →
  run P t2 s1 = Some s2 →
  status s1 = error ∧ rendered s1 = rendered s ∧ timeline s1 = timeline s ∧
  rejections s1 = rejections s ∧
  mountRef s1 = false ∧ socketRef s1 = None ∧ recorderRef s1 = None ∧
  audioBufferRef s1 = audioBufferRef s ∧ drained s1 = drained s ∧ wire s1 = wire s ∧
  drained s2 = drained s1 ∧ wire s2 = wire s1.
Proof.
  intros Hrun He Ht Hstep Hrun2.
  pose proof (Wired_run P t1 s Hrun) as HW.
  pose proof (Wired_step P _ s s1 HW Hstep) as HW1.
  unfold step in Hstep.
  destruct (sockets s !! h) as [w|]; cbn [mbind option_bind] in Hstep; [|discriminate].
  destruct (isOPEN _); [|discriminate].
  rewrite (socketOnMessage_fatal P response error _ He Ht) in Hstep.
  cbn [settle] in Hstep. injection Hstep as Hs1.
  match type of Hs1 with stopped ?x = _ =>
    pose proof (stopped_view x) as Ev; pose proof (stopped_display x) as (D1 & D2 & D3 & D4 & D5)
  end.
  rewrite Hs1 in Ev, D1, D2, D3, D4, D5. unfold view in Ev.
  injection Ev as E1 E2 E3 _ _ _ E7 _ E9 _ _. cbn in E2, E7, E9, D1, D2, D3.
  assert (Hm : mountRef s1 = false) by exact E3.
  destruct (Quiet_run P t2 s1 s2 HW1 Hm Hrun2) as (_ & Q1 & Q2 & _).
  repeat split; auto.
  unfold status. rewrite D1. apply last_last.
Qed.

Lemma truthy_error_is_fatal_witness :
  ∃ s s1 s2,
    run ProsodyWidgets session init = Some s ∧
    step ProsodyWidgets
      (SockMessage 0 (Parsed (JObj [("error", JStr "invalid API key")]))) s = Some s1 ∧
    run ProsodyWidgets [ChunkRecorded chunkA] s1 = Some s2 ∧
    status s1 = JStr "invalid API key" ∧ mountRef s1 = false ∧
    audioBufferRef s2 = [chunkB; chunkA] ∧ wire s2 = wire s1.
Proof.
  eexists _, _, _.
  split; [vm_compute; reflexivity|]. split; [vm_compute; reflexivity|].
  split; [vm_compute; reflexivity|].
  match goal with
  | |- status ?a = _ ∧ _ ∧ audioBufferRef ?b = _ ∧ _ =>
      pose proof (truthy_error_is_fatal ProsodyWidgets session [ChunkRecorded chunkA]
                    sessionWaiting a b 0
                    (JObj [("error", JStr "invalid API key")])
                    (JStr "invalid API key")) as H
  end.
  destruct H as (H1 & _ & _ & _ & H2 & _ & _ & _ & _ & _ & _ & H3);
    [vm_compute; reflexivity..|].
  split; [exact H1|]. split; [exact H2|]. split; [vm_compute; reflexivity|exact H3].
Defined.

(** C6, as the claim states it, fails: on a payload that is not JSON,
    [JSON.parse] throws and the exception leaves [socketOnMessage]; the status
    is the empty one the handler set on entry, and the session stays as it was,
    mounted and with its socket open. *)
Lemma malformed_payload_counterexample :
  ∃ s s',
    run ProsodyWidgets session init = Some s ∧
    socketOnMessage ProsodyWidgets NotJSON s =
      (Throw SyntaxError, set_statuses (statuses s ++ [JStr EmptyString]) s) ∧
    step ProsodyWidgets (SockMessage 0 NotJSON) s = Some s' ∧
    rejections s' = [SyntaxError] ∧ status s' = JStr EmptyString ∧
    mountRef s' = true ∧ socketRef s' = Some 0 ∧ readyStateOf s' 0 = OPEN ∧
    recorderRef s' = Some 0.
Proof.
  eexists _, _. repeat (split; [vm_compute; reflexivity|]). reflexivity.
Qed.

(** C6, amended. For every inbound message whose payload is not JSON, or is
    the JSON [null], the handler clears the status and throws: the exception
    leaves the handler, no teardown runs and nothing else of the state
    changes. *)
Theorem malformed_payload_throws (P : Inputs) (s : State) :
  socketOnMessage P NotJSON s =
    (Throw SyntaxError, set_statuses (statuses s ++ [JStr EmptyString]) s) ∧
  socketOnMessage P (Parsed JNull) s =
    (Throw TypeError, set_statuses (statuses s ++ [JStr EmptyString]) s) ∧
  ∀ d, d = NotJSON ∨ d = Parsed JNull →
    core (socketOnMessage P d s).2 = core s ∧
    status (socketOnMessage P d s).2 = JStr EmptyString.
Proof.
  split; [reflexivity|]. split; [reflexivity|].
  intros d [->| ->]; (split; [reflexivity|]); cbn; unfold status; cbn;
    apply last_last.
Qed.

(** C7. A send attempted while the session is not open closes it.  In every
    state the component can reach, if the current socket is not open then
    [sendRequest] calls [close] on it and, when it returns, every socket is
    closing or closed; when there is no current socket, the session has been
    torn down and its sockets are closing or closed already.  The queue is left
    as it was. *)
Theorem send_while_not_open_closes (P : Inputs) (t : list Event) (s : State) :
  run P t init = Some s →
  (∀ h, socketRef s = Some h → readyStateOf s h ≠ OPEN) →
  sendRequest s =
    (Normal, match socketRef s with Some h => ws_close h s | None => s end) ∧
  (∀ h w, sockets (sendRequest s).2 !! h = Some w →
          readyState w = CLOSING ∨ readyState w = CLOSED) ∧
  audioBufferRef (sendRequest s).2 = audioBufferRef s ∧
  drained (sendRequest s).2 = drained s ∧
  encoding (sendRequest s).2 = encoding s.
Proof.
  intros Hrun Hno. pose proof (Wired_run P t s Hrun) as HW.
  assert (E : sendRequest s =
            (Normal, match socketRef s with Some h => ws_close h s | None => s end)).
  { rewrite sendRequest_eq. destruct (socketRef s) as [h|] eqn:Eso; [|reflexivity].
    specialize (Hno h eq_refl). destruct (readyStateOf s h); try reflexivity.
    contradiction. }
  assert (Hstale : ∀ h w, sockets s !! h = Some w → socketRef s ≠ Some h →
            readyState w = CLOSING ∨ readyState w = CLOSED).
  { intros h w Hw Hne. destruct (wired_stale _ _ _ _ _ HW h w Hw Hne) as (A & B & _).
    destruct (readyState w); auto; contradiction. }
  rewrite E. cbn [snd]. split; [reflexivity|].
  destruct (socketRef s) as [h0|] eqn:Eso.
  - split; [|split; [|split]]; try reflexivity.
    intros h w Hw. cbn in Hw.
    apply lookup_alter_Some in Hw as [(<- & x & Hx & ->)|[Hne Hw]].
    + unfold closing. destruct (readyState x) eqn:Ex; cbn; auto.
    + apply (Hstale h w Hw). congruence.
  - split; [|split; [|split]]; try reflexivity.
    intros h w Hw. apply (Hstale h w Hw). discriminate.
Qed.

Lemma send_while_not_open_closes_witness :
  ∃ s,
    run ProsodyWidgets [Mount] init = Some s ∧
    readyStateOf s 0 = CONNECTING ∧
    readyStateOf (sendRequest s).2 0 = CLOSING ∧
    audioBufferRef (sendRequest s).2 = audioBufferRef s.
Proof.
  eexists. split; [vm_compute; reflexivity|]. split; [vm_compute; reflexivity|].
  split; [vm_compute; reflexivity|].
  match goal with
  | |- audioBufferRef (sendRequest ?a).2 = _ =>
      pose proof (send_while_not_open_closes ProsodyWidgets [Mount] a) as H
  end.
  destruct H as (_ & _ & H & _); [vm_compute; reflexivity| |exact H].
  intros h Hh. vm_compute in Hh. injection Hh as <-. vm_compute. discriminate.
Defined.

(** C8. After a stop request nothing that was captured is sent.  Teardown
    lowers [mountRef], and only teardown does; from any state the component
    can reach in which [mountRef] is lowered, whatever comes next (a [record]
    call that completes, an encoding that completes, events of the sockets),
    no message is transmitted and no batch is taken from the queue. *)
Theorem no_audio_sent_after_stop (P : Inputs) (t1 t2 : list Event) (s1 s2 : State) :
  run P t1 init = Some s1 → mountRef s1 = false → run P t2 s1 = Some s2 →
  wire s2 = wire s1 ∧ drained s2 = drained s1 ∧ mountRef s2 = false ∧
  socketRef s2 = None ∧
  (∀ s, mountRef (stopEverything s).2 = false).
Proof.
  intros H1 Hm H2. pose proof (Wired_run P t1 s1 H1) as HW.
  destruct (Quiet_run P t2 s1 s2 HW Hm H2) as (Q0 & Q1 & Q2 & _).
  repeat split; auto.
  - assert (HW2 : Wired s2) by (eapply Wired_run; rewrite run_app, H1; exact H2).
    apply (wired_unmounted _ _ _ _ _ HW2 Q0).
  - intros s. rewrite stopEverything_eq. cbn.
    pose proof (stopped_view s) as E. unfold view in E.
    injection E as _ _ E _ _ _ _ _ _ _ _. exact E.
Qed.

Lemma no_audio_sent_after_stop_witness :
  ∃ s1 s2,
    run ProsodyWidgets
      [Mount; SockOpen 0; RecorderCreated; ChunkRecorded chunkA; Unmount] init = Some s1 ∧
    mountRef s1 = false ∧ length (encoding s1) = 1 ∧ recording s1 = 1 ∧
    run ProsodyWidgets [Encoded 0; ChunkRecorded chunkB] s1 = Some s2 ∧
    wire s2 = [] ∧ audioBufferRef s2 = [chunkB] ∧ recording s2 = 0.
Proof.
  eexists _, _. do 5 (split; [vm_compute; reflexivity|]).
  split; [|split; vm_compute; reflexivity].
  match goal with
  | |- wire ?b = _ =>
      pose proof (no_audio_sent_after_stop ProsodyWidgets
        [Mount; SockOpen 0; RecorderCreated; ChunkRecorded chunkA; Unmount]
        [Encoded 0; ChunkRecorded chunkB]
        (default init (run ProsodyWidgets
           [Mount; SockOpen 0; RecorderCreated; ChunkRecorded chunkA; Unmount] init))
        b) as H
  end.
  destruct H as (H & _); [vm_compute; reflexivity..|]. rewrite H. reflexivity.
Defined.

(** C9. Teardown is idempotent: from any state, also one in which no socket
    and no recorder was ever made, [stopEverything] returns without throwing,
    and run again it returns the state it was given.  It lowers [mountRef],
    with which a [close] event that arrives afterwards does nothing; and in
    every state reached after teardown no socket has been added. *)
Theorem teardown_is_idempotent (P : Inputs) (s : State) (t1 t2 : list Event)
    (s1 s2 : State) :
  run P t1 init = Some s1 → mountRef s1 = false → run P t2 s1 = Some s2 →
  stopEverything s = (Normal, stopped s) ∧
  stopEverything (stopped s) = (Normal, stopped s) ∧
  stopEverything init = (Normal, set_mountRef false init) ∧
  mountRef (stopped s) = false ∧
  socketOnClose (stopped s) = (Normal, stopped s) ∧
  length (sockets s2) = length (sockets s1) ∧ mountRef s2 = false.
Proof.
  intros H1 Hm H2. pose proof (Wired_run P t1 s1 H1) as HW.
  destruct (Quiet_run P t2 s1 s2 HW Hm H2) as (Q0 & _ & _ & Q3).
  assert (Hmnt : mountRef (stopped s) = false).
  { pose proof (stopped_view s) as E. unfold view in E.
    injection E as _ _ E _ _ _ _ _ _ _ _. exact E. }
  split; [apply stopEverything_eq|].
  split.
  { rewrite stopEverything_eq. f_equal.
    unfold stopped, stopCurrent, closeCurrent, ws_close, onSocket, stopRecording.
    destruct s as [so re]; cbn. destruct so, re; reflexivity. }
  split; [reflexivity|]. split; [exact Hmnt|].
  split; [unfold socketOnClose, read; rewrite Hmnt; reflexivity|].
  split; [exact Q3|exact Q0].
Qed.

Lemma teardown_is_idempotent_witness :
  ∃ s1 s2,
    run ProsodyWidgets [Mount; SockOpen 0; Unmount] init = Some s1 ∧
    mountRef s1 = false ∧
    run ProsodyWidgets [SockClose 0; Unmount] s1 = Some s2 ∧
    length (sockets s2) = 1 ∧ socketRef s2 = None.
Proof.
  eexists _, _. do 3 (split; [vm_compute; reflexivity|]).
  split; [|vm_compute; reflexivity].
  match goal with
  | |- length (sockets ?b) = _ =>
      pose proof (teardown_is_idempotent ProsodyWidgets init
        [Mount; SockOpen 0; Unmount] [SockClose 0; Unmount]
        (default init (run ProsodyWidgets [Mount; SockOpen 0; Unmount] init)) b) as H
  end.
  destruct H as (_ & _ & _ & _ & _ & H & _); [vm_compute; reflexivity..|].
  rewrite H. reflexivity.
Defined.

(** C10. No chunk goes out twice.  In every state the component can reach, the
    batches taken from the queue, in order, followed by the queue, are exactly
    the chunks captured, in order: a chunk is in one batch or still queued.
    The transmitted messages carry batches of different numbers, each the
    encoding of the batch of its number.  And [sendRequest] on an open socket
    takes the whole queue, leaves it empty and lowers the readiness flag
    before the encoding starts, with nothing transmitted yet. *)
Theorem no_chunk_is_sent_twice (P : Inputs) (t : list Event) (s : State) :
  run P t init = Some s →
  concat (drained s) ++ audioBufferRef s = captured s ∧
  NoDup (batch <$> wire s) ∧
  (∀ f, f ∈ wire s →
     ∃ parts, drained s !! batch f = Some parts ∧
              data (body f) = blobToBase64 P (newBlob parts)) ∧
  (∀ h, socketRef s = Some h → readyStateOf s h = OPEN →
     sendRequest s = (Normal, taken h s) ∧
     audioBufferRef (taken h s) = [] ∧ serverReadyRef (taken h s) = false ∧
     drained (taken h s) = drained s ++ [audioBufferRef s] ∧
     encoding (taken h s) =
       encoding s ++ [mkEncode h (length (drained s)) (newBlob (audioBufferRef s))] ∧
     wire (taken h s) = wire s).
Proof.
  intros Hrun. destruct (Conserved_run P t s Hrun) as [H1 H2 H3 H4].
  split; [exact H1|]. split; [apply NoDup_app in H2; tauto|].
  split; [exact H4|].
  intros h Hso Hopen. rewrite sendRequest_eq, Hso, Hopen. repeat split.
Qed.

Lemma no_chunk_is_sent_twice_witness :
  ∃ s,
    run ProsodyWidgets (session ++ [SockMessage 0 noPredictions; Encoded 0]) init = Some s ∧
    captured s = [chunkA; chunkB] ∧ drained s = [[chunkA]; [chunkB]] ∧
    batch <$> wire s = [0; 1] ∧
    concat (drained s) ++ audioBufferRef s = captured s.
Proof.
  eexists. do 4 (split; [vm_compute; reflexivity|]).
  eapply (no_chunk_is_sent_twice ProsodyWidgets
            (session ++ [SockMessage 0 noPredictions; Encoded 0])).
  vm_compute. reflexivity.
Defined.

(** * Further properties

    How the reconnect counter, the capture loops and the recorders evolve,
    what is shown, which exceptions leave the handlers, what becomes of a
    batch, and what the chart is given. *)

(** ** The handlers in closed form *)

Section Closed.

Context (P : Inputs).

Lemma socketOnMessage_deliver_delivered (v : json) (s : State) :
  socketOnMessage_deliver P v s = (Normal, delivered P v s).
Proof.
  unfold socketOnMessage_deliver, delivered, shown, noSpeech, andThen, setPredictions,
    setStatus, exec, skip, read.
  destruct (onTimeline P), (lengthEq0 P v), (String.eqb (modelName P) "burst");
    cbn [audioBufferRef set_statuses set_timeline set_rendered];
    (destruct (0 <? _); [rewrite detached_sendRequest, sendRequest_eq|]; reflexivity).
Qed.

Lemma socketOnMessage_received (d : MessageData) (s : State) :
  settle (socketOnMessage P d s) = received P d s.
Proof.
  unfold socketOnMessage, andThen at 1, setStatus at 1, exec at 1.
  fold (cleared s). destruct d as [|response]; [reflexivity|].
  unfold received, fatal.
  destruct response; try reflexivity; cbv zeta;
    fold (newPredictionsOf P);
    match goal with
    | |- context [prop ?x "error"] => destruct (prop x "error") as [e|]
    end;
    try (destruct (truthy e));
    try (rewrite socketOnMessage_deliver_delivered; reflexivity);
    unfold andThen, setStatus, exec; rewrite stopEverything_eq; reflexivity.
Qed.

Lemma while_looped (s : State) : settle (socketOnOpen_while s) = looped s.
Proof. unfold_proc. unfold looped. destruct (mountRef s), (recorderRef s); reflexivity. Qed.

(** An event that the browser produces was enabled, and leaves the state that
    [after] gives. *)
Lemma step_after (e : Event) (s s' : State) :
  step P e s = Some s' → s' = after P e s ∧ enabled e s.
Proof.
  intros Hstep. destruct e; cbn [after enabled];
    try match goal with
    | |- context [looped (if _ then _ else _)] => idtac
    | _ => unfold step in Hstep
    end.
  - destruct (effectRan s) eqn:E; [discriminate|]. injection Hstep as <-. auto.
  - destruct (effectRan s) eqn:E; [|discriminate]. injection Hstep as <-.
    unfold cleanup. rewrite stopEverything_eq. auto.
  - destruct (sockets s !! h) as [w|] eqn:Ew; cbn [mbind option_bind] in Hstep;
      [|discriminate].
    destruct (readyState w) eqn:Er; cbn [isCONNECTING] in Hstep; try discriminate.
    injection Hstep as <-. eauto.
  - destruct (sockets s !! h) as [w|] eqn:Ew; cbn [mbind option_bind] in Hstep;
      [|discriminate].
    destruct (readyState w) eqn:Er; cbn [isOPEN] in Hstep; try discriminate.
    injection Hstep as <-. rewrite socketOnMessage_received. eauto.
  - destruct (sockets s !! h) as [w|] eqn:Ew; cbn [mbind option_bind] in Hstep;
      [|discriminate].
    destruct (readyState w) eqn:Er; cbn [isOPEN] in Hstep; try discriminate.
    injection Hstep as <-. eauto.
  - destruct (sockets s !! h) as [w|] eqn:Ew; cbn [mbind option_bind] in Hstep;
      [|discriminate].
    destruct (isCLOSED (readyState w)) eqn:Er; [discriminate|]. injection Hstep as <-.
    split.
    + unfold socketOnError, errored, read. destruct (maxReconnects <? _); [|reflexivity].
      unfold andThen, setStatus, exec. rewrite stopEverything_eq. reflexivity.
    + exists w. split; [reflexivity|]. intros Hc. rewrite Hc in Er. discriminate.
  - destruct (sockets s !! h) as [w|] eqn:Ew; cbn [mbind option_bind] in Hstep;
      [|discriminate].
    destruct (closeFired w) eqn:Ef; [discriminate|]. injection Hstep as <-.
    split; [|eauto]. unfold socketOnClose, reconnected, read.
    destruct (mountRef _); reflexivity.
  - destruct (creating s) as [|n] eqn:En; [discriminate|]. injection Hstep as <-.
    split; [|lia]. unfold socketOnOpen_created, andThen, exec at 1.
    rewrite while_looped. reflexivity.
  - destruct (creating s) as [|n] eqn:En; [discriminate|]. injection Hstep as <-.
    split; [reflexivity|lia].
  - destruct (recording s) as [|n] eqn:En;
      [unfold step in Hstep; rewrite En in Hstep; discriminate|].
    rewrite (step_ChunkRecorded P blob s n En) in Hstep. injection Hstep as <-.
    split; [|lia]. rewrite while_looped. reflexivity.
  - destruct (recording s) as [|n] eqn:En; [discriminate|]. injection Hstep as <-.
    split; [reflexivity|lia].
  - destruct (encoding s !! i) as [e|] eqn:Ee; cbn [mbind option_bind] in Hstep;
      [|discriminate].
    injection Hstep as <-. split; [|eauto].
    unfold sendRequest_encoded, ws_send, sent, read. fold (resumed i s).
    destruct (readyStateOf _ _); reflexivity.
  - destruct (encoding s !! i) as [e|] eqn:Ee; cbn [mbind option_bind] in Hstep;
      [|discriminate].
    injection Hstep as <-. split; [reflexivity|eauto].
Qed.

(** A response is accepted when it is not [null] and has no truthy [error]. *)
Lemma accepted_fatal (response : json) :
  accepted response =
    match response with
    | JNull => false
    | _ => match fatal response with Some _ => false | None => true end
    end.
Proof.
  unfold accepted, fatal.
  destruct response; try reflexivity;
    (destruct (prop _ "error") as [e|]; [destruct (truthy e)|]; reflexivity).
Qed.

(** The three ways in which [socketOnMessage] ends. *)
Lemma received_cases (d : MessageData) (s : State) :
  (thrown (SockMessage 0 d) ≠ [] ∧ shownBy P (SockMessage 0 d) = [] ∧
   tearsDown (SockMessage 0 d) s = false ∧
   received P d s =
     set_rejections (rejections s ++ thrown (SockMessage 0 d)) (cleared s)) ∨
  (∃ response error,
     d = Parsed response ∧ fatal response = Some error ∧
     thrown (SockMessage 0 d) = [] ∧ shownBy P (SockMessage 0 d) = [] ∧
     tearsDown (SockMessage 0 d) s = true ∧
     received P d s =
       stopped (set_statuses (statuses (cleared s) ++ [error]) (cleared s))) ∨
  (∃ response,
     d = Parsed response ∧ accepted response = true ∧
     thrown (SockMessage 0 d) = [] ∧
     shownBy P (SockMessage 0 d) = [newPredictionsOf P response] ∧
     tearsDown (SockMessage 0 d) s = false ∧
     received P d s = delivered P (newPredictionsOf P response) (cleared s)).
Proof.
  destruct d as [|response].
  { left. repeat split. discriminate. }
  pose proof (accepted_fatal response) as Ha.
  destruct (fatal response) as [error|] eqn:Ef.
  - right; left. exists response, error.
    assert (response ≠ JNull) by (intros ->; discriminate).
    destruct response; try contradiction;
      cbn [received thrown shownBy tearsDown]; rewrite ?Ha, ?Ef; repeat split.
  - destruct response;
      try (right; right; eexists; cbn [received thrown shownBy tearsDown];
           rewrite Ha, Ef; repeat split; fail).
    left. cbn. repeat split. discriminate.
Qed.

Lemma received_accepted (response : json) (s : State) :
  accepted response = true →
  received P (Parsed response) s = delivered P (newPredictionsOf P response) (cleared s).
Proof.
  intros Ha. rewrite accepted_fatal in Ha. unfold received.
  destruct response; try discriminate; destruct (fatal _); try discriminate; reflexivity.
Qed.

(** What [sendRequest], the display of a message, teardown and the loop test
    leave alone. *)
Lemma sendRequest_keeps (s : State) :
  let s' := (sendRequest s).2 in
  socketRef s' = socketRef s ∧ mountRef s' = mountRef s ∧
  numReconnects s' = numReconnects s ∧ effectRan s' = effectRan s ∧
  recorderRef s' = recorderRef s ∧ recorders s' = recorders s ∧
  creating s' = creating s ∧ recording s' = recording s ∧
  statuses s' = statuses s ∧ rendered s' = rendered s ∧ timeline s' = timeline s ∧
  rejections s' = rejections s ∧ wire s' = wire s ∧ captured s' = captured s.
Proof.
  cbv zeta. rewrite sendRequest_eq. cbn [snd].
  destruct (socketRef s) eqn:E; [destruct (isOPEN _)|];
    repeat (split; [first [reflexivity | exact E]|]); reflexivity.
Qed.

Lemma shown_core (v : json) (s : State) : core (shown P v s) = core s.
Proof.
  unfold shown. destruct (onTimeline P), (lengthEq0 P v); reflexivity.
Qed.

Lemma shown_display (v : json) (s : State) :
  rendered (shown P v s) = rendered s ++ [v] ∧
  timeline (shown P v s) = timeline s ++ (if onTimeline P then [v] else []) ∧
  statuses (shown P v s) = statuses s ++ (if lengthEq0 P v then [noSpeech P] else []).
Proof.
  unfold shown. destruct (onTimeline P), (lengthEq0 P v); cbn;
    rewrite ?app_nil_r; auto.
Qed.

Lemma looped_keeps (s : State) :
  rendered (looped s) = rendered s ∧ timeline (looped s) = timeline s ∧
  statuses (looped s) = statuses s ∧ wire (looped s) = wire s ∧
  drained (looped s) = drained s ∧ audioBufferRef (looped s) = audioBufferRef s ∧
  encoding (looped s) = encoding s ∧ sockets (looped s) = sockets s ∧
  socketRef (looped s) = socketRef s ∧ serverReadyRef (looped s) = serverReadyRef s ∧
  numReconnects (looped s) = numReconnects s.
Proof. unfold looped. destruct (mountRef s), (recorderRef s); repeat split. Qed.

Lemma stopped_sends (s : State) :
  drained (stopped s) = drained s ∧ wire (stopped s) = wire s ∧
  encoding (stopped s) = encoding s ∧ audioBufferRef (stopped s) = audioBufferRef s.
Proof.
  pose proof (stopped_view s) as E. unfold view in E.
  injection E as _ E2 _ _ _ E6 E7 _ E9 _ _. auto.
Qed.

Lemma occurrences_cons (p : Event → bool) (e : Event) (t : list Event) :
  occurrences p (e :: t) = (if p e then 1 else 0) + occurrences p t.
Proof. unfold occurrences. cbn. destruct (p e); reflexivity. Qed.

End Closed.

(** ** The reconnect counter, exactly *)

Section CounterExact.

Context (P : Inputs).

Lemma delivered_numReconnects (v : json) (s : State) :
  numReconnects (delivered P v s) = numReconnects s.
Proof.
  pose proof (shown_core P v s) as E. unfold core in E.
  injection E as _ _ _ _ E _ _ _ _ _ _ _ _ _ _ _.
  unfold delivered. destruct (0 <? _); [|exact E].
  destruct (sendRequest_keeps (shown P v s)) as (_ & _ & -> & _). exact E.
Qed.

Lemma received_numReconnects (d : MessageData) (s : State) :
  numReconnects (received P d s) = numReconnects s.
Proof.
  destruct (received_cases P d s)
    as [(_ & _ & _ & ->)|[(r & x & _ & _ & _ & _ & _ & ->)|(r & _ & _ & _ & _ & _ & ->)]].
  - reflexivity.
  - rewrite stopped_numReconnects. reflexivity.
  - rewrite delivered_numReconnects. reflexivity.
Qed.

(** Only an [error] event below the ceiling raises the counter. *)
Lemma after_numReconnects (e : Event) (s : State) :
  numReconnects (after P e s) =
    if isSockError e && negb (maxReconnects <? numReconnects s)
    then S (numReconnects s) else numReconnects s.
Proof.
  destruct e; cbn [after isSockError andb]; try reflexivity.
  - apply stopped_numReconnects.
  - rewrite received_numReconnects. reflexivity.
  - unfold errored. cbn [numReconnects onSocket set_sockets].
    destruct (maxReconnects <? numReconnects s); cbn [negb].
    + rewrite stopped_numReconnects. reflexivity.
    + reflexivity.
  - unfold reconnected. destruct (mountRef _); reflexivity.
  - match goal with |- context [looped ?y] =>
      destruct (looped_keeps y) as (_ & _ & _ & _ & _ & _ & _ & _ & _ & _ & ->) end.
    reflexivity.
  - match goal with |- context [looped ?y] =>
      destruct (looped_keeps y) as (_ & _ & _ & _ & _ & _ & _ & _ & _ & _ & ->) end.
    destruct (serverReadyRef s); [|reflexivity].
    destruct (sendRequest_keeps (arrived blob (pred (recording s)) s))
      as (_ & _ & -> & _). reflexivity.
  - destruct (encoding s !! i); [|reflexivity]. unfold sent.
    destruct (readyStateOf _ _); reflexivity.
Qed.

Lemma counter_exact (t : list Event) (s s' : State) :
  run P t s = Some s' → numReconnects s ≤ S maxReconnects →
  numReconnects s' = (numReconnects s + errors t) `min` S maxReconnects.
Proof.
  unfold errors. revert s. induction t as [|e t IH]; intros s Hrun Hle.
  - injection Hrun as <-. unfold occurrences. cbn. lia.
  - cbn in Hrun. destruct (step P e s) as [s1|] eqn:E; cbn in Hrun; [|discriminate].
    apply step_after in E as [-> _].
    pose proof (after_numReconnects e s) as Hn.
    rewrite occurrences_cons.
    unfold maxReconnects in *.
    destruct (isSockError e); cbn [andb] in Hn.
    + destruct (3 <? numReconnects s) eqn:Hc; cbn [negb] in Hn.
      * apply Nat.ltb_lt in Hc. rewrite (IH _ Hrun) by lia. lia.
      * apply Nat.ltb_ge in Hc. rewrite (IH _ Hrun) by lia. lia.
    + rewrite (IH _ Hrun) by lia. lia.
Qed.

End CounterExact.

(** X1. A [close] event while the component is mounted reconnects once:
    [socketOnClose] calls [connect], which makes one new socket, in the
    connecting state, makes it the current one and raises the readiness flag.
    The status [Reconnecting] that [socketOnClose] sets is overwritten by
    [connect] in the same turn, so the status left is [Connecting to
    server...].  When the component is not mounted the event does nothing.  In
    both cases the queue, the suspended sends, the counter, the recorder and
    the capture loops are left as they were. *)
Theorem close_while_mounted_reconnects (P : Inputs) (h : nat) (s s' : State) :
  step P (SockClose h) s = Some s' →
  (mountRef s = true →
   sockets s' = alter closedNow h (sockets s) ++ [newWebSocket] ∧
   socketRef s' = Some (length (sockets s)) ∧
   readyStateOf s' h = CLOSED ∧
   readyStateOf s' (length (sockets s)) = CONNECTING ∧
   serverReadyRef s' = true ∧
   statuses s' = statuses s ++ [JStr "Reconnecting"; JStr "Connecting to server..."] ∧
   status s' = JStr "Connecting to server...") ∧
  (mountRef s = false →
   sockets s' = alter closedNow h (sockets s) ∧ socketRef s' = socketRef s ∧
   serverReadyRef s' = serverReadyRef s ∧ statuses s' = statuses s) ∧
  mountRef s' = mountRef s ∧ numReconnects s' = numReconnects s ∧
  audioBufferRef s' = audioBufferRef s ∧ encoding s' = encoding s ∧
  recorderRef s' = recorderRef s ∧ recorders s' = recorders s ∧
  creating s' = creating s ∧ recording s' = recording s.
Proof.
  intros Hstep. apply step_after in Hstep as [-> (w & Hw & Hf)].
  cbn [after]. unfold reconnected.
  cbn [mountRef onSocket set_sockets].
  destruct (mountRef s) eqn:Em.
  - split; [intros _|split; [discriminate|repeat split; try reflexivity; exact Em]].
    unfold connected.
    cbn [sockets socketRef serverReadyRef statuses set_socketRef set_sockets
         set_statuses set_serverReadyRef onSocket].
    split; [reflexivity|]. split; [rewrite length_alter; reflexivity|].
    split.
    { unfold readyStateOf. cbn. rewrite lookup_app_l.
      - rewrite list_lookup_alter_eq, Hw. reflexivity.
      - rewrite length_alter. eapply lookup_lt_Some, Hw. }
    split.
    { unfold readyStateOf. cbn.
      rewrite <- (length_alter closedNow (sockets s) h) at 1.
      rewrite list_lookup_middle by reflexivity. reflexivity. }
    split; [reflexivity|].
    split; [cbn; rewrite <- app_assoc; reflexivity|].
    unfold status. cbn. apply last_last.
  - split; [discriminate|]. split; [intros _; repeat split|].
    repeat split; try reflexivity; exact Em.
Qed.

Lemma close_while_mounted_reconnects_witness :
  ∃ s s',
    run ProsodyWidgets [Mount; SockOpen 0; SockClosing 0] init = Some s ∧
    step ProsodyWidgets (SockClose 0) s = Some s' ∧
    mountRef s = true ∧ length (sockets s') = 2 ∧ socketRef s' = Some 1.
Proof.
  eexists _, _.
  split; [vm_compute; reflexivity|]. split; [vm_compute; reflexivity|].
  split; [vm_compute; reflexivity|].
  match goal with
  | |- length (sockets ?b) = _ ∧ _ =>
      pose proof (close_while_mounted_reconnects ProsodyWidgets 0
        (default init (run ProsodyWidgets [Mount; SockOpen 0; SockClosing 0] init)) b) as H
  end.
  destruct H as (H & _); [vm_compute; reflexivity|].
  destruct H as (H1 & H2 & _); [vm_compute; reflexivity|].
  rewrite H1, H2. vm_compute. auto.
Defined.

(** X2. The reconnect counter counts the [error] events and stops at one past
    the ceiling: after any sequence of events it is the number of [error]
    events among them, or [maxReconnects + 1] if that is less, whatever opens,
    closes and messages came in between.  An [error] event that comes after at
    most [maxReconnects] others only raises the counter; one that comes after
    more shows the status that asks to log out, and tears the session down. *)
Theorem reconnect_counter_counts_errors (P : Inputs) (t : list Event) (s s' : State)
    (h : nat) :
  run P t init = Some s → step P (SockError h) s = Some s' →
  numReconnects s = errors t `min` S maxReconnects ∧
  (errors t ≤ maxReconnects →
   numReconnects s' = S (errors t) ∧ mountRef s' = mountRef s ∧
   socketRef s' = socketRef s ∧ recorderRef s' = recorderRef s ∧
   statuses s' = statuses s) ∧
  (maxReconnects < errors t →
   numReconnects s' = S maxReconnects ∧ mountRef s' = false ∧
   socketRef s' = None ∧ recorderRef s' = None ∧
   status s' = JStr (failedToConnect P)).
Proof.
  intros Hrun Hstep.
  pose proof (counter_exact P t init s Hrun) as Hn. cbn [numReconnects init] in Hn.
  specialize (Hn ltac:(lia)). cbn [Nat.add] in Hn.
  split; [exact Hn|].
  apply step_after in Hstep as [-> _]. cbn [after]. unfold errored.
  cbn [numReconnects onSocket set_sockets]. unfold maxReconnects in *.
  split; intros Hle.
  - replace (3 <? numReconnects s) with false by (symmetry; apply Nat.ltb_ge; lia).
    cbn. repeat split; lia.
  - replace (3 <? numReconnects s) with true by (symmetry; apply Nat.ltb_lt; lia).
    match goal with |- context [stopped ?x] =>
      pose proof (stopped_view x) as Ev;
      pose proof (stopped_display x) as (D1 & _ & _ & D4 & _)
    end.
    unfold view in Ev. injection Ev as E1 _ E3 _ _ _ _ _ _ _ _.
    split; [rewrite stopped_numReconnects; cbn; lia|]. split; [exact E3|].
    split; [exact E1|]. split; [exact D4|].
    unfold status. rewrite D1. cbn [statuses set_statuses]. apply last_last.
Qed.

Lemma reconnect_counter_counts_errors_witness :
  ∃ s s',
    run ProsodyWidgets fourErrors init = Some s ∧
    step ProsodyWidgets (SockError 4) s = Some s' ∧
    errors fourErrors = 4 ∧ numReconnects s = 4 ∧ mountRef s' = false.
Proof.
  eexists _, _.
  split; [vm_compute; reflexivity|]. split; [vm_compute; reflexivity|].
  split; [vm_compute; reflexivity|].
  match goal with
  | |- numReconnects ?a = _ ∧ mountRef ?b = _ =>
      pose proof (reconnect_counter_counts_errors ProsodyWidgets fourErrors a b 4) as H
  end.
  destruct H as (H1 & _ & H2); [vm_compute; reflexivity..|].
  split; [exact H1|]. apply H2. vm_compute. lia.
Defined.

(** ** The readiness flag while the socket connects *)

Lemma closing_not_connecting (w : WebSocket) :
  readyState (closing w) = CONNECTING → readyState w = CONNECTING.
Proof. unfold closing. destruct (readyState w) eqn:E; cbn; congruence. Qed.

Lemma ReadyV_alter so rdy socks h f :
  ReadyV so rdy socks →
  (∀ w, readyState (f w) = CONNECTING → readyState w = CONNECTING) →
  ReadyV so rdy (alter f h socks).
Proof.
  intros H Hf h' w Hso Hw Hc.
  apply lookup_alter_Some in Hw as [(Hh & x & Hx & ->)|[_ Hw]]; [|eauto].
  subst h'. eapply H; eauto.
Qed.

Section ReadySteps.

Context (P : Inputs).

Lemma Ready_onSocket (s : State) (h : nat) (f : WebSocket → WebSocket) :
  Ready s → Wired (onSocket h f s) →
  (∀ w, readyState (f w) = CONNECTING → readyState w = CONNECTING) →
  Ready (onSocket h f s).
Proof.
  intros [HW HR] HW' Hf. split; [exact HW'|]. apply ReadyV_alter; assumption.
Qed.

Lemma Ready_sendRequest (s : State) : Ready s → Ready (sendRequest s).2.
Proof.
  intros [HW HR]. split; [apply Wired_sendRequest, HW|].
  rewrite sendRequest_eq. cbn [snd].
  destruct (socketRef s) as [h|] eqn:Eso; [|rewrite Eso; exact HR].
  destruct (isOPEN (readyStateOf s h)) eqn:Er.
  - unfold taken; cbn. rewrite Eso. intros h' w [= <-] Hw Hc.
    unfold readyStateOf in Er. rewrite Hw, Hc in Er. discriminate.
  - unfold ws_close, onSocket; cbn. rewrite Eso.
    apply ReadyV_alter; [exact HR|apply closing_not_connecting].
Qed.

Lemma Ready_step (e : Event) (s s' : State) :
  Ready s → step P e s = Some s' → Ready s'.
Proof.
  intros H Hstep.
  refine (step_preserves P Ready Ready (λ _ _, True)
    _ _ _ _ _ _ _ (λ s H, H) (λ s H _, Ready_sendRequest s H)
    _ _ _ (λ s H _, H) _ _ (λ s b H, H) (λ s H _, Ready_sendRequest s H)
    _ _ e s s' H (λ _ _ _, Logic.I) Hstep); clear e s s' H Hstep.
  - intros s s' Hv [HW HR]. split; [eapply Wired_view; eauto|].
    view_subst Hv. rewrite Hso, Hrdy, Hsocks. exact HR.
  - intros s s' Hv [HW HR]. split; [eapply Wired_view; eauto|].
    view_subst Hv. rewrite Hso, Hrdy, Hsocks. exact HR.
  - intros s [HW HR] Heff. split; [apply Wired_mount; assumption|].
    intros h w _ _ _. reflexivity.
  - intros s [HW HO] Heff. apply (wired_fresh _ _ _ _ _ HW Heff).
  - intros s [HW HR] Heff. split; [apply Wired_stopped; assumption|].
    pose proof (stopped_view s) as E. unfold view in E.
    injection E as E1 _ _ _ _ _ _ _ _ _ _. rewrite E1. intros h w Hc. discriminate.
  - intros s h w H Hw Hr. apply Ready_onSocket; [exact H| |discriminate].
    eapply Wired_open; eauto. apply H.
  - intros s h w H Hw Hr _. apply Ready_onSocket; [exact H| |auto].
    apply Wired_answered, H.
  - intros s [HW HR] _. split; [exact HW|]. intros h w _ _ _. reflexivity.
  - intros s h w H Hw Hr. apply Ready_onSocket; [exact H| |discriminate].
    eapply Wired_closing; eauto. apply H.
  - intros s h w H Hw Hr. apply Ready_onSocket; [exact H| |discriminate].
    apply Wired_error, H.
  - intros s h w H Hw Hr. apply Ready_onSocket; [exact H| |discriminate].
    apply Wired_close, H.
  - intros s h w [HW HR] Hw Hf Hm. split; [eapply Wired_reconnect; eauto|].
    intros h' w' _ _ _. reflexivity.
  - intros s i e [HW HR] He. split; [apply Wired_resumed, HW|exact HR].
  - intros s i e [HW HR] He Hr. split; [apply Wired_transmitted, HW|].
    unfold transmitted, resumed, onSocket; cbn. apply ReadyV_alter; auto.
Qed.

Lemma Ready_run (t : list Event) (s : State) : run P t init = Some s → Ready s.
Proof.
  apply (run_invariant P Ready Ready_step). split; [apply Wired_init|].
  intros h w Hc. discriminate.
Qed.

End ReadySteps.

(** X3. A chunk that is recorded while the current socket is still connecting
    aborts the connection.  In every state the component can reach in which
    the current socket is connecting, the readiness flag is raised ([connect]
    raised it); so the capture loop that receives the chunk calls
    [sendRequest], which finds the socket not open and closes it.  The socket
    is then closing and can no longer open; the chunk stays in the queue and
    nothing is taken or sent. *)
Theorem chunk_while_connecting_aborts_connection (P : Inputs) (t : list Event)
    (s s' : State) (h : nat) (blob : Blob) :
  run P t init = Some s →
  socketRef s = Some h → readyStateOf s h = CONNECTING →
  step P (ChunkRecorded blob) s = Some s' →
  serverReadyRef s = true ∧
  readyStateOf s' h = CLOSING ∧ socketRef s' = Some h ∧
  step P (SockOpen h) s' = None ∧
  audioBufferRef s' = audioBufferRef s ++ [blob] ∧
  drained s' = drained s ∧ encoding s' = encoding s ∧ wire s' = wire s.
Proof.
  intros Hrun Hso Hc Hstep. destruct (Ready_run P t s Hrun) as [HW HR].
  unfold readyStateOf in Hc. destruct (sockets s !! h) as [w|] eqn:Ew; [|discriminate].
  pose proof (HR h w Hso Ew Hc) as Hrdy. split; [exact Hrdy|].
  apply step_after in Hstep as [-> Hen]. cbn [after]. rewrite Hrdy.
  match goal with |- context [looped ?y] =>
    destruct (looped_keeps y) as (_ & _ & _ & L4 & L5 & L6 & L7 & L8 & L9 & _) end.
  assert (E : (sendRequest (arrived blob (pred (recording s)) s)).2
              = ws_close h (arrived blob (pred (recording s)) s)).
  { rewrite sendRequest_eq. cbn [snd]. change (socketRef (arrived _ _ s)) with (socketRef s).
    rewrite Hso. unfold readyStateOf. change (sockets (arrived _ _ s)) with (sockets s).
    rewrite Ew, Hc. reflexivity. }
  rewrite E in *.
  assert (Hcl : readyStateOf (looped (ws_close h (arrived blob (pred (recording s)) s))) h
                = CLOSING).
  { unfold readyStateOf. rewrite L8. cbn. rewrite list_lookup_alter_eq, Ew. cbn.
    unfold closing. rewrite Hc. reflexivity. }
  split; [exact Hcl|]. split; [rewrite L9; exact Hso|].
  split.
  { unfold step. unfold readyStateOf in Hcl.
    match goal with |- context [sockets ?x !! h] =>
      destruct (sockets x !! h) as [w'|]; [|reflexivity] end.
    cbn. rewrite Hcl. reflexivity. }
  rewrite L4, L5, L6, L7. repeat split.
Qed.

Lemma chunk_while_connecting_aborts_connection_witness :
  ∃ s s',
    run ProsodyWidgets
      [Mount; SockOpen 0; RecorderCreated; SockClosing 0; SockClose 0] init = Some s ∧
    socketRef s = Some 1 ∧ readyStateOf s 1 = CONNECTING ∧
    step ProsodyWidgets (ChunkRecorded chunkA) s = Some s' ∧
    readyStateOf s' 1 = CLOSING ∧ audioBufferRef s' = [chunkA].
Proof.
  eexists _, _.
  split; [vm_compute; reflexivity|]. split; [vm_compute; reflexivity|].
  split; [vm_compute; reflexivity|]. split; [vm_compute; reflexivity|].
  match goal with
  | |- readyStateOf ?b _ = _ ∧ _ =>
      pose proof (chunk_while_connecting_aborts_connection ProsodyWidgets
        [Mount; SockOpen 0; RecorderCreated; SockClosing 0; SockClose 0]
        (default init (run ProsodyWidgets
           [Mount; SockOpen 0; RecorderCreated; SockClosing 0; SockClose 0] init))
        b 1 chunkA) as H
  end.
  destruct H as (_ & H1 & _ & _ & H2 & _); [vm_compute; reflexivity..|].
  split; [exact H1|]. rewrite H2. vm_compute. reflexivity.
Defined.

(** ** The capture loops and the recorders *)

Section Capture.

Context (P : Inputs).

Lemma stopped_capture (s : State) :
  capture (stopped s) =
    (false, None,
     match recorderRef s with Some r => <[r := true]> (recorders s) | None => recorders s end,
     creating s, recording s, effectRan s).
Proof.
  unfold stopped, stopCurrent, closeCurrent, ws_close, onSocket, stopRecording.
  destruct s as [so re]; cbn. destruct so, re; reflexivity.
Qed.

Lemma looped_capture (s : State) :
  capture (looped s) =
    (mountRef s, recorderRef s, recorders s, creating s,
     (if mountRef s
      then match recorderRef s with Some _ => S (recording s) | None => recording s end
      else recording s),
     effectRan s).
Proof.
  unfold looped, capture.
  destruct (mountRef s) eqn:Em, (recorderRef s) eqn:Er; cbn; rewrite ?Em, ?Er;
    reflexivity.
Qed.

Lemma sendRequest_capture (s : State) : capture (sendRequest s).2 = capture s.
Proof.
  destruct (sendRequest_keeps s) as (_ & E1 & _ & E2 & E3 & E4 & E5 & E6 & _).
  unfold capture. rewrite E1, E2, E3, E4, E5, E6. reflexivity.
Qed.

Lemma core_capture (s s' : State) : core s' = core s → capture s' = capture s.
Proof. unfold core, capture. intros [=]. congruence. Qed.

Lemma stopped_capture_eq (s s' : State) :
  capture s' = capture s → capture (stopped s') = capture (stopped s).
Proof.
  rewrite !stopped_capture. unfold capture. intros [= _ E2 E3 E4 E5 E6].
  rewrite E2, E3, E4, E5, E6. reflexivity.
Qed.

Lemma capture_inv (s : State) m r rs c rc e :
  capture s = (m, r, rs, c, rc, e) →
  mountRef s = m ∧ recorderRef s = r ∧ recorders s = rs ∧ creating s = c ∧
  recording s = rc ∧ effectRan s = e.
Proof. unfold capture. intros [=]. auto 7. Qed.

Lemma received_capture (d : MessageData) (s : State) :
  capture (received P d s) =
    if tearsDown (SockMessage 0 d) s then capture (stopped s) else capture s.
Proof.
  destruct (received_cases P d s)
    as [(_ & _ & -> & ->)|[(r & x & _ & _ & _ & _ & -> & ->)|(r & _ & _ & _ & _ & -> & ->)]].
  - reflexivity.
  - apply stopped_capture_eq. reflexivity.
  - unfold delivered. destruct (0 <? _).
    + rewrite sendRequest_capture. apply (core_capture s), (shown_core P _ (cleared s)).
    + etransitivity; [|apply (core_capture s), (shown_core P (newPredictionsOf P r) (cleared s))].
      reflexivity.
Qed.

(** The capture side after an event: teardown stops the current recorder and
    lowers [mountRef]; an open starts a [create]; a recorder that is created,
    or a chunk that is recorded, is followed by a [record] call when the
    component is mounted. *)
Lemma after_capture (e : Event) (s : State) :
  capture (after P e s) =
    if tearsDown e s then capture (stopped s)
    else match e with
         | Mount => (true, recorderRef s, recorders s, creating s, recording s, true)
         | SockOpen _ =>
             (mountRef s, recorderRef s, recorders s, S (creating s), recording s,
              effectRan s)
         | RecorderCreated =>
             (mountRef s, Some (length (recorders s)), recorders s ++ [false],
              pred (creating s),
              (if mountRef s then S (recording s) else recording s), effectRan s)
         | RecorderFailed =>
             (mountRef s, recorderRef s, recorders s, pred (creating s), recording s,
              effectRan s)
         | ChunkRecorded _ =>
             (mountRef s, recorderRef s, recorders s, creating s,
              (if mountRef s
               then match recorderRef s with
                    | Some _ => S (pred (recording s))
                    | None => pred (recording s)
                    end
               else pred (recording s)),
              effectRan s)
         | RecordFailed =>
             (mountRef s, recorderRef s, recorders s, creating s, pred (recording s),
              effectRan s)
         | _ => capture s
         end.
Proof.
  destruct e; try reflexivity.
  - change (tearsDown (SockMessage h d) s) with (tearsDown (SockMessage 0 d) s).
    cbn [after]. rewrite received_capture.
    change (tearsDown (SockMessage 0 d) (onSocket h answered s))
      with (tearsDown (SockMessage 0 d) s).
    destruct (tearsDown _ s); [|reflexivity]. apply stopped_capture_eq. reflexivity.
  - cbn [after tearsDown]. unfold errored. cbn [numReconnects onSocket set_sockets].
    destruct (maxReconnects <? numReconnects s); [|reflexivity].
    apply stopped_capture_eq. reflexivity.
  - cbn [after tearsDown]. unfold reconnected. destruct (mountRef _); reflexivity.
  - cbn [after tearsDown]. rewrite looped_capture. reflexivity.
  - cbn [after tearsDown]. rewrite looped_capture. destruct (serverReadyRef s).
    + destruct (sendRequest_keeps (arrived blob (pred (recording s)) s))
        as (_ & E1 & _ & E2 & E3 & E4 & E5 & E6 & _).
      rewrite E1, E2, E3, E4, E5, E6. reflexivity.
    + reflexivity.
  - cbn [after tearsDown]. destruct (encoding s !! i); [|reflexivity]. unfold sent.
    destruct (readyStateOf _ _); reflexivity.
Qed.

(** Before the mount effect has run, only it can run. *)
Lemma fresh_only_mount (e : Event) (s : State) :
  Wired s → Looping s → effectRan s = false → enabled e s → e = Mount.
Proof.
  intros HW HL Heff Hen.
  destruct (wired_fresh _ _ _ _ _ HW Heff) as (Hs & _ & _).
  destruct (looping_fresh s HL Heff) as (Hc & Hr & _).
  assert (Henc : encoding s = []).
  { destruct (encoding s) as [|x l] eqn:E; [reflexivity|].
    assert (Hx : x ∈ encoding s) by (rewrite E; left).
    pose proof (wired_encoding _ _ _ _ _ HW x Hx) as Hlt. rewrite Hs in Hlt.
    cbn in Hlt. lia. }
  destruct e; cbn [enabled] in Hen; try reflexivity; try congruence; try lia;
    destruct Hen as (w & Hw & _) || destruct Hen as (w & Hw);
    rewrite ?Hs, ?Henc in Hw; rewrite lookup_nil in Hw; discriminate.
Qed.

Ltac capture_fields E :=
  apply capture_inv in E;
  destruct E as (?Em & ?Er & ?Ers & ?Ec & ?Erc & ?Ee).

Lemma Looping_step (e : Event) (s s' : State) :
  Wired s ∧ Looping s → step P e s = Some s' → Wired s' ∧ Looping s'.
Proof.
  intros [HW HL] Hstep. split; [eapply Wired_step; eauto|].
  apply step_after in Hstep as [-> Hen].
  pose proof (after_capture e s) as E. rewrite (stopped_capture s) in E.
  destruct (effectRan s) eqn:Heff; cycle 1.
  { rewrite (fresh_only_mount e s HW HL Heff Hen). clear E.
    destruct (looping_fresh s HL Heff) as (Hc & Hr & Hrs & Hrr).
    split; cbn; rewrite ?Hc, ?Hr, ?Hrs, ?Hrr; try discriminate; try lia; auto. }
  destruct HL as [_ L2 L3 L4 L5].
  destruct (tearsDown e s) eqn:Et.
  { capture_fields E. split; rewrite ?Em, ?Er, ?Ers, ?Ec, ?Erc, ?Ee;
      try discriminate. }
  destruct e; cbn [tearsDown] in Et; try discriminate; cbn [enabled] in Hen;
    capture_fields E;
    (split; rewrite ?Em, ?Er, ?Ers, ?Ec, ?Erc, ?Ee, ?Heff; try discriminate;
     try congruence; auto).
  - intros Hm r b Hb. apply lookup_app_Some in Hb as [Hb|[_ Hb]]; [eauto|].
    destruct (r - length (recorders s)); [|discriminate]. injection Hb as <-.
    reflexivity.
  - intros r [= <-]. rewrite length_app. cbn. lia.
Qed.

Lemma Looping_init : Looping init.
Proof. split; cbn; auto; try discriminate; try lia. Qed.

Lemma Looping_run (t : list Event) (s : State) :
  run P t init = Some s → Wired s ∧ Looping s.
Proof.
  apply (run_invariant P (λ s, Wired s ∧ Looping s) Looping_step).
  split; [apply Wired_init|apply Looping_init].
Qed.

(** While the component stays mounted: what an event does to the loops. *)
Lemma loops_step (e : Event) (s s' : State) :
  Wired s → Looping s → step P e s = Some s' → mountRef s' = true →
  creating s' + length (recorders s') + (if isRecorderFailed e then 1 else 0)
    = creating s + length (recorders s) + (if isSockOpen e then 1 else 0) ∧
  recording s' + (if isRecordFailed e then 1 else 0) + length (recorders s)
    = recording s + length (recorders s') ∧
  length (recorders s') = length (recorders s) + (if isRecorderCreated e then 1 else 0).
Proof.
  intros HW HL Hstep Hm. apply step_after in Hstep as [-> Hen].
  pose proof (after_capture e s) as E. rewrite (stopped_capture s) in E.
  destruct (tearsDown e s).
  { apply capture_inv in E as (Em & _). congruence. }
  destruct e; cbn [enabled] in Hen;
    cbn [isRecorderFailed isSockOpen isRecordFailed isRecorderCreated];
    apply capture_inv in E as (Em & Er & Ers & Ec & Erc & Ee);
    rewrite Ers, Ec, Erc; rewrite ?length_app; cbn [length]; try lia.
  - rewrite Em in Hm. rewrite Hm. lia.
  - rewrite Em in Hm. rewrite Hm.
    destruct (recorderRef s) eqn:Hr; [lia|].
    exfalso. apply (looping_recorder s HL Hm Hen Hr).
Qed.

Lemma loops_run (t : list Event) (s s' : State) :
  Wired s → Looping s → run P t s = Some s' → mountRef s' = true →
  creating s' + length (recorders s') + occurrences isRecorderFailed t
    = creating s + length (recorders s) + occurrences isSockOpen t ∧
  recording s' + occurrences isRecordFailed t + length (recorders s)
    = recording s + length (recorders s') ∧
  length (recorders s') = length (recorders s) + occurrences isRecorderCreated t.
Proof.
  revert s. induction t as [|e t IH]; intros s HW HL Hrun Hm.
  - injection Hrun as <-. unfold occurrences. cbn. lia.
  - cbn in Hrun. destruct (step P e s) as [s1|] eqn:E; cbn in Hrun; [|discriminate].
    destruct (Looping_step e s s1 (conj HW HL) E) as [HW1 HL1].
    assert (Hm1 : mountRef s1 = true).
    { destruct (mountRef s1) eqn:Hm1; [reflexivity|].
      destruct (Quiet_run P t s1 s' HW1 Hm1 Hrun) as (Hq & _). congruence. }
    destruct (IH s1 HW1 HL1 Hrun Hm) as (I1 & I2 & I3).
    destruct (loops_step e s s1 HW HL E Hm1) as (S1 & S2 & S3).
    rewrite !occurrences_cons. lia.
Qed.

(** A recorder that is not the current one stays as it is. *)
Lemma replaced_step (r : nat) (b : bool) (e : Event) (s s' : State) :
  recorders s !! r = Some b ∧ recorderRef s ≠ Some r →
  step P e s = Some s' →
  recorders s' !! r = Some b ∧ recorderRef s' ≠ Some r.
Proof.
  intros [Hb Hne] Hstep. apply step_after in Hstep as [-> Hen].
  pose proof (after_capture e s) as E. rewrite (stopped_capture s) in E.
  destruct (tearsDown e s).
  { apply capture_inv in E as (_ & Er & Ers & _). rewrite Er, Ers.
    split; [|discriminate].
    destruct (recorderRef s) as [r'|]; [|exact Hb].
    rewrite list_lookup_insert_ne by congruence. exact Hb. }
  destruct e; apply capture_inv in E as (_ & Er & Ers & _); rewrite Er, Ers; auto.
  split.
  - apply lookup_app_l_Some, Hb.
  - apply lookup_lt_Some in Hb. intros [= Heq]. lia.
Qed.

(** Once the component is not mounted, an event that resumes a loop ends it. *)
Lemma unmounted_step (e : Event) (s s' : State) :
  Wired s ∧ mountRef s = false → step P e s = Some s' →
  creating s' + (if isRecorderCreated e || isRecorderFailed e then 1 else 0)
    = creating s ∧
  recording s' + (if isChunkRecorded e || isRecordFailed e then 1 else 0)
    = recording s ∧
  isSockOpen e = false.
Proof.
  intros [HW Hm] Hstep. apply step_after in Hstep as [-> Hen].
  pose proof (after_capture e s) as E. rewrite (stopped_capture s) in E.
  destruct (tearsDown e s) eqn:Et.
  { apply capture_inv in E as (_ & _ & _ & Ec & Erc & _). rewrite Ec, Erc.
    destruct e; try discriminate; cbn; lia. }
  destruct e; cbn [enabled] in Hen;
    apply capture_inv in E as (_ & _ & _ & Ec & Erc & _); rewrite Ec, Erc, ?Hm;
    cbn; try lia.
  destruct Hen as (w & Hw & Hr).
  destruct (wired_stale _ _ _ _ _ HW h w Hw) as (Hc & _); [|contradiction].
  rewrite (wired_unmounted _ _ _ _ _ HW Hm). discriminate.
Qed.

Lemma unmounted_run (t : list Event) (s s' : State) :
  Wired s → mountRef s = false → run P t s = Some s' →
  creating s' + occurrences isRecorderCreated t + occurrences isRecorderFailed t
    = creating s ∧
  recording s' + occurrences isChunkRecorded t + occurrences isRecordFailed t
    = recording s ∧
  occurrences isSockOpen t = 0.
Proof.
  revert s. induction t as [|e t IH]; intros s HW Hm Hrun.
  - injection Hrun as <-. unfold occurrences. cbn. lia.
  - cbn in Hrun. destruct (step P e s) as [s1|] eqn:E; cbn in Hrun; [|discriminate].
    pose proof (Wired_step P e s s1 HW E) as HW1.
    destruct (Quiet_run P [e] s s1 HW Hm) as (Hm1 & _); [cbn; rewrite E; reflexivity|].
    destruct (IH s1 HW1 Hm1 Hrun) as (I1 & I2 & I3).
    destruct (unmounted_step e s s1 (conj HW Hm) E) as (S1 & S2 & S3).
    rewrite !occurrences_cons, S3.
    destruct e; cbn in S1, S2 |- *; lia.
Qed.

End Capture.

(** X4. Every [open] event starts a capture loop of its own, and none ends
    while the component is mounted.  In every state the component can reach
    with [mountRef] still raised: every open has led to a call of
    [AudioRecorder.create] that is pending, has failed, or has made a recorder;
    every recorder made has a loop suspended on [record], unless a [record]
    call failed; no recorder has been stopped; and the current recorder, on
    which all the loops call [record], is the one made last.  After a
    reconnection the loop of the earlier connection and that of the new one
    run side by side. *)
Theorem every_open_starts_a_capture_loop (P : Inputs) (t : list Event) (s : State) :
  run P t init = Some s → mountRef s = true →
  creating s + length (recorders s) + occurrences isRecorderFailed t
    = occurrences isSockOpen t ∧
  recording s + occurrences isRecordFailed t = length (recorders s) ∧
  length (recorders s) = occurrences isRecorderCreated t ∧
  (∀ r b, recorders s !! r = Some b → b = false) ∧
  (∀ r, recorderRef s = Some r → S r = length (recorders s)) ∧
  (recorderRef s = None → recorders s = []).
Proof.
  intros Hrun Hm.
  destruct (loops_run P t init s Wired_init Looping_init Hrun Hm) as (H1 & H2 & H3).
  cbn in H1, H2, H3.
  destruct (Looping_run P t s Hrun) as [HW [L1 L2 L3 L4 L5]].
  split; [lia|]. split; [lia|]. split; [lia|].
  split; [exact (L3 Hm)|]. split; [exact L4|exact (L5 Hm)].
Qed.

Lemma every_open_starts_a_capture_loop_witness :
  ∃ s,
    run ProsodyWidgets
      [Mount; SockOpen 0; RecorderCreated; SockClosing 0; SockClose 0; SockOpen 1;
       RecorderCreated; ChunkRecorded chunkA] init = Some s ∧
    mountRef s = true ∧ recording s = 2 ∧ recorderRef s = Some 1 ∧
    recorders s = [false; false].
Proof.
  eexists. split; [vm_compute; reflexivity|]. split; [vm_compute; reflexivity|].
  match goal with
  | |- recording ?a = _ ∧ _ =>
      pose proof (every_open_starts_a_capture_loop ProsodyWidgets
        [Mount; SockOpen 0; RecorderCreated; SockClosing 0; SockClose 0; SockOpen 1;
         RecorderCreated; ChunkRecorded chunkA] a) as H
  end.
  destruct H as (_ & H & _); [vm_compute; reflexivity..|].
  split; [|split; vm_compute; reflexivity].
  vm_compute in H. vm_compute. reflexivity.
Defined.

(** X5. A recorder that has been replaced is never stopped.  [stopEverything]
    stops the recorder of [recorderRef] only, and [socketOnOpen] overwrites
    [recorderRef] with the recorder it makes without stopping the one that was
    there: in a state reached with the component mounted, every recorder but
    the one made last is running, and it is still running, and is not the
    current one, in every state reached from there, teardown included. *)
Theorem replaced_recorder_is_never_stopped (P : Inputs) (t1 t2 : list Event)
    (s1 s2 : State) (r : nat) :
  run P t1 init = Some s1 → mountRef s1 = true → S r < length (recorders s1) →
  run P t2 s1 = Some s2 →
  recorders s1 !! r = Some false ∧ recorders s2 !! r = Some false ∧
  recorderRef s2 ≠ Some r.
Proof.
  intros H1 Hm Hr H2.
  destruct (Looping_run P t1 s1 H1) as [HW [L1 L2 L3 L4 L5]].
  assert (Hb : recorders s1 !! r = Some false).
  { destruct (lookup_lt_is_Some_2 (recorders s1) r) as [b Hb]; [lia|].
    rewrite Hb. f_equal. eapply L3; eauto. }
  assert (Hne : recorderRef s1 ≠ Some r).
  { intros Hc. specialize (L4 r Hc). lia. }
  split; [exact Hb|].
  apply (run_invariant P (λ s, recorders s !! r = Some false ∧ recorderRef s ≠ Some r)
           (replaced_step P r false) t2 s1 s2); auto.
Qed.

Lemma replaced_recorder_is_never_stopped_witness :
  ∃ s1 s2,
    run ProsodyWidgets
      [Mount; SockOpen 0; RecorderCreated; SockClosing 0; SockClose 0; SockOpen 1;
       RecorderCreated] init = Some s1 ∧
    mountRef s1 = true ∧ length (recorders s1) = 2 ∧
    run ProsodyWidgets [Unmount] s1 = Some s2 ∧
    recorders s2 = [false; true].
Proof.
  eexists _, _.
  split; [vm_compute; reflexivity|]. split; [vm_compute; reflexivity|].
  split; [vm_compute; reflexivity|]. split; [vm_compute; reflexivity|].
  match goal with
  | |- recorders ?b = _ =>
      pose proof (replaced_recorder_is_never_stopped ProsodyWidgets
        [Mount; SockOpen 0; RecorderCreated; SockClosing 0; SockClose 0; SockOpen 1;
         RecorderCreated] [Unmount]
        (default init (run ProsodyWidgets
           [Mount; SockOpen 0; RecorderCreated; SockClosing 0; SockClose 0; SockOpen 1;
            RecorderCreated] init)) b 0) as H
  end.
  destruct H as (_ & H & _); [vm_compute; reflexivity| vm_compute; reflexivity
                            | vm_compute; lia | vm_compute; reflexivity |].
  vm_compute in H. vm_compute. reflexivity.
Defined.

(** X6. After teardown the capture loops end and no recording is started.
    From a state the component can reach in which [mountRef] is lowered, every
    completion of [create] or of [record] ends the loop that awaited it: the
    loops suspended on [create] and those suspended on [record] decrease by
    the completions that occurred, so no [record] call is made any more; and
    no socket opens, so no loop is started. *)
Theorem capture_loops_end_after_stop (P : Inputs) (t1 t2 : list Event)
    (s1 s2 : State) :
  run P t1 init = Some s1 → mountRef s1 = false → run P t2 s1 = Some s2 →
  creating s2 + occurrences isRecorderCreated t2 + occurrences isRecorderFailed t2
    = creating s1 ∧
  recording s2 + occurrences isChunkRecorded t2 + occurrences isRecordFailed t2
    = recording s1 ∧
  occurrences isSockOpen t2 = 0.
Proof.
  intros H1 Hm H2. pose proof (Wired_run P t1 s1 H1) as HW.
  apply (unmounted_run P t2 s1 s2 HW Hm H2).
Qed.

Lemma capture_loops_end_after_stop_witness :
  ∃ s1 s2,
    run ProsodyWidgets
      [Mount; SockOpen 0; RecorderCreated; ChunkRecorded chunkA; Unmount] init = Some s1 ∧
    mountRef s1 = false ∧ recording s1 = 1 ∧
    run ProsodyWidgets [ChunkRecorded chunkB] s1 = Some s2 ∧
    recording s2 = 0.
Proof.
  eexists _, _.
  split; [vm_compute; reflexivity|]. split; [vm_compute; reflexivity|].
  split; [vm_compute; reflexivity|]. split; [vm_compute; reflexivity|].
  match goal with
  | |- recording ?b = _ =>
      pose proof (capture_loops_end_after_stop ProsodyWidgets
        [Mount; SockOpen 0; RecorderCreated; ChunkRecorded chunkA; Unmount]
        [ChunkRecorded chunkB]
        (default init (run ProsodyWidgets
           [Mount; SockOpen 0; RecorderCreated; ChunkRecorded chunkA; Unmount] init))
        b) as H
  end.
  destruct H as (_ & H & _); [vm_compute; reflexivity..|].
  vm_compute in H. vm_compute. lia.
Defined.

(** ** The exceptions that leave the handlers *)

Lemma OpenedV_alter socks enc h f :
  OpenedV socks enc →
  (∀ w, readyState (f w) = CONNECTING → readyState w = CONNECTING) →
  OpenedV (alter f h socks) enc.
Proof.
  intros H Hf e w He Hw.
  apply lookup_alter_Some in Hw as [(Hh & x & Hx & ->)|[_ Hw]]; [|eauto].
  subst h. intros Hc. apply (H e x He Hx). auto.
Qed.

Lemma OpenedV_new socks enc :
  OpenedV socks enc → (∀ e, e ∈ enc → socket e < length socks) →
  OpenedV (socks ++ [newWebSocket]) enc.
Proof.
  intros H Hlt e w He Hw. rewrite lookup_app_l in Hw by auto. eauto.
Qed.

Section Exceptions.

Context (P : Inputs).

Lemma Opened_onSocket (s : State) (h : nat) (f : WebSocket → WebSocket) :
  Opened s → Wired (onSocket h f s) →
  (∀ w, readyState (f w) = CONNECTING → readyState w = CONNECTING) →
  Opened (onSocket h f s).
Proof.
  intros [HW HO] HW' Hf. split; [exact HW'|]. apply OpenedV_alter; assumption.
Qed.

Lemma Opened_sendRequest (s : State) : Opened s → Opened (sendRequest s).2.
Proof.
  intros [HW HO]. split; [apply Wired_sendRequest, HW|].
  rewrite sendRequest_eq. cbn [snd].
  destruct (socketRef s) as [h|]; [|exact HO].
  destruct (isOPEN (readyStateOf s h)) eqn:Er.
  - unfold taken; cbn. intros e w He Hw.
    apply elem_of_app in He as [He|He]; [eauto|].
    apply list_elem_of_singleton in He. subst e. cbn in Hw.
    unfold readyStateOf in Er. rewrite Hw in Er.
    destruct (readyState w); discriminate.
  - apply OpenedV_alter; [exact HO|apply closing_not_connecting].
Qed.

Lemma Opened_stopped (s : State) : Opened s → effectRan s = true → Opened (stopped s).
Proof.
  intros [HW HO] Heff. split; [apply Wired_stopped; assumption|].
  pose proof (stopped_view s) as E. unfold view in E.
  injection E as _ _ _ _ E5 E6 _ _ _ _ _. rewrite E5, E6.
  destruct (socketRef s); [|exact HO].
  apply OpenedV_alter; [exact HO|apply closing_not_connecting].
Qed.

Lemma Opened_step (e : Event) (s s' : State) :
  Opened s → step P e s = Some s' → Opened s'.
Proof.
  intros H Hstep.
  refine (step_preserves P Opened Opened (λ _ _, True)
    _ _ _ _ Opened_stopped _ _ (λ s H, H) (λ s H _, Opened_sendRequest s H)
    (λ s H _, H) _ _ (λ s H _, H) _ _ (λ s b H, H) (λ s H _, Opened_sendRequest s H)
    _ _ e s s' H (λ _ _ _, Logic.I) Hstep); clear e s s' H Hstep.
  - intros s s' Hv [HW HO]. split; [eapply Wired_view; eauto|].
    view_subst Hv. rewrite Hsocks, Henc. exact HO.
  - intros s s' Hv [HW HO]. split; [eapply Wired_view; eauto|].
    view_subst Hv. rewrite Hsocks, Henc. exact HO.
  - intros s [HW HO] Heff. split; [apply Wired_mount; assumption|].
    unfold connected; cbn. apply OpenedV_new; [exact HO|].
    apply (wired_encoding _ _ _ _ _ HW).
  - intros s [HW HO] Heff. apply (wired_fresh _ _ _ _ _ HW Heff).
  - intros s h w H Hw Hr. apply Opened_onSocket; [exact H| |discriminate].
    eapply Wired_open; eauto. apply H.
  - intros s h w H Hw Hr _. apply Opened_onSocket; [exact H| |auto].
    apply Wired_answered, H.
  - intros s h w H Hw Hr. apply Opened_onSocket; [exact H| |discriminate].
    eapply Wired_closing; eauto. apply H.
  - intros s h w H Hw Hr. apply Opened_onSocket; [exact H| |discriminate].
    apply Wired_error, H.
  - intros s h w H Hw Hr. apply Opened_onSocket; [exact H| |discriminate].
    apply Wired_close, H.
  - intros s h w [HW HO] Hw Hf Hm. split; [eapply Wired_reconnect; eauto|].
    unfold connected, onSocket; cbn. apply OpenedV_new.
    + apply OpenedV_alter; [exact HO|discriminate].
    + rewrite length_alter. apply (wired_encoding _ _ _ _ _ HW).
  - intros s i e [HW HO] He. split; [apply Wired_resumed, HW|].
    unfold resumed; cbn. intros x w Hx Hw. apply (HO x w); [|exact Hw].
    eapply list_elem_of_delete_inv, Hx.
  - intros s i e [HW HO] He Hr. split; [apply Wired_transmitted, HW|].
    unfold transmitted, resumed, onSocket; cbn.
    apply OpenedV_alter; [|auto].
    intros x w Hx Hw. apply (HO x w); [|exact Hw].
    eapply list_elem_of_delete_inv, Hx.
Qed.

Lemma Opened_run (t : list Event) (s : State) : run P t init = Some s → Opened s.
Proof.
  apply (run_invariant P Opened Opened_step). split; [apply Wired_init|].
  intros e w He. apply elem_of_nil in He. contradiction.
Qed.

Lemma delivered_rejections (v : json) (s : State) :
  rejections (delivered P v s) = rejections s.
Proof.
  pose proof (shown_core P v s) as E. unfold core in E.
  injection E as _ _ _ _ _ _ _ _ _ _ _ _ _ _ _ E.
  unfold delivered. destruct (0 <? _); [|exact E].
  destruct (sendRequest_keeps (shown P v s))
    as (_ & _ & _ & _ & _ & _ & _ & _ & _ & _ & _ & -> & _). exact E.
Qed.

Lemma received_rejections (d : MessageData) (s : State) :
  rejections (received P d s) = rejections s ++ thrown (SockMessage 0 d).
Proof.
  destruct (received_cases P d s)
    as [(_ & _ & _ & ->)|[(r & x & _ & _ & -> & _ & _ & ->)|(r & _ & _ & -> & _ & _ & ->)]].
  - reflexivity.
  - match goal with |- context [stopped ?y] =>
      destruct (stopped_display y) as (_ & _ & _ & _ & ->) end.
    cbn. rewrite app_nil_r. reflexivity.
  - rewrite delivered_rejections, app_nil_r. reflexivity.
Qed.

(** In a state the component can reach, a handler ends with an exception only
    as [thrown] says: [socket.send] finds a socket that has been open, and the
    capture loop a recorder. *)
Lemma after_rejections (e : Event) (s : State) :
  Looping s → Opened s → enabled e s →
  rejections (after P e s) = rejections s ++ thrown e.
Proof.
  intros HL [HW HO] Hen.
  destruct e; cbn [after thrown]; rewrite ?app_nil_r; try reflexivity.
  - destruct (stopped_display s) as (_ & _ & _ & _ & ->). reflexivity.
  - rewrite received_rejections. reflexivity.
  - unfold errored. destruct (maxReconnects <? _); [|reflexivity].
    match goal with |- context [stopped ?x] =>
      destruct (stopped_display x) as (_ & _ & _ & _ & ->) end. reflexivity.
  - unfold reconnected. destruct (mountRef _); reflexivity.
  - unfold looped. cbn. destruct (mountRef s); reflexivity.
  - assert (Hx : ∀ x, capture x = (mountRef s, recorderRef s, recorders s, creating s,
                                   pred (recording s), effectRan s) →
                      rejections x = rejections s →
                      rejections (looped x) = rejections s).
    { intros x Ex Erj. apply capture_inv in Ex as (Em & Er & _).
      unfold looped. rewrite Em, Er. destruct (mountRef s) eqn:Hm; [|exact Erj].
      cbn [enabled] in Hen.
      destruct (recorderRef s) eqn:Hr; [exact Erj|].
      exfalso. apply (looping_recorder s HL Hm Hen Hr). }
    destruct (serverReadyRef s).
    + apply Hx.
      * rewrite sendRequest_capture. reflexivity.
      * destruct (sendRequest_keeps (arrived blob (pred (recording s)) s))
          as (_ & _ & _ & _ & _ & _ & _ & _ & _ & _ & _ & -> & _). reflexivity.
    + apply Hx; reflexivity.
  - destruct Hen as (x & Hx). rewrite Hx. unfold sent, readyStateOf.
    cbn [sockets resumed set_encoding].
    destruct (sockets s !! socket x) as [w|] eqn:Ew; [|reflexivity].
    assert (Hw : readyState w ≠ CONNECTING).
    { apply (HO x w); [eapply list_elem_of_lookup_2, Hx|exact Ew]. }
    destruct (readyState w); try reflexivity. contradiction.
Qed.

Lemma step_rejections (t : list Event) (e : Event) (s s' : State) :
  run P t init = Some s → step P e s = Some s' →
  rejections s' = rejections s ++ thrown e.
Proof.
  intros Hrun Hstep. destruct (Looping_run P t s Hrun) as [_ HL].
  pose proof (Opened_run t s Hrun) as HO.
  apply step_after in Hstep as [-> Hen]. apply after_rejections; assumption.
Qed.

Lemma rejections_run (t : list Event) (s : State) :
  run P t init = Some s → rejections s = concat (thrown <$> t).
Proof.
  revert s. induction t as [|e t IH] using rev_ind; intros s Hrun.
  - injection Hrun as <-. reflexivity.
  - rewrite run_app in Hrun.
    destruct (run P t init) as [s0|] eqn:E0; cbn in Hrun; [|discriminate].
    destruct (step P e s0) as [s1|] eqn:E1; cbn in Hrun; [|discriminate].
    injection Hrun as <-.
    rewrite (step_rejections t e s0 s1 E0 E1), (IH s0 eq_refl).
    rewrite fmap_app, concat_app. cbn. rewrite app_nil_r. reflexivity.
Qed.

End Exceptions.

(** X7. A handler throws only on a malformed message or a rejected promise
    of a library.  After any sequence of events, the exceptions that have
    left the handlers are, in order: a [SyntaxError] for each message that is
    not JSON, a [TypeError] for each message that is the JSON [null], and the
    rejection of each failed [create], [record] or [blobToBase64] call.  In
    particular [socket.send] never throws, the socket held by a suspended
    [sendRequest] having been open; and the capture loop never calls [record]
    on a [recorderRef] that is null. *)
Theorem handlers_throw_only_on_bad_input (P : Inputs) (t : list Event) (s : State) :
  run P t init = Some s →
  rejections s = concat (thrown <$> t) ∧
  (InvalidStateError ∉ rejections s) ∧
  (∀ blob s', step P (ChunkRecorded blob) s = Some s' → rejections s' = rejections s) ∧
  (∀ i s', step P (Encoded i) s = Some s' → rejections s' = rejections s).
Proof.
  intros Hrun. pose proof (rejections_run P t s Hrun) as E.
  assert (Hnext : ∀ e s', step P e s = Some s' → thrown e = [] →
            rejections s' = rejections s).
  { intros e s' Hstep He.
    rewrite (step_rejections P t e s s' Hrun Hstep), He. apply app_nil_r. }
  split; [exact E|]. split; [|split; intros; eapply Hnext; eauto].
  rewrite E. intros Hin. apply list_elem_of_In, in_concat in Hin as (l & Hl & Hx).
  apply list_elem_of_In in Hl, Hx.
  apply list_elem_of_fmap in Hl as (e & -> & _).
  destruct e as [| | |h d| | | | | | | | |]; cbn in Hx;
    try (apply elem_of_nil in Hx; contradiction);
    try (apply list_elem_of_singleton in Hx; discriminate).
  destruct d as [|[]]; cbn in Hx;
    try (apply elem_of_nil in Hx; contradiction);
    apply list_elem_of_singleton in Hx; discriminate.
Qed.

Lemma handlers_throw_only_on_bad_input_witness :
  ∃ s,
    run ProsodyWidgets
      (session ++ [SockMessage 0 NotJSON; RecordFailed]) init = Some s ∧
    rejections s = [SyntaxError; Rejected].
Proof.
  eexists. split; [vm_compute; reflexivity|].
  match goal with
  | |- rejections ?a = _ =>
      pose proof (handlers_throw_only_on_bad_input ProsodyWidgets
        (session ++ [SockMessage 0 NotJSON; RecordFailed]) a) as H
  end.
  destruct H as (H & _); [vm_compute; reflexivity|].
  rewrite H. vm_compute. reflexivity.
Defined.



(** ** What is shown *)

Section Display.

Context (P : Inputs).

Lemma delivered_display (v : json) (s : State) :
  rendered (delivered P v s) = rendered s ++ [v] ∧
  timeline (delivered P v s) = timeline s ++ (if onTimeline P then [v] else []) ∧
  statuses (delivered P v s) = statuses s ++ (if lengthEq0 P v then [noSpeech P] else []).
Proof.
  destruct (shown_display P v s) as (E1 & E2 & E3). unfold delivered.
  destruct (0 <? _); [|auto].
  destruct (sendRequest_keeps (shown P v s))
    as (_ & _ & _ & _ & _ & _ & _ & _ & -> & -> & -> & _). auto.
Qed.

Lemma received_display (d : MessageData) (s : State) :
  rendered (received P d s) = rendered s ++ shownBy P (SockMessage 0 d) ∧
  timeline (received P d s) =
    timeline s ++ (if onTimeline P then shownBy P (SockMessage 0 d) else []).
Proof.
  destruct (received_cases P d s)
    as [(_ & -> & _ & ->)|[(r & x & _ & _ & _ & -> & _ & ->)|(r & _ & _ & _ & -> & _ & ->)]].
  - cbn. destruct (onTimeline P); rewrite !app_nil_r; auto.
  - match goal with |- context [stopped ?y] =>
      destruct (stopped_display y) as (_ & -> & -> & _) end.
    cbn. destruct (onTimeline P); rewrite !app_nil_r; auto.
  - destruct (delivered_display (newPredictionsOf P r) (cleared s)) as (-> & -> & _).
    auto.
Qed.

(** Only an accepted message changes what is shown of the predictions, and
    what it shows it forwards to [onTimeline], when there is one. *)
Lemma after_display (e : Event) (s : State) :
  rendered (after P e s) = rendered s ++ shownBy P e ∧
  timeline (after P e s) = timeline s ++ (if onTimeline P then shownBy P e else []).
Proof.
  assert (Hnil : ∀ l : list json, l = l ++ (if onTimeline P then [] else []))
    by (intros l; destruct (onTimeline P); rewrite app_nil_r; reflexivity).
  destruct e; cbn [after]; try (cbn; rewrite app_nil_r; split; [reflexivity|apply Hnil]).
  - destruct (stopped_display s) as (_ & -> & -> & _). cbn. rewrite app_nil_r.
    split; [reflexivity|apply Hnil].
  - destruct (received_display d (onSocket h answered s)) as (-> & ->).
    split; reflexivity.
  - unfold errored. destruct (maxReconnects <? _);
      [|cbn; rewrite app_nil_r; split; [reflexivity|apply Hnil]].
    match goal with |- context [stopped ?y] =>
      destruct (stopped_display y) as (_ & -> & -> & _) end.
    cbn. rewrite app_nil_r. split; [reflexivity|apply Hnil].
  - unfold reconnected. destruct (mountRef _);
      cbn; rewrite app_nil_r; (split; [reflexivity|apply Hnil]).
  - match goal with |- context [looped ?y] =>
      destruct (looped_keeps y) as (-> & -> & _) end.
    cbn. rewrite app_nil_r. split; [reflexivity|apply Hnil].
  - match goal with |- context [looped ?y] =>
      destruct (looped_keeps y) as (-> & -> & _) end.
    destruct (serverReadyRef s).
    + destruct (sendRequest_keeps (arrived blob (pred (recording s)) s))
        as (_ & _ & _ & _ & _ & _ & _ & _ & _ & -> & -> & _).
      cbn. rewrite app_nil_r. split; [reflexivity|apply Hnil].
    + cbn. rewrite app_nil_r. split; [reflexivity|apply Hnil].
  - destruct (encoding s !! i);
      [|cbn; rewrite app_nil_r; split; [reflexivity|apply Hnil]].
    unfold sent. destruct (readyStateOf _ _);
      cbn; rewrite app_nil_r; (split; [reflexivity|apply Hnil]).
Qed.

Lemma display_run (t : list Event) (s s' : State) :
  run P t s = Some s' →
  rendered s' = rendered s ++ concat (shownBy P <$> t) ∧
  timeline s' = timeline s ++ (if onTimeline P then concat (shownBy P <$> t) else []).
Proof.
  revert s. induction t as [|e t IH]; intros s Hrun.
  - injection Hrun as <-. cbn. rewrite app_nil_r. split; [reflexivity|].
    destruct (onTimeline P); rewrite app_nil_r; reflexivity.
  - cbn in Hrun. destruct (step P e s) as [s1|] eqn:E; cbn in Hrun; [|discriminate].
    destruct (IH s1 Hrun) as (-> & ->). apply step_after in E as [-> _].
    destruct (after_display e s) as (-> & ->). cbn [fmap list_fmap concat].
    rewrite <- !app_assoc. split; [reflexivity|].
    destruct (onTimeline P); rewrite ?app_nil_r; reflexivity.
Qed.

End Display.

(** X9. The predictions shown are those of the accepted messages.  After any
    sequence of events, the lists passed to [setPredictions] are, in order,
    the [predictions] (or the empty list that stands in for them) of the
    messages that parsed to a value other than [null] with no truthy [error];
    a message that is malformed or fatal, and every other event, leaves the
    predictions on display as they are.  [onTimeline], when the props supply
    it, has been given exactly those lists in that order, and nothing when
    they do not. *)
Theorem predictions_shown_are_those_accepted (P : Inputs) (t : list Event) (s : State) :
  run P t init = Some s →
  rendered s = concat (shownBy P <$> t) ∧
  timeline s = (if onTimeline P then rendered s else []) ∧
  (∀ e s', step P e s = Some s' →
     shownBy P e = [] → predictions s' = predictions s) ∧
  (∀ h response s', step P (SockMessage h (Parsed response)) s = Some s' →
     accepted response = true → predictions s' = newPredictionsOf P response).
Proof.
  intros Hrun. destruct (display_run P t init s Hrun) as (E1 & E2). cbn in E1, E2.
  split; [exact E1|]. split; [rewrite E2, E1; reflexivity|].
  split.
  - intros e s' Hstep He. apply step_after in Hstep as [-> _].
    destruct (after_display P e s) as (E & _). unfold predictions.
    rewrite E, He, app_nil_r. reflexivity.
  - intros h response s' Hstep Ha. apply step_after in Hstep as [-> _].
    destruct (after_display P (SockMessage h (Parsed response)) s) as (E & _).
    unfold predictions. rewrite E. cbn [shownBy]. rewrite Ha. apply last_last.
Qed.

Lemma predictions_shown_are_those_accepted_witness :
  ∃ s,
    run ProsodyWidgets
      (session ++ [SockMessage 0 NotJSON; SockMessage 0 noPredictions]) init = Some s ∧
    rendered s = [JArr []] ∧ timeline s = [].
Proof.
  eexists. split; [vm_compute; reflexivity|].
  match goal with
  | |- rendered ?a = _ ∧ _ =>
      pose proof (predictions_shown_are_those_accepted ProsodyWidgets
        (session ++ [SockMessage 0 NotJSON; SockMessage 0 noPredictions]) a) as H
  end.
  destruct H as (H1 & H2 & _); [vm_compute; reflexivity|].
  rewrite H2, H1. vm_compute. auto.
Defined.

(** X10. A response without predictions shows an empty list and the status
    that nothing was detected.  For an accepted response, the status is
    cleared and then set again only if the list shown is empty.  When the
    response has no entry for the model, or the entry has no [predictions], or
    they are falsy, the list shown is the empty one and the status is [No
    speech detected], or [No vocal bursts detected] for the model [burst];
    when the predictions are a non-empty array they are shown and the status
    stays empty. *)
Theorem response_without_predictions_shows_no_speech (P : Inputs) (h : nat)
    (response : json) (s s' : State) :
  step P (SockMessage h (Parsed response)) s = Some s' → accepted response = true →
  statuses s' =
    statuses s ++ [JStr EmptyString] ++
    (if lengthEq0 P (newPredictionsOf P response) then [noSpeech P] else []) ∧
  predictions s' = newPredictionsOf P response ∧
  ((optChain (prop response (modelName P)) "predictions" = None ∨
    ∃ v, optChain (prop response (modelName P)) "predictions" = Some v ∧
         truthy v = false) →
   predictions s' = JArr [] ∧ status s' = noSpeech P) ∧
  (∀ x items,
     optChain (prop response (modelName P)) "predictions" = Some (JArr (x :: items)) →
     predictions s' = JArr (x :: items) ∧ status s' = JStr EmptyString) ∧
  noSpeech P =
    JStr (if String.eqb (modelName P) "burst"
          then "No vocal bursts detected" else "No speech detected").
Proof.
  intros Hstep Ha. apply step_after in Hstep as [-> _]. cbn [after].
  rewrite (received_accepted P response _ Ha).
  destruct (delivered_display P (newPredictionsOf P response)
              (cleared (onSocket h answered s))) as (E1 & _ & E3).
  cbn [statuses cleared set_statuses onSocket set_sockets] in E3.
  rewrite <- app_assoc in E3.
  assert (Hp : predictions (delivered P (newPredictionsOf P response)
                              (cleared (onSocket h answered s)))
               = newPredictionsOf P response).
  { unfold predictions. rewrite E1. apply last_last. }
  split; [exact E3|]. split; [exact Hp|].
  split; [|split].
  - intros Hnone.
    assert (Hv : newPredictionsOf P response = JArr []).
    { unfold newPredictionsOf. destruct Hnone as [->|(v & -> & ->)]; reflexivity. }
    split; [rewrite Hp; exact Hv|].
    unfold status. rewrite E3, Hv. change (lengthEq0 P (JArr [])) with true.
    cbv iota. rewrite !app_assoc. apply last_last.
  - intros x items Hsome.
    assert (Hv : newPredictionsOf P response = JArr (x :: items)).
    { unfold newPredictionsOf. rewrite Hsome. reflexivity. }
    split; [rewrite Hp; exact Hv|].
    unfold status. rewrite E3, Hv. change (lengthEq0 P (JArr (x :: items))) with false.
    cbv iota. rewrite app_nil_r. apply last_last.
  - unfold noSpeech. destruct (String.eqb _ _); reflexivity.
Qed.

Lemma response_without_predictions_shows_no_speech_witness :
  ∃ s s',
    run ProsodyWidgets session init = Some s ∧
    step ProsodyWidgets (SockMessage 0 (Parsed (JObj []))) s = Some s' ∧
    accepted (JObj []) = true ∧
    predictions s' = JArr [] ∧ status s' = JStr "No speech detected".
Proof.
  eexists _, _.
  split; [vm_compute; reflexivity|]. split; [vm_compute; reflexivity|].
  split; [vm_compute; reflexivity|].
  match goal with
  | |- predictions ?b = _ ∧ _ =>
      pose proof (response_without_predictions_shows_no_speech ProsodyWidgets 0
                    (JObj []) sessionWaiting b) as H
  end.
  destruct H as (_ & _ & H & _); [vm_compute; reflexivity..|].
  apply H. left. vm_compute. reflexivity.
Defined.

(** ** What goes out *)

Section Outbound.

Context (P : Inputs).

Lemma sendRequest_drained (s : State) :
  drained (sendRequest s).2 = drained s ∨
  drained (sendRequest s).2 = drained s ++ [audioBufferRef s].
Proof.
  destruct (sendRequest_flow s) as [(E & _)|(E & _)]; auto.
Qed.

Lemma delivered_drained (v : json) (s : State) :
  drained (delivered P v s) = drained s ∨
  audioBufferRef s ≠ [] ∧ drained (delivered P v s) = drained s ++ [audioBufferRef s].
Proof.
  pose proof (shown_core P v s) as E. unfold core in E.
  injection E as _ _ Eb _ _ _ _ _ _ _ _ _ _ Ed _ _.
  unfold delivered. destruct (0 <? length (audioBufferRef s)) eqn:Hlen.
  - destruct (sendRequest_drained (shown P v s)) as [->| ->]; [left; exact Ed|].
    right. rewrite Ed, Eb. split; [|reflexivity].
    apply Nat.ltb_lt in Hlen. destruct (audioBufferRef s); [cbn in Hlen; lia|].
    discriminate.
  - left. exact Ed.
Qed.

(** An event takes no batch, or one batch that holds a chunk. *)
Lemma after_drained (e : Event) (s : State) :
  drained (after P e s) = drained s ∨
  ∃ parts, parts ≠ [] ∧ drained (after P e s) = drained s ++ [parts].
Proof.
  destruct e; cbn [after]; try (left; reflexivity).
  - left. apply stopped_sends.
  - destruct (received_cases P d (onSocket h answered s))
      as [(_ & _ & _ & ->)|[(r & x & _ & _ & _ & _ & _ & ->)|(r & _ & _ & _ & _ & _ & ->)]].
    + left. reflexivity.
    + left. etransitivity; [apply stopped_sends|reflexivity].
    + destruct (delivered_drained (newPredictionsOf P r) (cleared (onSocket h answered s)))
        as [->|(Hne & ->)]; [left; reflexivity|].
      right. eexists. split; [exact Hne|reflexivity].
  - unfold errored. destruct (maxReconnects <? _); [|left; reflexivity].
    left. etransitivity; [apply stopped_sends|reflexivity].
  - unfold reconnected. destruct (mountRef _); left; reflexivity.
  - match goal with |- context [looped ?y] =>
      destruct (looped_keeps y) as (_ & _ & _ & _ & -> & _) end.
    left. reflexivity.
  - match goal with |- context [looped ?y] =>
      destruct (looped_keeps y) as (_ & _ & _ & _ & -> & _) end.
    destruct (serverReadyRef s); [|left; reflexivity].
    destruct (sendRequest_drained (arrived blob (pred (recording s)) s)) as [->| ->];
      [left; reflexivity|].
    right. exists (audioBufferRef s ++ [blob]). split; [|reflexivity].
    destruct (audioBufferRef s); discriminate.
  - destruct (encoding s !! i); [|left; reflexivity]. unfold sent.
    destruct (readyStateOf _ _); left; reflexivity.
Qed.

Lemma delivered_wire (v : json) (s : State) : wire (delivered P v s) = wire s.
Proof.
  pose proof (shown_core P v s) as E. unfold core in E.
  injection E as _ _ _ _ _ _ _ _ _ _ _ Ew _ _ _ _.
  unfold delivered. destruct (0 <? _); [|exact Ew].
  destruct (sendRequest_keeps (shown P v s))
    as (_ & _ & _ & _ & _ & _ & _ & _ & _ & _ & _ & _ & -> & _). exact Ew.
Qed.

(** An event transmits nothing, or the message of one suspended send. *)
Lemma after_wire (e : Event) (s : State) :
  wire (after P e s) = wire s ∨
  ∃ x, x ∈ encoding s ∧
    wire (after P e s) =
      wire s ++ [mkFrame (socket x) (number x)
                   {| data := blobToBase64 P (combinedBlob x);
                      models := modelName P;
                      stream_window_ms := streamWindowLengthMs P |}].
Proof.
  destruct e; cbn [after]; try (left; reflexivity).
  - left. apply stopped_sends.
  - left. destruct (received_cases P d (onSocket h answered s))
      as [(_ & _ & _ & ->)|[(r & x & _ & _ & _ & _ & _ & ->)|(r & _ & _ & _ & _ & _ & ->)]].
    + reflexivity.
    + etransitivity; [apply stopped_sends|reflexivity].
    + rewrite delivered_wire. reflexivity.
  - unfold errored. destruct (maxReconnects <? _); [|left; reflexivity].
    left. etransitivity; [apply stopped_sends|reflexivity].
  - unfold reconnected. destruct (mountRef _); left; reflexivity.
  - match goal with |- context [looped ?y] =>
      destruct (looped_keeps y) as (_ & _ & _ & -> & _) end.
    left. reflexivity.
  - match goal with |- context [looped ?y] =>
      destruct (looped_keeps y) as (_ & _ & _ & -> & _) end.
    left. destruct (serverReadyRef s); [|reflexivity].
    destruct (sendRequest_keeps (arrived blob (pred (recording s)) s))
      as (_ & _ & _ & _ & _ & _ & _ & _ & _ & _ & _ & _ & -> & _). reflexivity.
  - destruct (encoding s !! i) as [x|] eqn:Ex; [|left; reflexivity]. unfold sent.
    destruct (readyStateOf _ _); try (left; reflexivity).
    right. exists x. split; [eapply list_elem_of_lookup_2, Ex|reflexivity].
Qed.

Lemma Formed_step (e : Event) (s s' : State) :
  Formed P s → step P e s = Some s' → Formed P s'.
Proof.
  intros [H1 H2] Hstep. apply step_after in Hstep as [-> _]. split.
  - intros parts Hin.
    destruct (after_drained e s) as [E|(q & Hq & E)]; rewrite E in Hin; [auto|].
    apply elem_of_app in Hin as [Hin|Hin]; [auto|].
    apply list_elem_of_singleton in Hin. congruence.
  - intros f Hin.
    destruct (after_wire e s) as [E|(x & Hx & E)]; rewrite E in Hin; [auto|].
    apply elem_of_app in Hin as [Hin|Hin]; [auto|].
    apply list_elem_of_singleton in Hin. subst f. auto.
Qed.

Lemma Formed_run (t : list Event) (s : State) : run P t init = Some s → Formed P s.
Proof.
  apply (run_invariant P (Formed P) Formed_step).
  split; intros x Hx; apply elem_of_nil in Hx; contradiction.
Qed.

(** A batch that was taken stays where it is in [drained]. *)
Lemma drained_run (t : list Event) (s s' : State) (n : nat) (parts : list Blob) :
  run P t s = Some s' → drained s !! n = Some parts → drained s' !! n = Some parts.
Proof.
  revert s. induction t as [|e t IH]; intros s Hrun Hn.
  - injection Hrun as <-. exact Hn.
  - cbn in Hrun. destruct (step P e s) as [s1|] eqn:E; cbn in Hrun; [|discriminate].
    apply (IH s1 Hrun). apply step_after in E as [-> _].
    destruct (after_drained e s) as [->|(q & _ & ->)]; [exact Hn|].
    apply lookup_app_l_Some, Hn.
Qed.

End Outbound.

(** X11. No empty request is sent.  Every batch that [sendRequest] has taken
    from the queue holds at least one chunk: the capture loop calls it after
    it has queued a chunk, and [socketOnMessage] only when the queue is not
    empty.  Every message transmitted names the model and the stream window of
    the props, and carries the encoding of such a batch. *)
Theorem no_empty_request_is_sent (P : Inputs) (t : list Event) (s : State) :
  run P t init = Some s →
  (∀ parts, parts ∈ drained s → parts ≠ []) ∧
  (∀ f, f ∈ wire s →
     models (body f) = modelName P ∧
     stream_window_ms (body f) = streamWindowLengthMs P ∧
     ∃ parts, drained s !! batch f = Some parts ∧ parts ≠ [] ∧
              data (body f) = blobToBase64 P (newBlob parts)).
Proof.
  intros Hrun. destruct (Formed_run P t s Hrun) as [H1 H2].
  destruct (Conserved_run P t s Hrun) as [_ _ _ H4].
  split; [exact H1|]. intros f Hf. destruct (H2 f Hf) as (A & B).
  split; [exact A|]. split; [exact B|].
  destruct (H4 f Hf) as (parts & Hl & Hd). exists parts.
  split; [exact Hl|]. split; [|exact Hd].
  apply H1. eapply list_elem_of_lookup_2, Hl.
Qed.

Lemma no_empty_request_is_sent_witness :
  ∃ s,
    run ProsodyWidgets (session ++ [SockMessage 0 noPredictions; Encoded 0]) init = Some s ∧
    drained s = [[chunkA]; [chunkB]] ∧
    (∀ f, f ∈ wire s → models (body f) = "prosody").
Proof.
  eexists. split; [vm_compute; reflexivity|]. split; [vm_compute; reflexivity|].
  intros f Hf.
  match type of Hf with
  | _ ∈ wire ?a =>
      pose proof (no_empty_request_is_sent ProsodyWidgets
        (session ++ [SockMessage 0 noPredictions; Encoded 0]) a) as H
  end.
  destruct H as (_ & H); [vm_compute; reflexivity|].
  destruct (H f Hf) as (H1 & _). exact H1.
Defined.

(** ** A batch that is dropped *)

Section DroppedSteps.

Context (P : Inputs).

Lemma Dropped_frame (n : nat) (s s' : State) :
  Wired s' → drained s' = drained s → encoding s' = encoding s → wire s' = wire s →
  Dropped n s → Dropped n s'.
Proof. intros HW E1 E2 E3 [_ H]. split; [exact HW|]. rewrite E1, E2, E3. exact H. Qed.

Lemma Dropped_sendRequest (n : nat) (s : State) :
  Dropped n s → Dropped n (sendRequest s).2.
Proof.
  intros [HW (H1 & H2 & H3)]. split; [apply Wired_sendRequest, HW|].
  rewrite sendRequest_eq. cbn [snd].
  destruct (socketRef s) as [h|]; [|repeat split; assumption].
  destruct (isOPEN _); [|repeat split; assumption].
  unfold taken; cbn. split; [rewrite length_app; cbn; lia|]. split; [|exact H3].
  rewrite fmap_app. cbn. intros Hin. apply elem_of_app in Hin as [Hin|Hin]; [auto|].
  apply list_elem_of_singleton in Hin. lia.
Qed.

Lemma Dropped_resumed (n : nat) (s : State) (i : nat) :
  Dropped n s → Dropped n (resumed i s).
Proof.
  intros [HW (H1 & H2 & H3)]. split; [apply Wired_resumed, HW|].
  unfold resumed; cbn. split; [exact H1|]. split; [|exact H3].
  intros Hin. apply H2. apply list_elem_of_fmap in Hin as (x & -> & Hx).
  apply list_elem_of_fmap. exists x. split; [reflexivity|].
  eapply list_elem_of_delete_inv, Hx.
Qed.

Lemma Dropped_transmitted (n : nat) (s : State) (i : nat) (e : Encode) :
  Dropped n s → encoding s !! i = Some e → Dropped n (transmitted P e (resumed i s)).
Proof.
  intros H He. pose proof (Dropped_resumed n s i H) as [_ (H1 & H2 & H3)].
  destruct H as [HW (_ & H2' & _)]. split; [apply Wired_transmitted, HW|].
  unfold transmitted, onSocket; cbn. cbn in H1, H2, H3.
  split; [exact H1|]. split; [exact H2|].
  rewrite fmap_app. cbn. intros Hin. apply elem_of_app in Hin as [Hin|Hin]; [auto|].
  apply list_elem_of_singleton in Hin. apply H2'. apply list_elem_of_fmap.
  exists e. split; [exact Hin|]. eapply list_elem_of_lookup_2, He.
Qed.

Lemma Dropped_step (n : nat) (e : Event) (s s' : State) :
  Dropped n s → step P e s = Some s' → Dropped n s'.
Proof.
  intros H Hstep.
  refine (step_preserves P (Dropped n) (Dropped n) (λ _ _, True)
    _ _ _ _ _ _ _ (λ s H, H) (λ s H _, Dropped_sendRequest n s H)
    _ _ _ _ _ _ _ (λ s H _, Dropped_sendRequest n s H)
    (λ s i e H _, Dropped_resumed n s i H)
    (λ s i e H He _, Dropped_transmitted n s i e H He)
    e s s' H (λ _ _ _, Logic.I) Hstep); clear e s s' H Hstep.
  - intros s s' Hv H. pose proof (Wired_view s s' Hv (proj1 H)) as HW.
    view_subst Hv. apply (Dropped_frame n s); auto.
  - intros s s' Hv H. pose proof (Wired_view s s' Hv (proj1 H)) as HW.
    view_subst Hv. apply (Dropped_frame n s); auto.
  - intros s H Heff. apply (Dropped_frame n s); [|reflexivity..|exact H].
    apply Wired_mount; [apply H|exact Heff].
  - intros s [HW _] Heff. apply (wired_fresh _ _ _ _ _ HW Heff).
  - intros s H Heff. destruct (stopped_sends s) as (E1 & E2 & E3 & _).
    apply (Dropped_frame n s); [|exact E1|exact E3|exact E2|exact H].
    apply Wired_stopped; [apply H|exact Heff].
  - intros s h w H Hw Hr. apply (Dropped_frame n s); [|reflexivity..|exact H].
    eapply Wired_open; eauto. apply H.
  - intros s h w H Hw Hr _. apply (Dropped_frame n s); [|reflexivity..|exact H].
    apply Wired_answered, H.
  - intros s H _. apply (Dropped_frame n s); [|reflexivity..|exact H]. apply H.
  - intros s h w H Hw Hr. apply (Dropped_frame n s); [|reflexivity..|exact H].
    eapply Wired_closing; eauto. apply H.
  - intros s h w H Hw Hr. apply (Dropped_frame n s); [|reflexivity..|exact H].
    apply Wired_error, H.
  - intros s H _. apply (Dropped_frame n s); [|reflexivity..|exact H]. apply H.
  - intros s h w H Hw Hr. apply (Dropped_frame n s); [|reflexivity..|exact H].
    apply Wired_close, H.
  - intros s h w H Hw Hf Hm. apply (Dropped_frame n s); [|reflexivity..|exact H].
    eapply Wired_reconnect; eauto. apply H.
  - intros s b H. apply (Dropped_frame n s); [|reflexivity..|exact H]. apply H.
Qed.

End DroppedSteps.

(** X12. A batch whose socket is no longer open when its encoding completes
    is dropped.  [sendRequest] takes the batch from the queue before it awaits
    [blobToBase64]; if the socket it holds has been closed in the meantime,
    [socket.send] discards the message without an exception, and the batch,
    which is no longer in the queue, is never transmitted: in every state
    reached afterwards it is still among the batches taken, and no message on
    the wire and no suspended send carries it. *)
Theorem batch_on_a_closed_socket_is_dropped (P : Inputs) (t1 t2 : list Event)
    (s s1 s2 : State) (i : nat) (e : Encode) :
  run P t1 init = Some s →
  encoding s !! i = Some e → readyStateOf s (socket e) ≠ OPEN →
  step P (Encoded i) s = Some s1 → run P t2 s1 = Some s2 →
  (∃ parts, drained s !! number e = Some parts ∧ combinedBlob e = newBlob parts ∧
            drained s2 !! number e = Some parts) ∧
  wire s1 = wire s ∧ rejections s1 = rejections s ∧
  (number e ∉ (batch <$> wire s2)) ∧ (number e ∉ (number <$> encoding s2)).
Proof.
  intros Hrun He Hno Hstep Hrun2.
  pose proof (Wired_run P t1 s Hrun) as HW.
  destruct (Conserved_run P t1 s Hrun) as [C1 C2 C3 C4].
  pose proof (step_rejections P t1 (Encoded i) s s1 Hrun Hstep) as Hr1.
  cbn [thrown] in Hr1. rewrite app_nil_r in Hr1.
  destruct (C3 e) as (parts & Hl & Hb); [eapply list_elem_of_lookup_2, He|].
  assert (Hs1 : wire s1 = wire s ∧ encoding s1 = delete i (encoding s) ∧
                drained s1 = drained s).
  { apply step_after in Hstep as [-> _]. cbn [after]. rewrite He. unfold sent.
    change (readyStateOf (resumed i s) (socket e)) with (readyStateOf s (socket e)).
    destruct (readyStateOf s (socket e)); try contradiction; repeat split. }
  destruct Hs1 as (W1 & E1 & D1).
  assert (HD : Dropped (number e) s1).
  { split; [eapply Wired_step; eauto|]. rewrite W1, E1, D1.
    rewrite (delete_Permutation _ i e He) in C2. cbn in C2.
    apply NoDup_cons in C2 as [Hnot _].
    split; [eapply lookup_lt_Some, Hl|].
    split; intros Hin; apply Hnot, elem_of_app; auto. }
  assert (HD2 : Dropped (number e) s2)
    by (apply (run_invariant P _ (Dropped_step P (number e)) t2 s1 s2 HD Hrun2)).
  destruct HD2 as [_ (_ & A & B)].
  split; [|auto].
  exists parts. split; [exact Hl|]. split; [exact Hb|].
  apply (drained_run P t2 s1 s2 _ _ Hrun2). rewrite D1. exact Hl.
Qed.

Lemma batch_on_a_closed_socket_is_dropped_witness :
  ∃ s s1 s2,
    run ProsodyWidgets
      [Mount; SockOpen 0; RecorderCreated; ChunkRecorded chunkA; SockClosing 0] init
      = Some s ∧
    encoding s !! 0 = Some (mkEncode 0 0 chunkA) ∧ readyStateOf s 0 = CLOSING ∧
    step ProsodyWidgets (Encoded 0) s = Some s1 ∧
    run ProsodyWidgets [SockClose 0; SockOpen 1; ChunkRecorded chunkB; Encoded 0] s1
      = Some s2 ∧
    drained s2 = [[chunkA]; [chunkB]] ∧ batch <$> wire s2 = [1] ∧
    (0 ∉ (batch <$> wire s2)).
Proof.
  eexists _, _, _.
  split; [vm_compute; reflexivity|]. split; [vm_compute; reflexivity|].
  split; [vm_compute; reflexivity|]. split; [vm_compute; reflexivity|].
  split; [vm_compute; reflexivity|]. split; [vm_compute; reflexivity|].
  split; [vm_compute; reflexivity|].
  match goal with
  | |- _ ∉ (batch <$> wire ?c) =>
      pose proof (batch_on_a_closed_socket_is_dropped ProsodyWidgets
        [Mount; SockOpen 0; RecorderCreated; ChunkRecorded chunkA; SockClosing 0]
        [SockClose 0; SockOpen 1; ChunkRecorded chunkB; Encoded 0]
        (default init (run ProsodyWidgets
           [Mount; SockOpen 0; RecorderCreated; ChunkRecorded chunkA; SockClosing 0] init))
        (default init (run ProsodyWidgets
           [Mount; SockOpen 0; RecorderCreated; ChunkRecorded chunkA; SockClosing 0;
            Encoded 0] init))
        c 0 (mkEncode 0 0 chunkA)) as H
  end.
  destruct H as (_ & _ & _ & H & _);
    [vm_compute; reflexivity | vm_compute; reflexivity | vm_compute; discriminate
    | vm_compute; reflexivity | vm_compute; reflexivity |].
  exact H.
Defined.

(** ** The order of what goes out *)

Lemma pendingOn_pos (enc : list Encode) (e : Encode) :
  e ∈ enc → 0 < pendingOn enc (socket e).
Proof.
  intros He. unfold pendingOn.
  assert (Hin : e ∈ filter (λ x, socket x = socket e) enc)
    by (apply list_elem_of_filter; auto).
  destruct (filter _ enc); [apply elem_of_nil in Hin; contradiction|cbn; lia].
Qed.

Section OrderedSteps.

Context (P : Inputs).

Lemma Ordered_frame (s s' : State) :
  socketRef s' = socketRef s → drained s' = drained s → encoding s' = encoding s →
  wire s' = wire s → Ordered s → Ordered s'.
Proof. unfold Ordered. intros -> -> -> ->. auto. Qed.

Lemma Ordered_unset (s s' : State) :
  socketRef s' = None → drained s' = drained s → encoding s' = encoding s →
  wire s' = wire s → Ordered s → Ordered s'.
Proof.
  unfold Ordered. intros -> -> -> -> (H1 & H2 & H3 & H4).
  split; [exact H1|]. split; [exact H2|]. split; [exact H3|]. discriminate.
Qed.

Lemma Ordered_fresh (s s' : State) :
  Wired s → socketRef s' = Some (length (sockets s)) → drained s' = drained s →
  encoding s' = encoding s → wire s' = wire s → Ordered s → Ordered s'.
Proof.
  unfold Ordered. intros HW -> -> -> -> (H1 & H2 & H3 & H4).
  split; [exact H1|]. split; [exact H2|]. split; [exact H3|].
  intros e f He _ [= Hs]. pose proof (wired_encoding _ _ _ _ _ HW e He). lia.
Qed.

Lemma Ordered_sendRequest (s : State) : Ordered s → Ordered (sendRequest s).2.
Proof.
  intros (H1 & H2 & H3 & H4). rewrite sendRequest_eq. cbn [snd].
  destruct (socketRef s) as [h|] eqn:Eso;
    [|unfold Ordered, OrderedV; rewrite Eso; auto 6].
  destruct (isOPEN _).
  - unfold Ordered, OrderedV, taken; cbn. rewrite Eso. rewrite length_app. cbn.
    split; [intros f Hf; specialize (H1 f Hf); lia|].
    split.
    { intros e He. apply elem_of_app in He as [He|He]; [specialize (H2 e He); lia|].
      apply list_elem_of_singleton in He. subst e. cbn. lia. }
    split; [exact H3|].
    intros e f He Hf Hs. apply elem_of_app in He as [He|He]; [eauto|].
    apply list_elem_of_singleton in He. subst e. cbn. apply H1, Hf.
  - unfold Ordered, OrderedV, ws_close, onSocket; cbn. rewrite Eso. auto 6.
Qed.

Lemma Ordered_resumed (s : State) (i : nat) : Ordered s → Ordered (resumed i s).
Proof.
  intros (H1 & H2 & H3 & H4). unfold Ordered, OrderedV, resumed; cbn.
  split; [exact H1|].
  split; [intros e He; apply H2; eapply list_elem_of_delete_inv, He|].
  split; [exact H3|].
  intros e f He. apply H4. eapply list_elem_of_delete_inv, He.
Qed.

(** With at most one batch in flight, the send that is resumed on the open
    socket is the only one suspended for it. *)
Lemma Ordered_transmitted (s : State) (i : nat) (e : Encode) :
  Paced s → Ordered s → encoding s !! i = Some e →
  readyStateOf s (socket e) = OPEN →
  Ordered (transmitted P e (resumed i s)).
Proof.
  intros [HW [P1 _]] (H1 & H2 & H3 & H4) He Hr.
  assert (Hin : e ∈ encoding s) by (eapply list_elem_of_lookup_2, He).
  assert (Hso : socketRef s = Some (socket e)).
  { unfold readyStateOf in Hr.
    destruct (sockets s !! socket e) as [w|] eqn:Ew; [|discriminate].
    eapply Wired_current_of_open; eauto. }
  assert (Hone : ∀ x, x ∈ delete i (encoding s) → socket x ≠ socket e).
  { intros x Hx Hs. pose proof (pendingOn_pos _ x Hx) as Hp. rewrite Hs in Hp.
    specialize (P1 (socket e)).
    rewrite (pendingOn_delete _ i e (socket e) He) in P1.
    rewrite decide_True in P1 by reflexivity. lia. }
  unfold Ordered, OrderedV, transmitted, resumed, onSocket; cbn.
  split.
  { intros f Hf. apply elem_of_app in Hf as [Hf|Hf]; [auto|].
    apply list_elem_of_singleton in Hf. subst f. cbn. auto. }
  split; [intros x Hx; apply H2; eapply list_elem_of_delete_inv, Hx|].
  split.
  { intros a b f g Hf Hg Hlt.
    apply lookup_app_Some in Hf as [Hf|[Hge Hf]];
      apply lookup_app_Some in Hg as [Hg|[Hge' Hg]].
    - eauto.
    - destruct (b - length (wire s)) as [|k]; [|discriminate]. injection Hg as <-.
      cbn. apply (H4 e f Hin); [eapply list_elem_of_lookup_2, Hf|exact Hso].
    - apply lookup_lt_Some in Hg. lia.
    - destruct (a - length (wire s)) as [|k] eqn:Ea; [|discriminate].
      destruct (b - length (wire s)) as [|k'] eqn:Eb; [lia|discriminate]. }
  intros x f Hx Hf Hs. exfalso. apply (Hone x Hx). congruence.
Qed.

Lemma Ordered_step (e : Event) (s s' : State) :
  Paced s ∧ Ordered s → isResponse s e = true → step P e s = Some s' →
  Paced s' ∧ Ordered s'.
Proof.
  intros H Hresp Hstep.
  refine (step_preserves P (λ s, Paced s ∧ Ordered s) (λ s, Answered s ∧ Ordered s)
    (λ s h, 0 < owedOn (sockets s) h)
    _ _ _ _ _ _ _ _ _ _ _ _ (λ s H _, H) _ _ _ _ _ _ e s s' H _ Hstep).
  - intros x x' Hv [HP HO]. split; [eapply Paced_view; eauto|].
    view_subst Hv. eapply Ordered_frame; eauto.
  - intros x x' Hv [HP HO]. split; [eapply Answered_view; eauto|].
    view_subst Hv. eapply Ordered_frame; eauto.
  - intros x [HP HO] Heff. split; [apply Paced_mount; assumption|].
    destruct (wired_fresh _ _ _ _ _ (proj1 HP) Heff) as (Hs & _).
    apply (Ordered_fresh x); try reflexivity; [apply HP|exact HO].
  - intros x [HP HO] Heff. apply (wired_fresh _ _ _ _ _ (proj1 HP) Heff).
  - intros x [HP HO] Heff. split; [apply Paced_stopped; assumption|].
    destruct (stopped_sends x) as (E1 & E2 & E3 & _).
    pose proof (stopped_view x) as Ev. unfold view in Ev.
    injection Ev as E0 _ _ _ _ _ _ _ _ _ _.
    apply (Ordered_unset x); assumption.
  - intros x h w [HP HO] Hw Hr. split; [|exact HO].
    apply Paced_onSocket; [reflexivity|exact HP|].
    eapply Wired_open; eauto. apply HP.
  - intros x h w [HP HO] Hw Hr Hg. split; [|exact HO].
    eapply Answered_answered; eauto.
  - intros x [HA HO]. split; [apply HA|exact HO].
  - intros x [[HP Hz] HO] _. split; [apply Paced_sendRequest; assumption|].
    apply Ordered_sendRequest, HO.
  - intros x [HA HO] _. split; [apply Answered_ready, HA|exact HO].
  - intros x h w [HP HO] Hw Hr. split; [|exact HO].
    apply Paced_onSocket; [reflexivity|exact HP|].
    eapply Wired_closing; eauto. apply HP.
  - intros x h w [HP HO] Hw Hr. split; [|exact HO].
    apply Paced_onSocket; [reflexivity|exact HP|]. apply Wired_error, HP.
  - intros x h w [HP HO] Hw Hr. split; [|exact HO].
    apply Paced_onSocket; [reflexivity|exact HP|]. apply Wired_close, HP.
  - intros x h w [HP HO] Hw Hf Hm. split; [eapply Paced_reconnect; eauto|].
    apply (Ordered_fresh (onSocket h closedNow x)); try reflexivity; [|exact HO].
    apply Wired_close, HP.
  - intros x b [HP HO]. split; [exact HP|exact HO].
  - intros x [HP HO] Hr. split; [|apply Ordered_sendRequest, HO].
    apply Paced_sendRequest; [exact HP|].
    intros h Hh. destruct HP as [_ [_ H2]]. apply H2; assumption.
  - intros x i y [HP HO] Hy. split; [eapply Paced_resumed; eauto|].
    apply Ordered_resumed, HO.
  - intros x i y [HP HO] Hy Hr. split; [apply Paced_transmitted; assumption|].
    apply Ordered_transmitted; assumption.
  - intros h d ->. cbn in Hresp. unfold owedOn.
    destruct (sockets s !! h); [|discriminate]. apply Nat.ltb_lt, Hresp.
Qed.

Lemma Ordered_run (t : list Event) (s s' : State) :
  Paced s ∧ Ordered s → responsive P t s = true → run P t s = Some s' →
  Paced s' ∧ Ordered s'.
Proof.
  revert s. induction t as [|e t IH]; intros s Hs Hresp Hrun; cbn in *.
  - injection Hrun as <-. exact Hs.
  - apply andb_true_iff in Hresp as [He Hresp].
    destruct (step P e s) as [s1|] eqn:E; cbn in Hrun; [|discriminate].
    eapply IH; [|exact Hresp|exact Hrun]. eapply Ordered_step; eauto.
Qed.

End OrderedSteps.

(** X13. The batches go out in the order in which they were taken.  In every
    state reached by a sequence of events in which each message answers a
    message sent before it, the numbers of the batches on the wire increase
    along the wire, and a send suspended for the current socket holds a batch
    taken after all of them: together with the order of the chunks in the
    batches, the audio that reaches the server is in the order of its
    capture. *)
Theorem batches_go_out_in_order (P : Inputs) (t : list Event) (s : State) :
  responsive P t init = true → run P t init = Some s →
  (∀ i j f g, wire s !! i = Some f → wire s !! j = Some g → i < j →
     batch f < batch g) ∧
  (∀ e f, e ∈ encoding s → f ∈ wire s → socketRef s = Some (socket e) →
     batch f < number e).
Proof.
  intros Hresp Hrun.
  destruct (Ordered_run P t init s) as [_ (_ & _ & H3 & H4)]; auto.
  split; [apply Paced_init|].
  split; [|split; [|split]]; cbn; intros;
    repeat match goal with
    | H : _ ∈ [] |- _ => apply elem_of_nil in H; contradiction
    | H : [] !! _ = Some _ |- _ => rewrite lookup_nil in H; discriminate
    end.
Qed.

Lemma batches_go_out_in_order_witness :
  ∃ s,
    responsive ProsodyWidgets
      (session ++ [SockMessage 0 noPredictions; Encoded 0]) init = true ∧
    run ProsodyWidgets (session ++ [SockMessage 0 noPredictions; Encoded 0]) init
      = Some s ∧
    batch <$> wire s = [0; 1] ∧
    (∀ f g, wire s !! 0 = Some f → wire s !! 1 = Some g → batch f < batch g).
Proof.
  eexists. split; [vm_compute; reflexivity|]. split; [vm_compute; reflexivity|].
  split; [vm_compute; reflexivity|].
  intros f g Hf Hg.
  match type of Hf with
  | wire ?a !! _ = _ =>
      pose proof (batches_go_out_in_order ProsodyWidgets
        (session ++ [SockMessage 0 noPredictions; Encoded 0]) a) as H
  end.
  destruct H as (H & _); [vm_compute; reflexivity..|].
  apply (H 0 1 f g Hf Hg). lia.
Defined.

(** ** The chart of emotions *)

Lemma insertSorted_perm cmp a l : insertSorted cmp a l ≡ₚ a :: l.
Proof.
  induction l as [|b l IH]; cbn; [reflexivity|].
  destruct (0 <? cmp a b)%float; [|reflexivity].
  rewrite IH. apply Permutation_swap.
Qed.

Lemma sort_perm cmp l : sort cmp l ≡ₚ l.
Proof.
  induction l as [|a l IH]; cbn; [reflexivity|].
  rewrite insertSorted_perm. constructor. exact IH.
Qed.

(** Inserting into a list in which no element is followed by one that goes
    before it gives such a list, when the comparator does not put the new
    element both before and after another. *)
Lemma insertSorted_sorted cmp a l :
  (∀ b, b ∈ l → (0 <? cmp a b)%float = true → (0 <? cmp b a)%float = false) →
  (∀ i x y, l !! i = Some x → l !! S i = Some y → (0 <? cmp x y)%float = false) →
  ∀ i x y, insertSorted cmp a l !! i = Some x → insertSorted cmp a l !! S i = Some y →
           (0 <? cmp x y)%float = false.
Proof.
  induction l as [|b l IH]; intros Hanti Hl i x y Hx Hy.
  - destruct i; cbn in Hy; discriminate.
  - cbn [insertSorted] in Hx, Hy. destruct (0 <? cmp a b)%float eqn:Hab.
    + destruct i as [|i].
      * cbn in Hx, Hy. injection Hx as <-.
        destruct l as [|c l]; cbn in Hy.
        -- injection Hy as <-. apply Hanti; [left|exact Hab].
        -- destruct (0 <? cmp a c)%float eqn:Hac; cbn in Hy; injection Hy as <-.
           ++ apply (Hl 0 b c); reflexivity.
           ++ apply Hanti; [left|exact Hab].
      * cbn in Hx, Hy. apply (IH (λ c Hc, Hanti c (list_elem_of_further _ _ _ Hc))
                                 (λ j u v Hu Hv, Hl (S j) u v Hu Hv) i x y Hx Hy).
    + destruct i as [|i].
      * cbn in Hx, Hy. injection Hx as <-. injection Hy as <-. exact Hab.
      * cbn in Hx, Hy. apply (Hl i x y Hx Hy).
Qed.

Lemma consistent_antisym (es : list Emotion.t) (a b : Emotion.t) :
  consistent es = true → a ∈ es → b ∈ es →
  (0 <? compareFn a b)%float = true → (0 <? compareFn b a)%float = false.
Proof.
  unfold consistent. intros H Ha Hb Hab.
  rewrite forallb_forall in H. apply list_elem_of_In in Ha, Hb.
  specialize (H a Ha). apply andb_true_iff in H as [Hrefl H].
  rewrite forallb_forall in H. specialize (H b Hb).
  apply andb_true_iff in H as [_ H].
  rewrite forallb_forall in H. specialize (H a Ha).
  apply andb_true_iff in H as [_ H].
  unfold eqCF in Hrefl. apply andb_true_iff in Hrefl as [Hrefl _].
  apply negb_true_iff in Hrefl.
  fold (gtCF a b) in Hab. fold (gtCF b a).
  destruct (gtCF b a); [|reflexivity].
  rewrite Hab, Hrefl in H. discriminate.
Qed.

Lemma sort_sorted (es : list Emotion.t) :
  consistent es = true →
  ∀ i x y, sort compareFn es !! i = Some x → sort compareFn es !! S i = Some y →
           (0 <? compareFn x y)%float = false.
Proof.
  intros Hc.
  assert (H : ∀ l, (∀ a, a ∈ l → a ∈ es) →
            ∀ i x y, sort compareFn l !! i = Some x → sort compareFn l !! S i = Some y →
                     (0 <? compareFn x y)%float = false).
  { induction l as [|a l IH]; intros Hsub.
    - intros i x y Hx. cbn in Hx. rewrite lookup_nil in Hx. discriminate.
    - cbn [sort foldr]. apply insertSorted_sorted.
      + intros b Hb. apply (consistent_antisym es a b Hc); [apply Hsub; left|].
        apply Hsub. right. rewrite <- (sort_perm compareFn l). exact Hb.
      + apply IH. intros b Hb. apply Hsub. right. exact Hb. }
  apply H. auto.
Qed.

(** X14. Each run of the effect adds the first three emotions of the sorted
    array, or all of them if they are fewer, to the chart.  The effect sorts the array of
    emotions in place, which permutes it; the history keeps its entries and
    gains one for each of the first three emotions of the sorted array, with
    the name and the score of the emotion and, all of them, the time of the
    run.  The chart built from the history has one dataset, labelled [Emotion
    Score]; it keeps the labels and the data points it had and gains as many
    new ones, a label being the time of the entry alone in a list and the data
    point its score, so that labels and data points stay aligned.  With no
    prediction there is no emotion, and the history stays as it is. *)
Theorem effect_adds_top_three_to_chart (now : string) (es : list Emotion.t)
    (prev : list Point) :
  let sorted := (emotionsEffect now es prev).1 in
  let history := (emotionsEffect now es prev).2 in
  let before := transformEmotionsToChartData prev in
  let chart := transformEmotionsToChartData history in
  sorted ≡ₚ es ∧
  length history = length prev + 3 `min` length es ∧
  take (length prev) history = prev ∧
  (∀ p, p ∈ drop (length prev) history →
     time p = now ∧ ∃ e, e ∈ es ∧ name p = Emotion.name e ∧ score p = Emotion.score e) ∧
  Chart.labels chart = Chart.labels before ++ replicate (3 `min` length es) [now] ∧
  (∃ d d', Chart.datasets before = [d] ∧ Chart.datasets chart = [d'] ∧
     Chart.label d' = "Emotion Score" ∧
     Chart.data d' = Chart.data d ++ (Emotion.score <$> take 3 sorted) ∧
     length (Chart.labels chart) = length (Chart.data d')) ∧
  (emotionsEffect now (emotions []) prev).2 = prev.
Proof.
  cbv zeta. unfold emotionsEffect. cbn [fst snd].
  pose proof (sort_perm compareFn es) as Hperm.
  assert (Hlen : length (take 3 (sort compareFn es)) = 3 `min` length es).
  { rewrite length_take, (Permutation_length Hperm). reflexivity. }
  split; [exact Hperm|].
  split; [rewrite length_app, length_fmap, Hlen; reflexivity|].
  split; [rewrite take_app_length; reflexivity|].
  split.
  { intros p Hp. rewrite drop_app_length in Hp.
    apply list_elem_of_fmap in Hp as (e & -> & He). cbn. split; [reflexivity|].
    exists e. split; [|auto]. rewrite <- Hperm.
    apply elem_of_take in He as (j & Hj & _). eapply list_elem_of_lookup_2, Hj. }
  split.
  { unfold transformEmotionsToChartData. cbn [Chart.labels]. rewrite fmap_app. f_equal.
    rewrite <- list_fmap_compose, <- Hlen.
    generalize (take 3 (sort compareFn es)). intros l. induction l; cbn; congruence. }
  split.
  { eexists _, _. split; [reflexivity|]. split; [reflexivity|]. split; [reflexivity|].
    unfold transformEmotionsToChartData.
    cbn [Chart.data Chart.labels]. rewrite !fmap_app, <- list_fmap_compose.
    split; [reflexivity|]. rewrite !length_app, !length_fmap. reflexivity. }
  cbn. apply app_nil_r.
Qed.

(** X15. The entries that a run of the effect adds are in descending order of
    score.  When the comparator orders the emotions consistently, as it does
    for scores that are finite numbers, no entry added is followed by one
    whose score exceeds its own. *)
Theorem top_emotions_are_in_descending_order (now : string) (es : list Emotion.t)
    (prev : list Point) (i : nat) (p q : Point) :
  consistent es = true →
  drop (length prev) (emotionsEffect now es prev).2 !! i = Some p →
  drop (length prev) (emotionsEffect now es prev).2 !! S i = Some q →
  (0 <? score q - score p)%float = false.
Proof.
  intros Hc Hp Hq. unfold emotionsEffect in Hp, Hq. cbn [snd] in Hp, Hq.
  rewrite drop_app_length in Hp, Hq.
  rewrite list_lookup_fmap in Hp, Hq.
  destruct (take 3 (sort compareFn es) !! i) as [a|] eqn:Ha; [|discriminate].
  destruct (take 3 (sort compareFn es) !! S i) as [b|] eqn:Hb; [|discriminate].
  injection Hp as <-. injection Hq as <-. cbn.
  apply lookup_take_Some in Ha as [Ha _]. apply lookup_take_Some in Hb as [Hb _].
  apply (sort_sorted es Hc i a b Ha Hb).
Qed.

Lemma top_emotions_are_in_descending_order_witness :
  consistent sampleEmotions = true ∧
  score <$> (emotionsEffect "12:00" sampleEmotions []).2 = [0.75; 0.625; 0.5]%float ∧
  ∀ p q, (emotionsEffect "12:00" sampleEmotions []).2 !! 0 = Some p →
         (emotionsEffect "12:00" sampleEmotions []).2 !! 1 = Some q →
         (0 <? score q - score p)%float = false.
Proof.
  split; [vm_compute; reflexivity|]. split; [vm_compute; reflexivity|].
  intros p q Hp Hq.
  apply (top_emotions_are_in_descending_order "12:00" sampleEmotions [] 0 p q);
    [vm_compute; reflexivity|exact Hp|exact Hq].
Defined.
